(** * PURIFY measurement operators: a shallow embedding

    The C sources embedded here are [purify_image.c] (image index
    linearisation) and [purify_measurement_gauss.c] (gridding set-up, the
    continuous Fourier operators, their symmetric variants and the power
    method).

    Conventions of the embedding:
    - a C [int] is a [Z]; sizes and indices of allocated buffers are taken
      in [Z] without wrap-around, a [double] converted to [int] is checked
      against the 32-bit range;
    - a C [double] is a real number of the Standard Library (exact
      arithmetic), a [complex double] is a pair of reals;
    - a heap buffer is a list; every read and write is bounds-checked and an
      access out of range is the error [Undefined];
    - fatal errors raised through the PURIFY error macros and undefined
      behaviour are results [Err _] of the error monad [result]. *)

From Stdlib Require Import String.
From Stdlib Require Import ZArith List Lia Bool.
From Stdlib Require Import Reals Lra Psatz.
Import ListNotations.

Set Implicit Arguments.

(** ** Errors and the error monad *)

Inductive error : Type :=
| ErrGeneric (msg : string)   (* PURIFY_ERROR_GENERIC: fatal, aborts *)
| ErrMemAlloc                 (* PURIFY_ERROR_MEM_ALLOC_CHECK: fatal *)
| Undefined.                  (* undefined behaviour of the C program *)

Inductive result (A : Type) : Type :=
| Ok (a : A)
| Err (e : error).

Arguments Ok {A} a.
Arguments Err {A} e.

Definition bind {A B : Type} (m : result A) (f : A -> result B) : result B :=
  match m with
  | Ok a => f a
  | Err e => Err e
  end.

Notation "x <- m ;; k" := (bind m (fun x => k))
  (at level 61, m at next level, right associativity).
Notation "' p <- m ;; k" := (bind m (fun p => k))
  (at level 61, p pattern, m at next level, right associativity).

(** ** Heap buffers *)

Fixpoint upd {A : Type} (n : nat) (v : A) (l : list A) : list A :=
  match l, n with
  | [], _ => []
  | _ :: t, O => v :: t
  | h :: t, S n' => h :: upd n' v t
  end.

(** [buf[i]] as an rvalue. *)
Definition load {A : Type} (buf : list A) (i : Z) : result A :=
  if (i <? 0)%Z then Err Undefined
  else match nth_error buf (Z.to_nat i) with
       | Some v => Ok v
       | None => Err Undefined
       end.

(** [buf[i] = v]. *)
Definition store {A : Type} (buf : list A) (i : Z) (v : A)
  : result (list A) :=
  if ((0 <=? i) && (i <? Z.of_nat (length buf)))%Z
  then Ok (upd (Z.to_nat i) v buf)
  else Err Undefined.

(** ** Counted loops

    [for_loop n lo body s] runs [body lo], [body (lo+1)], ... [n] times,
    threading the state: the C loop [for (i = lo; i < lo + n; i++)]. *)

Fixpoint for_loop {S : Type} (n : nat) (lo : Z)
         (body : Z -> S -> result S) (s : S) : result S :=
  match n with
  | O => Ok s
  | Datatypes.S n' => s' <- body lo s ;; for_loop n' (lo + 1)%Z body s'
  end.

(** [for (i = lo; i < hi; i++) body]. *)
Definition for_range {S : Type} (lo hi : Z)
           (body : Z -> S -> result S) (s : S) : result S :=
  for_loop (Z.to_nat (hi - lo)) lo body s.

(** ** C [int] and the conversion of a [double] to [int] *)

Definition INT_MIN : Z := (- 2147483648)%Z.
Definition INT_MAX : Z := 2147483647%Z.

(** An [int] expression whose value leaves the range is undefined. *)
Definition check_int (z : Z) : result Z :=
  if ((INT_MIN <=? z) && (z <=? INT_MAX))%Z then Ok z else Err Undefined.

(** The fractional part is discarded (truncation toward zero). *)
Definition Ztrunc (x : R) : Z :=
  if Rle_dec 0 x then Zfloor x else Zceil x.

(** [(int) x], also the implicit conversion in [int i = x]: undefined when
    the truncated value is not representable. *)
Definition double2int (x : R) : result Z := check_int (Ztrunc x).

(** [floor] of <math.h>: a [double] with an integral value. *)
Definition floor (x : R) : R := IZR (Zfloor x).

(** [fabs] of <math.h>. *)
Definition fabs (x : R) : R := Rabs x.

(** ** Complex numbers: [complex double] in exact arithmetic *)

Record complex : Type := mkC { creal : R; cimag : R }.

Declare Scope complex_scope.
Delimit Scope complex_scope with C.
Bind Scope complex_scope with complex.

Definition C0 : complex := mkC 0 0.
Definition C1 : complex := mkC 1 0.
(** The imaginary unit [I] of <complex.h>. *)
Definition Ci : complex := mkC 0 1.
(** Conversion of a [double] to [complex double]. *)
Definition RtoC (r : R) : complex := mkC r 0.

Definition Cadd (a b : complex) : complex :=
  mkC (creal a + creal b) (cimag a + cimag b).
Definition Copp (a : complex) : complex := mkC (- creal a) (- cimag a).
Definition Csub (a b : complex) : complex := Cadd a (Copp b).
Definition Cmul (a b : complex) : complex :=
  mkC (creal a * creal b - cimag a * cimag b)
      (creal a * cimag b + cimag a * creal b).
(** [conj] of <complex.h>. *)
Definition conj (a : complex) : complex := mkC (creal a) (- cimag a).
(** A [complex double] divided by a [double]. *)
Definition Cdivr (a : complex) (r : R) : complex :=
  mkC (creal a / r) (cimag a / r).

Infix "+" := Cadd : complex_scope.
Infix "-" := Csub : complex_scope.
Infix "*" := Cmul : complex_scope.
Notation "- x" := (Copp x) : complex_scope.

(** Finite sums [f 0 + ... + f (n-1)]. *)
Fixpoint Csum (f : nat -> complex) (n : nat) : complex :=
  match n with
  | O => C0
  | S k => (Csum f k + f k)%C
  end.

(** Entry [k] of a vector. *)
Definition cnth (v : list complex) (k : nat) : complex := nth k v C0.

(** The standard complex inner product over the first [n] entries:
    [<a, b> = sum_k conj(a_k) * b_k]. *)
Definition inner (n : nat) (a b : list complex) : complex :=
  Csum (fun k => (conj (cnth a k) * cnth b k)%C) n.

(** [malloc]: a fresh buffer of [n] cells.  Its content is indeterminate;
    no function below reads a cell of a fresh buffer before writing it. *)
Definition malloc {A : Type} (init : A) (n : Z) : list A :=
  repeat init (Z.to_nat n).

(** ** Images: [purify_image.h], [purify_image.c] *)

Record purify_image : Type := {
  fov_x : R;        (* field-of-view of image in first dimension *)
  fov_y : R;        (* field-of-view of image in second dimension *)
  nx : Z;           (* number of image pixels in first dimension *)
  ny : Z;           (* number of image pixels in second dimension *)
  pix : list R      (* image pixel values *)
}.

(** Modelled from the spec: the macro [PURIFY_ERROR_GENERIC] of
    [purify_error.h], which is not among the sources; an invalid dimension
    is a fatal error that aborts the operation with the given message. *)
Definition PURIFY_ERROR_GENERIC {A : Type} (msg : string) : result A :=
  Err (ErrGeneric msg).

(** [purify_image_ixiy2ind]: 1D image index from 2D indices.  The guard is
    the one of the source: both disjuncts test [ix]. *)
Definition purify_image_ixiy2ind (ix iy : Z) (img : purify_image) : result Z :=
  if ((ix >=? nx img) || (ix >=? ny img))%Z
  then PURIFY_ERROR_GENERIC "Image index too large"
  else Ok (ix * ny img + iy)%Z.

(** [purify_image_ind2iuiv]: 2D image indices from the 1D index.  The C
    division of [int]s truncates: [Z.quot]. *)
Definition purify_image_ind2iuiv (ind : Z) (img : purify_image)
  : result (Z * Z) :=
  if (ind >=? nx img * ny img)%Z
  then PURIFY_ERROR_GENERIC "Image index too large"
  else let ix := Z.quot ind (ny img) in
       Ok (ix, ind - ix * ny img)%Z.

(** Modelled from the spec: [purify_visibility_iuiv2ind] of
    [purify_visibility.c], which is not among the sources.  The spec gives
    the linearisation used throughout: [ind = iu*ny + iv]. *)
Definition purify_visibility_iuiv2ind (iu iv nx ny : Z) : Z :=
  (iu * ny + iv)%Z.

(** ** Sparse matrices in compressed row storage

    Modelled from the spec: the type [purify_sparsemat_row] of
    [purify_sparsemat.h], which is not among the sources; the fields are the
    ones [purify_measurement_init_cft] assigns. *)
Record purify_sparsemat_row : Type := {
  nrows : Z;
  ncols : Z;
  nvals : Z;
  real : Z;                          (* 1: the values are in [vals] *)
  cvals : option (list complex);     (* [None] is the NULL pointer *)
  vals : list R;
  colind : list Z;
  rowptr : list Z
}.

(** Modelled from the spec: [purify_sparsemat_fwd_complexr] of
    [purify_sparsemat.c], which is not among the sources.  [y = A x] for a
    real matrix and complex vectors, row by row; duplicate column indices
    accumulate; indices are not validated. *)
Definition purify_sparsemat_fwd_complexr (y x : list complex)
           (A : purify_sparsemat_row) : result (list complex) :=
  for_range 0 (nrows A) (fun r y =>
    y <- store y r C0 ;;
    lo <- load (rowptr A) r ;;
    hi <- load (rowptr A) (r + 1)%Z ;;
    for_range lo hi (fun rr y =>
      c <- load (colind A) rr ;;
      xc <- load x c ;;
      a <- load (vals A) rr ;;
      yr <- load y r ;;
      store y r (yr + xc * RtoC a)%C) y) y.

(** Modelled from the spec: [purify_sparsemat_adj_complexr] of
    [purify_sparsemat.c], which is not among the sources.  [y = A^T x]: the
    output of length [ncols] is cleared, then every stored value scatters
    its contribution; the real coefficients are not conjugated. *)
Definition purify_sparsemat_adj_complexr (y x : list complex)
           (A : purify_sparsemat_row) : result (list complex) :=
  y <- for_range 0 (ncols A) (fun c y => store y c C0) y ;;
  for_range 0 (nrows A) (fun r y =>
    lo <- load (rowptr A) r ;;
    hi <- load (rowptr A) (r + 1)%Z ;;
    for_range lo hi (fun rr y =>
      c <- load (colind A) rr ;;
      xr <- load x r ;;
      a <- load (vals A) rr ;;
      yc <- load y c ;;
      store y c (yc + xr * RtoC a)%C) y) y.

(** ** FFTW

    FFTW is an external library; a plan is modelled by what it was created
    for: the two dimensions of a row-major 2D transform and, for a complex
    transform, the sign of the exponent (FFTW_FORWARD is -1, FFTW_BACKWARD
    is +1).  Executing a plan computes the unnormalised discrete Fourier
    transform of the FFTW manual. *)
Record fftw_plan : Type := {
  plan_n0 : Z;
  plan_n1 : Z;
  plan_sign : Z
}.

(** [cis n m] is [exp (2 pi i m / n)]. *)
Definition cis (n m : Z) : complex :=
  mkC (cos (2 * PI * IZR m / IZR n)) (sin (2 * PI * IZR m / IZR n)).

(** The kernel [exp (sign 2 pi i (k0 j0 / n0 + k1 j1 / n1))] between the
    output cell [(k0, k1)] and the input cell [(j0, j1)]. *)
Definition twiddle (n0 n1 sign k0 k1 j0 j1 : Z) : complex :=
  (cis n0 (sign * k0 * j0) * cis n1 (sign * k1 * j1))%C.

(** The 2D transform between row-major buffers: output cell [k], input
    cell [j]. *)
Definition dft_kernel (p : fftw_plan) (k j : nat) : complex :=
  let n1 := plan_n1 p in
  twiddle (plan_n0 p) n1 (plan_sign p)
          (Z.of_nat k / n1) (Z.of_nat k mod n1)
          (Z.of_nat j / n1) (Z.of_nat j mod n1).

Definition dft (p : fftw_plan) (x : list complex) : list complex :=
  let n := Z.to_nat (plan_n0 p * plan_n1 p) in
  map (fun k => Csum (fun j => (cnth x j * dft_kernel p k j)%C) n) (seq 0 n).

(** [fftw_execute_dft(plan, x, x)]: in place on the first [n0*n1] cells. *)
Definition fftw_execute_dft (p : fftw_plan) (x : list complex)
  : result (list complex) :=
  let n := (plan_n0 p * plan_n1 p)%Z in
  if (Z.of_nat (length x) <? n)%Z then Err Undefined
  else Ok (dft p x ++ skipn (Z.to_nat n) x).

(** The half plane of the transform of a real signal: [n0] rows of
    [n1/2 + 1] cells, always with the forward sign. *)
Definition dft_r2c (p : fftw_plan) (x : list R) : list complex :=
  let n0 := plan_n0 p in
  let n1 := plan_n1 p in
  let h := (Z.quot n1 2 + 1)%Z in
  map (fun k =>
         Csum (fun j => (RtoC (nth j x 0%R) *
                         twiddle n0 n1 (-1)
                                 (Z.of_nat k / h) (Z.of_nat k mod h)
                                 (Z.of_nat j / n1) (Z.of_nat j mod n1))%C)
              (Z.to_nat (n0 * n1)))
      (seq 0 (Z.to_nat (n0 * h))).

(** [fftw_execute_dft_r2c(plan, in, out)]. *)
Definition fftw_execute_dft_r2c (p : fftw_plan) (x : list R)
           (out : list complex) : result (list complex) :=
  let n0 := plan_n0 p in
  let n1 := plan_n1 p in
  let h := (Z.quot n1 2 + 1)%Z in
  if ((Z.of_nat (length x) <? n0 * n1) ||
      (Z.of_nat (length out) <? n0 * h))%Z then Err Undefined
  else Ok (dft_r2c p x ++ skipn (Z.to_nat (n0 * h)) out).

(** ** [purify_measurement_fft_real]

    Forward Fourier transform of a real signal: the real-to-complex
    transform fills [y_half], and the full plane [out] is completed through
    conjugate symmetry.  [data[0]] is the plan, [data[1]] the image that
    gives the size. *)
Definition fft_real_reflect (y y_half : list complex)
           (ind ind_half ind_neg : Z) : result (list complex) :=
  if (ind =? ind_neg)%Z then Ok y
  else h <- load y_half ind_half ;; store y ind_neg (conj h).

(** The body of the two loops for the frequency [(iu, iv)] of the half
    plane. *)
Definition fft_real_body (y_half : list complex) (img : purify_image)
           (iu iv : Z) (y : list complex) : result (list complex) :=
  let ind_half := (iu * (Z.quot (ny img) 2 + 1) + iv)%Z in
  let ind := purify_visibility_iuiv2ind iu iv (nx img) (ny img) in
  (* Copy current data element. *)
  h <- load y_half ind_half ;;
  y <- store y ind h ;;
  (* Reflected data through conjugate symmetry, if necessary. *)
  if ((iu =? 0) && (iv =? 0))%Z then Ok y
  else if (iu =? 0)%Z then
    let iv_neg := (ny img - iv)%Z in
    let ind_neg :=
      purify_visibility_iuiv2ind iu iv_neg (nx img) (ny img) in
    fft_real_reflect y y_half ind ind_half ind_neg
  else if (iv =? 0)%Z then
    let iu_neg := (nx img - iu)%Z in
    let ind_neg :=
      purify_visibility_iuiv2ind iu_neg iv (nx img) (ny img) in
    fft_real_reflect y y_half ind ind_half ind_neg
  else
    let iv_neg := (ny img - iv)%Z in
    let iu_neg := (nx img - iu)%Z in
    let ind_neg :=
      purify_visibility_iuiv2ind iu_neg iv_neg (nx img) (ny img) in
    fft_real_reflect y y_half ind ind_half ind_neg.

Definition purify_measurement_fft_real (out : list complex) (input : list R)
           (plan : fftw_plan) (img : purify_image) : result (list complex) :=
  let y_half := malloc C0 (nx img * ny img) in
  y_half <- fftw_execute_dft_r2c plan input y_half ;;
  for_range 0 (nx img) (fun iu y =>
    for_range 0 (Z.quot (ny img) 2 + 1) (fun iv y =>
      fft_real_body y_half img iu iv y) y) out.

(** ** Parameters of the continuous Fourier transform

    Modelled from the spec: the type [purify_measurement_cparam] of
    [purify_measurement.h], which is not among the sources; the fields are
    the ones the operators read. *)
Record purify_measurement_cparam : Type := {
  nmeas : Z;        (* number of measurements *)
  nx1 : Z;          (* base image size *)
  ny1 : Z;
  ofx : Z;          (* oversampling factors *)
  ofy : Z;
  umax : R;         (* maximum coordinate magnitudes *)
  vmax : R
}.

(** ** [purify_measurement_init_cft] *)

Definition NGCF : Z := 301.
Definition nmask : Z := 2.
Definition hwhm : R := 0.7.
Definition tgtocg : R := IZR (NGCF - 1) / (IZR nmask + 0.5).
Definition cghwhm : R := tgtocg * hwhm.
Definition recvar : R := ln 2 / cghwhm / cghwhm.

(** The Gauss kernel table, "according to difmap":
    [convfn[i] = exp(-recvar * i * i)] for [0 <= i < NGCF].  The dump of
    the table to the file convdump.dat is a side effect outside the
    embedding. *)
Definition convfn : list R :=
  map (fun i => exp (- recvar * INR i * INR i)) (seq 0 (Z.to_nat NGCF)).

(** The table index of the kernel value at grid line [i] for the
    fractional coordinate [frc]: [(int) (tgtocg * fabs(i - frc) + 0.5)]. *)
Definition convfn_index (i : Z) (frc : R) : result Z :=
  double2int (tgtocg * fabs (IZR i - frc) + 0.5).

(** The nearest grid line of a coordinate: [idu = floor(u / uinc + 0.5)],
    assigned to an [int]. *)
Definition nearest_cell (u uinc : R) : result Z :=
  double2int (floor (u / uinc + 0.5)).

(** The single-step wraparound of a grid index:
    [if (i < 0) i += n; if (i >= n) i -= n;]. *)
Definition wrap_index (i n : Z) : Z :=
  let i := if (i <? 0)%Z then (i + n)%Z else i in
  if (i >=? n)%Z then (i - n)%Z else i.

(** State of the main loop: the two value arrays and [counter]. *)
Definition cft_row_state : Type := (list R * list Z * Z)%type.

(** The body of the main loop for measurement [i]. *)
Definition init_cft_row (nx2 ny2 : Z) (uinc vinc : R) (u v : list R)
           (numel : Z) (i : Z) (st : list R * list Z)
  : result (list R * list Z) :=
  let '(vals, colind) := st in
  ui <- load u i ;;
  vi <- load v i ;;
  idu <- nearest_cell ui uinc ;;
  idv <- nearest_cell vi vinc ;;
  let vfrc := (vi / vinc)%R in
  let ufrc := (ui / uinc)%R in
  let row := (i * numel)%Z in
  let counter := 0%Z in
  ivlo <- check_int (idv - nmask) ;;
  ivhi <- check_int (idv + nmask + 1) ;;
  iulo <- check_int (idu - nmask) ;;
  iuhi <- check_int (idu + nmask + 1) ;;
  '(vals, colind, _) <-
    for_range ivlo ivhi (fun iv (st : cft_row_state) =>
      kv <- convfn_index iv vfrc ;;
      fv <- load convfn kv ;;
      for_range iulo iuhi (fun iu (st : cft_row_state) =>
        let '(vals, colind, counter) := st in
        ku <- convfn_index iu ufrc ;;
        fu <- load convfn ku ;;
        let iu2 := wrap_index iu nx2 in
        let iv2 := wrap_index iv ny2 in
        vals <- store vals (row + counter) (fv * fu)%R ;;
        colind <- store colind (row + counter) (iv2 * nx2 + iu2)%Z ;;
        Ok (vals, colind, (counter + 1)%Z)) st)
      (vals, colind, counter) ;;
  Ok (vals, colind).

(** [purify_measurement_init_cft(mat, deconv, u, v, param)]: the sparse
    interpolation matrix and the deconvolution kernel written to the
    caller's [deconv]. *)
Definition purify_measurement_init_cft (deconv u v : list R)
           (param : purify_measurement_cparam)
  : result (purify_sparsemat_row * list R) :=
  (* Sparse matrix initialization *)
  let nx2 := (ofx param * nx1 param)%Z in
  let ny2 := (ofy param * ny1 param)%Z in
  let mat_nrows := nmeas param in
  let mat_ncols := (nx2 * ny2)%Z in
  let mat_nvals :=
    (nmeas param * (2 * nmask + 1) * (2 * nmask + 1))%Z in
  let numel := ((2 * nmask + 1) * (2 * nmask + 1))%Z in
  let mat_vals := malloc 0%R mat_nvals in
  let mat_colind := malloc 0%Z mat_nvals in
  let mat_rowptr := malloc 0%Z (mat_nrows + 1) in
  let uinc := (umax param / IZR (Z.quot nx2 2))%R in
  let vinc := (vmax param / IZR (Z.quot ny2 2))%R in
  (* Row pointer vector *)
  mat_rowptr <- for_range 0 (mat_nrows + 1)
                  (fun j rp => store rp j (j * numel)%Z) mat_rowptr ;;
  (* Main loop *)
  '(mat_vals, mat_colind) <-
    for_range 0 (nmeas param)
      (init_cft_row nx2 ny2 uinc vinc u v numel) (mat_vals, mat_colind) ;;
  deconv <- for_range 0 (nx1 param * ny1 param)
              (fun i d => store d i 1%R) deconv ;;
  Ok ({| nrows := mat_nrows; ncols := mat_ncols; nvals := mat_nvals;
         real := 1; cvals := None; vals := mat_vals;
         colind := mat_colind; rowptr := mat_rowptr |}, deconv).

(** ** The grid shift

    Modelled from the spec: [purify_utils_fftshift_2d_c] of
    [purify_utils.c], which is not among the sources: "a grid-shift
    reordering equivalent to swapping FFT quadrants".  On the row-major
    [ny] rows of [nx] cells every cell moves by half the size in both
    directions, cyclically. *)
Definition fftshift_index (nx ny : nat) (k : nat) : nat :=
  ((k / nx + ny / 2) mod ny * nx + (k mod nx + nx / 2) mod nx)%nat.

Definition purify_utils_fftshift_2d_c (x : list complex) (nx ny : Z)
  : result (list complex) :=
  let n := (nx * ny)%Z in
  if (Z.of_nat (length x) <? n)%Z then Err Undefined
  else Ok (map (fun k => cnth x (fftshift_index (Z.to_nat nx) (Z.to_nat ny) k))
               (seq 0 (Z.to_nat n))
           ++ skipn (Z.to_nat n) x).

(** ** The continuous Fourier operators

    The array [void **data] of the operators: [data[0]] the parameters,
    [data[1]] the deconvolution kernel, [data[2]] the interpolation matrix,
    [data[3]] the FFTW plan, [data[4]] the scratch memory for the padded
    grid. *)
Record cft_data : Type := {
  data_param : purify_measurement_cparam;
  data_deconv : list R;
  data_mat : purify_sparsemat_row;
  data_plan : fftw_plan;
  data_temp : list complex
}.

(** The scaling [scale = 1/sqrt((double)(nx2*ny2))] of both operators. *)
Definition cft_scale (param : purify_measurement_cparam) : R :=
  1 / sqrt (IZR (ofx param * nx1 param * (ofy param * ny1 param))).

(** The padded index of the base-image pixel [(i, j)]:
    [st2 + i + npadx] with [st2 = (j + npady) * nx2]. *)
Definition cft_pad_index (param : purify_measurement_cparam) (i j : Z) : Z :=
  let nx2 := (ofx param * nx1 param)%Z in
  let ny2 := (ofy param * ny1 param)%Z in
  let npadx := Z.quot nx2 4 in
  let npady := Z.quot ny2 4 in
  let st2 := ((j + npady) * nx2)%Z in
  (st2 + i + npadx)%Z.

(** The first stage of [purify_measurement_cftfwd]: the scratch buffer is
    cleared, then the scaled and deconvolved image is copied into it. *)
Definition cft_zero_pad (param : purify_measurement_cparam)
           (deconv : list R) (xin temp : list complex)
  : result (list complex) :=
  let nx2 := (ofx param * nx1 param)%Z in
  let ny2 := (ofy param * ny1 param)%Z in
  let alpha := (RtoC 0 + RtoC 0 * Ci)%C in
  (* Zero padding and deconvolution. *)
  temp <- for_range 0 (nx2 * ny2) (fun i t => store t i alpha) temp ;;
  (* Scaling *)
  let scale := cft_scale param in
  for_range 0 (ny1 param) (fun j t =>
    let st1 := (j * nx1 param)%Z in
    for_range 0 (nx1 param) (fun i t =>
      x <- load xin (st1 + i)%Z ;;
      t <- store t (cft_pad_index param i j) (x * RtoC scale)%C ;;
      tv <- load t (cft_pad_index param i j) ;;
      dv <- load deconv (st1 + i)%Z ;;
      store t (cft_pad_index param i j) (tv * RtoC dv)%C) t) temp.

(** The last stage of [purify_measurement_cftadj]: cropping, scaling and
    deconvolution into the output image. *)
Definition cft_crop (param : purify_measurement_cparam)
           (deconv : list R) (temp xout : list complex)
  : result (list complex) :=
  let scale := cft_scale param in
  for_range 0 (ny1 param) (fun j xout =>
    let st1 := (j * nx1 param)%Z in
    for_range 0 (nx1 param) (fun i xout =>
      tv <- load temp (cft_pad_index param i j) ;;
      xout <- store xout (st1 + i)%Z (tv * RtoC scale)%C ;;
      xv <- load xout (st1 + i)%Z ;;
      dv <- load deconv (st1 + i)%Z ;;
      store xout (st1 + i)%Z (xv * RtoC dv)%C) xout) xout.

(** [purify_measurement_cftfwd(out, in, data)].  The result is the buffer
    [out] after the call; the scratch buffer is overwritten on entry by
    both operators and its final content is not returned. *)
Definition purify_measurement_cftfwd (out xin : list complex)
           (data : cft_data) : result (list complex) :=
  let param := data_param data in
  let deconv := data_deconv data in
  let mat := data_mat data in
  let plan := data_plan data in
  let temp := data_temp data in
  let nx2 := (ofx param * nx1 param)%Z in
  let ny2 := (ofy param * ny1 param)%Z in
  (* Zero padding and deconvolution; scaling. *)
  temp <- cft_zero_pad param deconv xin temp ;;
  temp <- purify_utils_fftshift_2d_c temp nx2 ny2 ;;
  (* FFT *)
  temp <- fftw_execute_dft plan temp ;;
  (* Multiplication by the sparse matrix storing the interpolation kernel *)
  purify_sparsemat_fwd_complexr out temp mat.

(** [purify_measurement_cftadj(out, in, data)]. *)
Definition purify_measurement_cftadj (out yin : list complex)
           (data : cft_data) : result (list complex) :=
  let param := data_param data in
  let deconv := data_deconv data in
  let mat := data_mat data in
  let plan := data_plan data in
  let temp := data_temp data in
  let nx2 := (ofx param * nx1 param)%Z in
  let ny2 := (ofy param * ny1 param)%Z in
  (* Multiplication by the adjoint of the sparse matrix *)
  temp <- purify_sparsemat_adj_complexr temp yin mat ;;
  (* Inverse FFT *)
  temp <- fftw_execute_dft plan temp ;;
  temp <- purify_utils_fftshift_2d_c temp nx2 ny2 ;;
  (* Cropping and deconvolution; scaling. *)
  cft_crop param deconv temp out.

(** [purify_measurement_symcftfwd(out, in, data)]: one call of the
    unsymmetrized operator, then the conjugates as a second block. *)
Definition purify_measurement_symcftfwd (out xin : list complex)
           (data : cft_data) : result (list complex) :=
  yout <- purify_measurement_cftfwd out xin data ;;
  let ny := nmeas (data_param data) in
  for_range 0 ny (fun i yout =>
    yi <- load yout i ;;
    store yout (i + ny)%Z (conj yi)) yout.

(** [purify_measurement_symcftadj(out, in, data)]: one call of the
    unsymmetrized adjoint, then [xout[i] = 2*creal(xout[i]) + 0.0*I]. *)
Definition purify_measurement_symcftadj (out yin : list complex)
           (data : cft_data) : result (list complex) :=
  xout <- purify_measurement_cftadj out yin data ;;
  let nx := (nx1 (data_param data) * ny1 (data_param data))%Z in
  for_range 0 nx (fun i xout =>
    xi <- load xout i ;;
    store xout i (RtoC (2 * creal xi) + RtoC 0 * Ci)%C) xout.

(** ** The power method: [purify_measurement_pow_meth] *)

(** An operator [void op(void *out, void *in, void **data)]: the buffer
    [out] after the call. *)
Definition operator : Type :=
  list complex -> list complex -> cft_data -> result (list complex).

(** [cblas_dznrm2(n, x, 1)] of the external BLAS: the Euclidean norm of the
    first [n] entries. *)
Definition cblas_dznrm2 (n : Z) (x : list complex) : R :=
  sqrt (creal (inner (Z.to_nat n) x x)).

(** Bounded [while] loops.  The body returns the new state and whether it
    left the loop through [break].  [None] means that the fuel ran out
    before the loop ended. *)
Fixpoint while_loop {S : Type} (fuel : nat) (cond : S -> bool)
         (body : S -> result (bool * S)) (s : S) : option (result S) :=
  match fuel with
  | O => None
  | Datatypes.S fuel' =>
      if cond s then
        match body s with
        | Ok (true, s') => Some (Ok s')
        | Ok (false, s') => while_loop fuel' cond body s'
        | Err e => Some (Err e)
        end
      else Some (Ok s)
  end.

(** The local variables of the power method that change in the loop.  The
    iterate is [v] (the C variable [x] in image space, [y] in measurement
    space), the other buffer is [w].  [passes] is a ghost counter of the
    executions of the loop body. *)
Record pow_state : Type := {
  pow_v : list complex;
  pow_w : list complex;
  pow_norm : R;
  pow_bound : R;
  pow_iter : Z;
  passes : nat
}.

(** [for (i = 0; i < n; i++) x[i] = x[i] / norm;] *)
Definition pow_normalize (n : Z) (x : list complex) (norm : R)
  : result (list complex) :=
  for_range 0 n (fun i x => xi <- load x i ;; store x i (Cdivr xi norm)) x.

(** [for (i = 0; i < n; i++) x[i] = gasdev2(seedn) + gasdev2(seedn)*I;]
    with [ran] the stream of deviates that the external generator
    [purify_ran_gasdev2] returns for the seed. *)
Definition pow_seed (ran : nat -> R) (n : Z) (x : list complex)
  : result (list complex) :=
  for_range 0 n (fun i x =>
    let k := Z.to_nat i in
    store x i (RtoC (ran (2 * k)%nat) + RtoC (ran (2 * k + 1)%nat) * Ci)%C) x.

(** One execution of the body of the main loop, iterating in the domain of
    size [n]: [first] maps the iterate to the other domain, [second] maps
    back. *)
Definition pow_body (first : operator) (first_data : cft_data)
           (second : operator) (second_data : cft_data) (n : Z)
           (s : pow_state) : result (bool * pow_state) :=
  w <- first (pow_w s) (pow_v s) first_data ;;
  v <- second (pow_v s) w second_data ;;
  let bound := cblas_dznrm2 n v in
  let rel_ob := ((bound - pow_norm s) / pow_norm s)%R in
  if Rle_dec rel_ob 0.001 then
    Ok (true, {| pow_v := v; pow_w := w; pow_norm := pow_norm s;
                 pow_bound := bound; pow_iter := pow_iter s;
                 passes := S (passes s) |})
  else
    let norm := bound in
    v <- pow_normalize n v norm ;;
    Ok (false, {| pow_v := v; pow_w := w; pow_norm := norm;
                  pow_bound := bound; pow_iter := (pow_iter s + 1)%Z;
                  passes := S (passes s) |}).

(** The seeding and the main loop in the domain of size [n], the other
    domain having size [m]. *)
Definition pow_meth_domain (fuel : nat) (ran : nat -> R)
           (first : operator) (first_data : cft_data)
           (second : operator) (second_data : cft_data) (n m : Z)
  : option (result pow_state) :=
  let v := malloc C0 n in
  let w := malloc C0 m in
  match (v <- pow_seed ran n v ;;
         let norm := cblas_dznrm2 n v in
         pow_normalize n v norm) with
  | Err e => Some (Err e)
  | Ok v =>
      while_loop fuel (fun s => (pow_iter s <? 200)%Z)
                 (pow_body first first_data second second_data n)
                 {| pow_v := v; pow_w := w; pow_norm := 1;
                    pow_bound := 0; pow_iter := 0; passes := 0 |}
  end.

(** [purify_measurement_pow_meth(A, A_data, At, At_data)] with the final
    state of its local variables; the value returned by the C function is
    [pow_bound]. *)
Definition pow_meth_run (fuel : nat) (ran : nat -> R)
           (A : operator) (A_data : cft_data)
           (At : operator) (At_data : cft_data)
  : option (result pow_state) :=
  let param := data_param A_data in
  let nx := (nx1 param * ny1 param)%Z in
  let ny := nmeas param in
  if (nmeas param >? nx)%Z
  then pow_meth_domain fuel ran A A_data At At_data nx ny
  else pow_meth_domain fuel ran At At_data A A_data ny nx.

Definition purify_measurement_pow_meth (fuel : nat) (ran : nat -> R)
           (A : operator) (A_data : cft_data)
           (At : operator) (At_data : cft_data) : option (result R) :=
  match pow_meth_run fuel ran A A_data At At_data with
  | None => None
  | Some (Ok s) => Some (Ok (pow_bound s))
  | Some (Err e) => Some (Err e)
  end.

(** ** Specification-level definitions for the gridding set-up *)

(** A value of type [int]. *)
Definition is_int (z : Z) : Prop := (INT_MIN <= z <= INT_MAX)%Z.

(** Entry [p] of an [int] or [double] array. *)
Definition znth (l : list Z) (p : Z) : Z := nth (Z.to_nat p) l 0%Z.
Definition rnth (l : list R) (p : Z) : R := nth (Z.to_nat p) l 0%R.

(** The number of taps of a row: [numel = (2*nmask+1)*(2*nmask+1)]. *)
Definition numel : Z := ((2 * nmask + 1) * (2 * nmask + 1))%Z.

(** The grid cell [(iu, iv)] visited at the value [t] of [counter]: [iu]
    runs fastest. *)
Definition tap_iu (idu t : Z) : Z := (idu - nmask + t mod (2 * nmask + 1))%Z.
Definition tap_iv (idv t : Z) : Z := (idv - nmask + t / (2 * nmask + 1))%Z.

(** The nearest grid line as an unbounded integer. *)
Definition nearest (u uinc : R) : Z := Zfloor (u / uinc + 0.5).

(** The grid increments [uinc], [vinc] of a parameter block. *)
Definition cparam_nx2 (param : purify_measurement_cparam) : Z :=
  (ofx param * nx1 param)%Z.
Definition cparam_ny2 (param : purify_measurement_cparam) : Z :=
  (ofy param * ny1 param)%Z.
Definition cparam_uinc (param : purify_measurement_cparam) : R :=
  umax param / IZR (Z.quot (cparam_nx2 param) 2).
Definition cparam_vinc (param : purify_measurement_cparam) : R :=
  vmax param / IZR (Z.quot (cparam_ny2 param) 2).

(** The support window of a measurement stays within [int]: the nearest
    grid line, the window around it and the loop variable one past it. *)
Definition window_is_int (u uinc : R) : Prop :=
  (INT_MIN + nmask <= nearest u uinc <= INT_MAX - nmask - 1)%Z.

(** The column index written for the tap [t] of a row: the wrapped cell,
    linearised as in the source. *)
Definition tap_colind (nx2 ny2 idu idv t : Z) : Z :=
  (wrap_index (tap_iv idv t) ny2 * nx2 + wrap_index (tap_iu idu t) nx2)%Z.

(** Invariant of the two loops over the support window: [c] taps of the
    row starting at [row] are written. *)
Definition row_filled (nx2 ny2 idu idv row : Z) (len : nat)
           (colind0 : list Z) (c : Z) (st : cft_row_state) : Prop :=
  let '(vals, colind, counter) := st in
  counter = c /\ length vals = len /\ length colind = len /\
  forall p, (0 <= p)%Z ->
    znth colind p =
    if ((row <=? p) && (p <? row + c))%Z
    then tap_colind nx2 ny2 idu idv (p - row)
    else znth colind0 p.

(** Every table index that [purify_measurement_init_cft] computes for the
    coordinate [u] of a measurement is defined and lies in the table: the
    nearest grid line [idu] is an [int], and so is the index of every grid
    line [idu - nmask .. idu + nmask], with a value in [[0, NGCF)]. *)
Definition lookup_indices_in_table (u uinc : R) : Prop :=
  exists idu, nearest_cell u uinc = Ok idu /\
    forall iu, (idu - nmask <= iu <= idu + nmask)%Z ->
      exists k, convfn_index iu (u / uinc) = Ok k /\ (0 <= k < NGCF)%Z.

(** ** Specification-level definitions for the sparse products *)

(** The indices of a sparse matrix are valid: the row pointers of the
    [nrows] rows delimit slices of the value arrays, and every column index
    is a column. *)
Definition sparsemat_wf (A : purify_sparsemat_row) : Prop :=
  (0 <= nrows A)%Z /\ (0 <= ncols A)%Z /\
  (nrows A + 1 <= Z.of_nat (length (rowptr A)))%Z /\
  (forall r, (0 <= r < nrows A)%Z ->
     (0 <= znth (rowptr A) r)%Z /\
     (znth (rowptr A) (r + 1) <= Z.of_nat (length (colind A)))%Z /\
     (znth (rowptr A) (r + 1) <= Z.of_nat (length (vals A)))%Z) /\
  (forall rr, (0 <= rr < Z.of_nat (length (colind A)))%Z ->
     (0 <= znth (colind A) rr < ncols A)%Z).

(** The number of stored values of row [r]. *)
Definition row_len (A : purify_sparsemat_row) (r : nat) : nat :=
  Z.to_nat (znth (rowptr A) (Z.of_nat r + 1) - znth (rowptr A) (Z.of_nat r)).

(** The column and the coefficient of the [k]-th stored value of row [r]. *)
Definition row_col (A : purify_sparsemat_row) (r k : nat) : nat :=
  Z.to_nat (znth (colind A) (znth (rowptr A) (Z.of_nat r) + Z.of_nat k)).
Definition row_val (A : purify_sparsemat_row) (r k : nat) : R :=
  rnth (vals A) (znth (rowptr A) (Z.of_nat r) + Z.of_nat k).

(** The sesquilinear form [sum_r sum_k conj(t[col]) * a * y[r]] of a sparse
    matrix: both [<A t, y>] and [<t, A^T y>]. *)
Definition sparse_form (A : purify_sparsemat_row) (t y : list complex)
  : complex :=
  Csum (fun r =>
          Csum (fun k => (conj (cnth t (row_col A r k)) *
                          (cnth y r * RtoC (row_val A r k)))%C)
               (row_len A r))
       (Z.to_nat (nrows A)).

(** ** Specification-level definitions for the continuous operators *)

(** The value that [purify_measurement_cftfwd] writes for the base-image
    pixel [(i, j)], read at [xin[j*nx1 + i]]: scaled and deconvolved. *)
Definition cft_pixel (param : purify_measurement_cparam) (deconv : list R)
           (xin : list complex) (i j : Z) : complex :=
  (cnth xin (Z.to_nat (j * nx1 param + i)) * RtoC (cft_scale param)
   * RtoC (rnth deconv (j * nx1 param + i)))%C.

(** The quarter-offset window of the base image lies in the padded grid:
    the dimensions are positive, the oversampling factors at least 1, and
    the padded index of the last pixel is below [nx2*ny2]. *)
Definition window_fits (param : purify_measurement_cparam) : Prop :=
  (0 < nx1 param)%Z /\ (0 < ny1 param)%Z /\
  (1 <= ofx param)%Z /\ (1 <= ofy param)%Z /\
  (cft_pad_index param (nx1 param - 1) (ny1 param - 1)
   < cparam_nx2 param * cparam_ny2 param)%Z.

(** The sesquilinear form [sum_j sum_i conj(pixel(i,j)) * s[index(i,j)]]
    of the padding: both [<pad x, s>] and [<x, crop s>]. *)
Definition pad_form (param : purify_measurement_cparam) (deconv : list R)
           (xin s : list complex) : complex :=
  Csum (fun j =>
          Csum (fun i =>
                  (conj (cft_pixel param deconv xin (Z.of_nat i) (Z.of_nat j))
                   * cnth s (Z.to_nat (cft_pad_index param (Z.of_nat i)
                                                     (Z.of_nat j))))%C)
               (Z.to_nat (nx1 param)))
       (Z.to_nat (ny1 param)).

(** The data bundle of an operator is usable: the window of the base image
    fits the padded grid, the matrix has valid indices and as many columns
    as the padded grid has cells, the plan is for the padded size, and the
    buffers have the sizes of the parameter block. *)
Definition cft_data_ok (data : cft_data) : Prop :=
  let param := data_param data in
  let n2 := (cparam_nx2 param * cparam_ny2 param)%Z in
  window_fits param /\
  sparsemat_wf (data_mat data) /\
  ncols (data_mat data) = n2 /\
  (plan_n0 (data_plan data) * plan_n1 (data_plan data))%Z = n2 /\
  (nx1 param * ny1 param <= Z.of_nat (length (data_deconv data)))%Z /\
  (n2 <= Z.of_nat (length (data_temp data)))%Z.

(** A small data bundle used in examples: a 2-by-1 image on a 4-by-2
    padded grid, the all-ones deconvolution kernel, a matrix whose single
    row holds the coefficient 1 in column 1, and a plan of the given sign. *)
Definition small_param : purify_measurement_cparam :=
  {| nmeas := 1; nx1 := 2; ny1 := 1; ofx := 2; ofy := 2;
     umax := 1; vmax := 1 |}.

Definition small_data (sign : Z) : cft_data :=
  {| data_param := small_param;
     data_deconv := [1; 1]%R;
     data_mat := {| nrows := 1; ncols := 8; nvals := 1; real := 1;
                    cvals := None; vals := [1%R]; colind := [1%Z];
                    rowptr := [0; 1]%Z |};
     data_plan := {| plan_n0 := 2; plan_n1 := 4; plan_sign := sign |};
     data_temp := repeat C0 8 |}.

(** [w] is proportional to [z] on the first [n] entries: [w = c z] for a
    complex constant [c]. *)
Definition proportional (n : Z) (w z : list complex) : Prop :=
  exists c : complex,
    forall i, (0 <= i < n)%Z ->
      cnth w (Z.to_nat i) = (c * cnth z (Z.to_nat i))%C.

(** ** Specification-level definitions for the real transform *)

(** The value that the real-to-complex transform of the plan delivers for
    the frequency [(iu, iv)]. *)
Definition half_plane (p : fftw_plan) (x : list R) (iu iv : Z) : complex :=
  Csum (fun j => (RtoC (nth j x 0%R) *
                  twiddle (plan_n0 p) (plan_n1 p) (-1) iu iv
                          (Z.of_nat j / plan_n1 p)
                          (Z.of_nat j mod plan_n1 p))%C)
       (Z.to_nat (plan_n0 p * plan_n1 p)).

(** The Hermitian mirror [((nx - iu) mod nx, (ny - iv) mod ny)] of a
    frequency. *)
Definition mirror (n i : Z) : Z := ((n - i) mod n)%Z.

(** Entry [(iu, iv)] of a full plane of [nx] by [ny] frequencies. *)
Definition plane_nth (y : list complex) (nx ny iu iv : Z) : complex :=
  cnth y (Z.to_nat (purify_visibility_iuiv2ind iu iv nx ny)).

(** The full plane that conjugate symmetry reconstructs from the half
    plane: the half-plane value for [iv <= ny/2], the conjugate of the value
    at the Hermitian mirror otherwise. *)
Definition full_plane (p : fftw_plan) (x : list R) (nx ny iu iv : Z)
  : complex :=
  if (iv <=? ny / 2)%Z then half_plane p x iu iv
  else conj (half_plane p x (mirror nx iu) (ny - iv)).

(** The frequencies of the half plane handled before the iteration
    [(iu, iv)] of the two loops of [purify_measurement_fft_real]. *)
Definition fft_real_done (n2 iu iv a b : Z) : Prop :=
  (0 <= b <= n2 / 2)%Z /\ (a < iu \/ (a = iu /\ b < iv))%Z.

(** The linearisation of the continuous operators on a grid with [nx]
    cells per row: second coordinate times first dimension plus first
    coordinate. *)
Definition grid_index (nx ix iy : Z) : Z := (iy * nx + ix)%Z.

(** ** Specification-level definitions for the power method

    The iteration in the words of the spec: apply the first operator then
    the second, measure the new 2-norm, renormalize; the relative change of
    the norm decides whether to stop. *)
Section PowerIteration.
Variables (first : operator) (first_data : cft_data).
Variables (second : operator) (second_data : cft_data).
Variable n : Z.

(** The iterate, the other buffer and the norm of the previous pass. *)
Definition pow_iterate : Type := (list complex * list complex * R)%type.

(** One pass up to the measurement of the new norm. *)
Definition power_measure (it : pow_iterate)
  : result (list complex * list complex * R) :=
  let '(v, w, _) := it in
  w' <- first w v first_data ;;
  v' <- second v w' second_data ;;
  Ok (v', w', cblas_dznrm2 n v').

(** The iterate after [k] passes, each followed by the renormalization. *)
Fixpoint power_iterate (k : nat) (it : pow_iterate) : result pow_iterate :=
  match k with
  | O => Ok it
  | S k' =>
      it' <- power_iterate k' it ;;
      '(v, w, bound) <- power_measure it' ;;
      v' <- pow_normalize n v bound ;;
      Ok (v', w, bound)
  end.

(** The norm measured in pass [k] (counted from 0), with the norm of the
    pass before. *)
Definition power_bound (k : nat) (it : pow_iterate) : result (R * R) :=
  it' <- power_iterate k it ;;
  '(_, _, bound) <- power_measure it' ;;
  Ok (bound, snd it').

(** The relative change of the norm in pass [k] is at most 0.001. *)
Definition power_converged (k : nat) (it : pow_iterate) : Prop :=
  exists bound norm, power_bound k it = Ok (bound, norm) /\
                     ((bound - norm) / norm <= 0.001)%R.

(** Pass [k] measures a relative change above 0.001. *)
Definition power_continues (k : nat) (it : pow_iterate) : Prop :=
  exists bound norm, power_bound k it = Ok (bound, norm) /\
                     ~ ((bound - norm) / norm <= 0.001)%R.

(** The loop ended normally in the state [s]: after at most 200 passes,
    the first of which with a relative change of at most 0.001 is the last
    one; the bound is the norm measured in the last pass. *)
Definition power_stops (it : pow_iterate) (s : pow_state) : Prop :=
  (1 <= passes s <= 200)%nat /\
  (exists norm, power_bound (passes s - 1) it = Ok (pow_bound s, norm)) /\
  (forall k, (k < passes s - 1)%nat -> power_continues k it) /\
  ((passes s < 200)%nat -> power_converged (passes s - 1) it) /\
  (pow_iter s <= 200)%Z.

(** The loop ended with the error [e] of an operator or of a buffer
    access, in a pass before the 200th. *)
Definition power_fails (it : pow_iterate) (e : error) : Prop :=
  exists k, (k < 200)%nat /\
    (forall k', (k' < k)%nat -> power_continues k' it) /\
    (power_bound k it = Err e \/
     (power_continues k it /\ power_iterate (S k) it = Err e)).
End PowerIteration.

(** The seeded and normalized initial iterate in the domain of size [n],
    with the buffer of the other domain of size [m]. *)
Definition power_initial (ran : nat -> R) (n m : Z) : result pow_iterate :=
  v <- pow_seed ran n (malloc C0 n) ;;
  v <- pow_normalize n v (cblas_dznrm2 n v) ;;
  Ok (v, malloc C0 m, 1%R).

(** The outcome [r] of the power method in the domain of size [n]. *)
Definition power_outcome (first : operator) (first_data : cft_data)
           (second : operator) (second_data : cft_data) (n m : Z)
           (ran : nat -> R) (r : result pow_state) : Prop :=
  match power_initial ran n m with
  | Err e => r = Err e
  | Ok it =>
      match r with
      | Ok s => power_stops first first_data second second_data n it s
      | Err e => power_fails first first_data second second_data n it e
      end
  end.

(** ** Comparison and release of images: [purify_image.c] *)

(** A counted loop whose body may leave the function:
    [for (i = lo; i < lo + n; i++) if (test i) return ...;].  The result
    tells whether the function was left from inside the loop. *)
Fixpoint for_return (n : nat) (lo : Z) (test : Z -> result bool)
  : result bool :=
  match n with
  | O => Ok false
  | S n' =>
      b <- test lo ;;
      if b then Ok true else for_return n' (lo + 1)%Z test
  end.

(** The test [fabs(a - b) > tol]. *)
Definition differ (a b tol : R) : bool :=
  if Rgt_dec (fabs (a - b)) tol then true else false.

(** [purify_image_compare(img1, img2, tol)]: zero if the two images hold
    identical data, one otherwise. *)
Definition purify_image_compare (img1 img2 : purify_image) (tol : R)
  : result Z :=
  if differ (fov_x img1) (fov_x img2) tol then Ok 1%Z
  else if differ (fov_y img1) (fov_y img2) tol then Ok 1%Z
  else if negb (nx img1 =? nx img2)%Z then Ok 1%Z
  else if negb (ny img1 =? ny img2)%Z then Ok 1%Z
  else
    found <- for_return (Z.to_nat (nx img1 * ny img1)) 0
               (fun i =>
                  p1 <- load (pix img1) i ;;
                  p2 <- load (pix img2) i ;;
                  Ok (differ p1 p2 tol)) ;;
    Ok (if found then 1 else 0)%Z.

(** The two images agree within the tolerance: the fields of view, the
    sizes and every pixel. *)
Definition images_agree (img1 img2 : purify_image) (tol : R) : Prop :=
  (Rabs (fov_x img1 - fov_x img2) <= tol)%R /\
  (Rabs (fov_y img1 - fov_y img2) <= tol)%R /\
  nx img1 = nx img2 /\ ny img1 = ny img2 /\
  forall i, (0 <= i < nx img1 * ny img1)%Z ->
    (Rabs (rnth (pix img1) i - rnth (pix img2) i) <= tol)%R.

(** A pointer to a block of the heap: [None] is NULL. *)
Definition pointer : Type := option nat.

(** The allocated blocks of [double]s, by address. *)
Definition heap : Type := nat -> option (list R).

(** [free(p)] for a pointer that is not NULL: the block must be allocated;
    releasing a block twice is undefined. *)
Definition free (p : nat) (h : heap) : result heap :=
  match h p with
  | Some _ => Ok (fun q => if Nat.eqb q p then None else h q)
  | None => Err Undefined
  end.

(** The struct [purify_image] as it lies in memory: [pix] is a pointer
    into the heap. *)
Record purify_image_struct : Type := {
  s_fov_x : R;
  s_fov_y : R;
  s_nx : Z;
  s_ny : Z;
  s_pix : pointer
}.

(** [purify_image_free(img)]: the pixel block is released when the pointer
    is not NULL, and the other fields are cleared; the field [pix] itself
    is not assigned. *)
Definition purify_image_free (img : purify_image_struct) (h : heap)
  : result (purify_image_struct * heap) :=
  h <- match s_pix img with
       | Some p => free p h
       | None => Ok h
       end ;;
  Ok ({| s_fov_x := 0; s_fov_y := 0; s_nx := 0; s_ny := 0;
         s_pix := s_pix img |}, h).

(** ** Specification-level definitions for the interpolation weights *)

(** The table index of the grid line [i] for the fractional coordinate
    [frc], as an unbounded integer. *)
Definition tap_index (i : Z) (frc : R) : Z :=
  Zfloor (tgtocg * Rabs (IZR i - frc) + 0.5).

(** The weight stored for the tap [t] of the measurement at [(ui, vi)]: the
    product [fv * fu] of two table entries. *)
Definition tap_val (uinc vinc ui vi : R) (t : Z) : R :=
  (rnth convfn (tap_index (tap_iv (nearest vi vinc) t) (vi / vinc)) *
   rnth convfn (tap_index (tap_iu (nearest ui uinc) t) (ui / uinc)))%R.

(** ** Specification-level definitions for linearity *)

(** The unit vector [e_k] of length [n]. *)
Definition probe (n k : nat) : list complex :=
  map (fun j => if Nat.eqb j k then C1 else C0) (seq 0 n).

(** [z = a x + b y] on the first [n] entries. *)
Definition combination (n : nat) (a b : complex) (x y z : list complex)
  : Prop :=
  forall k, (k < n)%nat -> cnth z k = (a * cnth x k + b * cnth y k)%C.

(** The data bundle of an operator from its parts. *)
Definition cft_bundle (param : purify_measurement_cparam) (deconv : list R)
           (mat : purify_sparsemat_row) (plan : fftw_plan)
           (temp : list complex) : cft_data :=
  {| data_param := param; data_deconv := deconv; data_mat := mat;
     data_plan := plan; data_temp := temp |}.

(** ** The complex transform: [purify_measurement_fft_complex] *)

(** [fftw_execute_dft(plan, in, out)] with two buffers: the first [n0*n1]
    cells of [out] receive the transform of [in]. *)
Definition fftw_execute_dft_to (p : fftw_plan) (x out : list complex)
  : result (list complex) :=
  let n := (plan_n0 p * plan_n1 p)%Z in
  if ((Z.of_nat (length x) <? n) || (Z.of_nat (length out) <? n))%Z
  then Err Undefined
  else Ok (dft p x ++ skipn (Z.to_nat n) out).

(** [purify_measurement_fft_complex(out, in, data)]: [data[0]] is the
    plan. *)
Definition purify_measurement_fft_complex (out xin : list complex)
           (plan : fftw_plan) : result (list complex) :=
  fftw_execute_dft_to plan xin out.

(** The complex plan of the size of a real-to-complex plan, with the
    forward sign. *)
Definition forward_plan (p : fftw_plan) : fftw_plan :=
  {| plan_n0 := plan_n0 p; plan_n1 := plan_n1 p; plan_sign := -1 |}.

(** * Properties *)

Unset Implicit Arguments.

Lemma bind_Ok {A B : Type} (m : result A) (f : A -> result B) (b : B) :
  bind m f = Ok b -> exists a, m = Ok a /\ f a = Ok b.
Proof. destruct m as [a|e]; simpl; intros H; [eauto | discriminate]. Qed.

(** ** Heap buffers *)

Lemma upd_length {A : Type} n (v : A) l : length (upd n v l) = length l.
Proof.
  revert n; induction l as [|h t IH]; intros [|n]; simpl; auto.
Qed.

Lemma nth_upd_eq {A : Type} (d : A) n v l : (n < length l)%nat -> nth n (upd n v l) d = v.
Proof.
  revert n; induction l as [|h t IH]; intros [|n]; simpl; intros H;
    try lia; auto. apply IH; lia.
Qed.

Lemma nth_upd_ne {A : Type} (d : A) n m v l : n <> m -> nth m (upd n v l) d = nth m l d.
Proof.
  revert n m; induction l as [|h t IH]; intros [|n] [|m]; simpl; intros H;
    try congruence; auto.
Qed.

Lemma load_Ok {A : Type} (d : A) buf i :
  (0 <= i < Z.of_nat (length buf))%Z ->
  load buf i = Ok (nth (Z.to_nat i) buf d).
Proof.
  intros H. unfold load.
  destruct (Z.ltb_spec i 0); [lia|].
  destruct (nth_error buf (Z.to_nat i)) eqn:E.
  - erewrite nth_error_nth; eauto.
  - apply nth_error_None in E. lia.
Qed.

Lemma load_inv {A : Type} (buf : list A) i v :
  load buf i = Ok v ->
  (0 <= i < Z.of_nat (length buf))%Z /\ forall d, nth (Z.to_nat i) buf d = v.
Proof.
  unfold load. destruct (Z.ltb_spec i 0); [discriminate|].
  destruct (nth_error buf (Z.to_nat i)) eqn:E; [|discriminate].
  intros [= ->]. split.
  - assert (Z.to_nat i < length buf)%nat
      by (apply nth_error_Some; congruence). lia.
  - intros d. eapply nth_error_nth; eauto.
Qed.

Lemma store_Ok {A : Type} (buf : list A) i v :
  (0 <= i < Z.of_nat (length buf))%Z ->
  store buf i v = Ok (upd (Z.to_nat i) v buf).
Proof.
  intros H. unfold store.
  destruct (Z.leb_spec 0 i); [|lia].
  destruct (Z.ltb_spec i (Z.of_nat (length buf))); [|lia]. reflexivity.
Qed.

Lemma store_inv {A : Type} (buf : list A) i v buf' :
  store buf i v = Ok buf' ->
  (0 <= i < Z.of_nat (length buf))%Z /\ buf' = upd (Z.to_nat i) v buf.
Proof.
  unfold store.
  destruct (Z.leb_spec 0 i); destruct (Z.ltb_spec i (Z.of_nat (length buf)));
    simpl; intros [= <-] || discriminate. split; [lia | reflexivity].
Qed.

Lemma store_oob {A : Type} (buf : list A) i v :
  (Z.of_nat (length buf) <= i)%Z -> store buf i v = Err Undefined.
Proof.
  intros H. unfold store.
  destruct (Z.ltb_spec i (Z.of_nat (length buf))); [lia|].
  now rewrite andb_false_r.
Qed.
(** ** Counted loops *)

Lemma for_loop_snoc {S : Type} n lo (body : Z -> S -> result S) s :
  for_loop (Datatypes.S n) lo body s =
  (s' <- for_loop n lo body s ;; body (lo + Z.of_nat n)%Z s').
Proof.
  revert lo s; induction n as [|n IH]; intros lo s.
  - simpl. rewrite Z.add_0_r. destruct (body lo s); reflexivity.
  - specialize (IH (lo + 1)%Z). cbn [for_loop] in *.
    destruct (body lo s) as [s1|e]; cbn [bind]; auto.
    rewrite IH. replace (lo + 1 + Z.of_nat n)%Z with (lo + Z.of_nat (Datatypes.S n))%Z by lia.
    reflexivity.
Qed.

(** Loop invariant rule: an invariant indexed by the number of completed
    iterations, kept by every successful iteration, with every iteration
    successful under the invariant. *)
Lemma for_loop_inv {S : Type} (I : nat -> S -> Prop) n lo
      (body : Z -> S -> result S) s :
  I O s ->
  (forall k t, (k < n)%nat -> I k t ->
     exists t', body (lo + Z.of_nat k)%Z t = Ok t' /\ I (Datatypes.S k) t') ->
  exists s', for_loop n lo body s = Ok s' /\ I n s'.
Proof.
  intros H0 Hstep. induction n as [|n IH].
  - exists s. split; auto.
  - destruct IH as (s1 & E1 & I1).
    { intros k t Hk. apply Hstep. lia. }
    destruct (Hstep n s1) as (s2 & E2 & I2); auto.
    exists s2. rewrite for_loop_snoc, E1. simpl. auto.
Qed.

(** ** Complex numbers *)

Lemma complex_eq (a b : complex) :
  creal a = creal b -> cimag a = cimag b -> a = b.
Proof. destruct a, b; simpl; intros -> ->; reflexivity. Qed.

Ltac csimpl :=
  repeat match goal with z : complex |- _ => destruct z end;
  apply complex_eq; simpl; try ring.

Lemma complex_ring_theory :
  ring_theory C0 C1 Cadd Cmul Csub Copp (@eq complex).
Proof. constructor; intros; try reflexivity; csimpl. Qed.

Add Ring complex_ring : complex_ring_theory.

Lemma Cadd_assoc a b c : (a + (b + c) = a + b + c)%C.
Proof. ring. Qed.

Lemma Cadd_0_r a : (a + C0 = a)%C.
Proof. ring. Qed.

Lemma Cadd_0_l a : (C0 + a = a)%C.
Proof. ring. Qed.

Lemma conj_conj z : conj (conj z) = z.
Proof. csimpl. Qed.

Lemma conj_add a b : conj (a + b) = (conj a + conj b)%C.
Proof. csimpl. Qed.

Lemma conj_mul a b : conj (a * b) = (conj a * conj b)%C.
Proof. csimpl. Qed.

Lemma conj_RtoC r : conj (RtoC r) = RtoC r.
Proof. apply complex_eq; simpl; ring. Qed.

Lemma conj_C0 : conj C0 = C0.
Proof. apply complex_eq; simpl; ring. Qed.

Lemma RtoC_mul a b : RtoC (a * b) = (RtoC a * RtoC b)%C.
Proof. apply complex_eq; simpl; ring. Qed.

(** ** Finite sums *)

Lemma Csum_ext f g n :
  (forall k, (k < n)%nat -> f k = g k) -> Csum f n = Csum g n.
Proof.
  induction n as [|n IH]; intros H; simpl; auto.
  rewrite IH, H; auto.
Qed.

Lemma Csum_zero n : Csum (fun _ => C0) n = C0.
Proof. induction n as [|n IH]; simpl; auto. rewrite IH. ring. Qed.

Lemma Csum_add f g n :
  Csum (fun k => (f k + g k)%C) n = (Csum f n + Csum g n)%C.
Proof. induction n as [|n IH]; simpl; [|rewrite IH]; ring. Qed.

Lemma Csum_mul_l c f n :
  Csum (fun k => (c * f k)%C) n = (c * Csum f n)%C.
Proof. induction n as [|n IH]; simpl; [|rewrite IH]; ring. Qed.

Lemma Csum_mul_r c f n :
  Csum (fun k => (f k * c)%C) n = (Csum f n * c)%C.
Proof. induction n as [|n IH]; simpl; [|rewrite IH]; ring. Qed.

Lemma Csum_conj f n : conj (Csum f n) = Csum (fun k => conj (f k)) n.
Proof.
  induction n as [|n IH]; simpl; [apply conj_C0|].
  now rewrite conj_add, IH.
Qed.

(** Exchange of two finite sums. *)
Lemma Csum_swap (f : nat -> nat -> complex) n m :
  Csum (fun i => Csum (fun j => f i j) m) n =
  Csum (fun j => Csum (fun i => f i j) n) m.
Proof.
  induction n as [|n IH]; simpl.
  - now rewrite Csum_zero.
  - now rewrite IH, Csum_add.
Qed.

(** A sum with a single non-zero term. *)
Lemma Csum_single f n j :
  (j < n)%nat -> (forall k, (k < n)%nat -> k <> j -> f k = C0) ->
  Csum f n = f j.
Proof.
  induction n as [|n IH]; intros Hj H; [lia|]. simpl.
  destruct (Nat.eq_dec j n) as [->|Hne].
  - rewrite (Csum_ext f (fun _ => C0)), Csum_zero by (intros; apply H; lia).
    ring.
  - rewrite IH, (H n) by (auto; intros; try apply H; lia). ring.
Qed.

Lemma Csum_app f n m :
  Csum f (n + m) = (Csum f n + Csum (fun k => f (n + k)%nat) m)%C.
Proof.
  induction m as [|m IH]; simpl.
  - rewrite Nat.add_0_r. ring.
  - rewrite Nat.add_succ_r. simpl. rewrite IH. ring.
Qed.

(** A sum over a product range, split into rows of length [m]. *)
Lemma Csum_rows f n m :
  Csum f (n * m) = Csum (fun i => Csum (fun j => f (i * m + j)%nat) m) n.
Proof.
  induction n as [|n IH]; simpl; auto.
  rewrite Nat.add_comm, Csum_app, IH. reflexivity.
Qed.

(** ** Images *)

(** The linearisation and its inverse round-trip on every index that passes
    the guard of [purify_image_ixiy2ind]. *)
Lemma purify_image_roundtrip (img : purify_image) (ix iy : Z) :
  (0 <= ix < nx img)%Z -> (0 <= iy < ny img)%Z -> (ix < ny img)%Z ->
  purify_image_ixiy2ind ix iy img = Ok (ix * ny img + iy)%Z /\
  purify_image_ind2iuiv (ix * ny img + iy)%Z img = Ok (ix, iy).
Proof.
  intros Hx Hy Hxy. unfold purify_image_ixiy2ind, purify_image_ind2iuiv.
  destruct (Z.geb_spec ix (nx img)); [lia|].
  destruct (Z.geb_spec ix (ny img)); [lia|]. simpl. split; [reflexivity|].
  destruct (Z.geb_spec (ix * ny img + iy) (nx img * ny img)); [nia|].
  assert (Hq : (Z.quot (ix * ny img + iy) (ny img) = ix)%Z).
  { rewrite Z.quot_div_nonneg by nia.
    rewrite Z.div_add_l by lia. rewrite Z.div_small by lia. lia. }
  cbv zeta. rewrite Hq. do 2 f_equal. lia.
Qed.

(** C9, at the failing input.  In a 4-by-2 image the index pair (3, 0) is
    valid (0 <= 3 < nx and 0 <= 0 < ny), yet [purify_image_ixiy2ind] raises
    the fatal "Image index too large" error: its guard compares [ix], not
    [iy], with [ny]. *)
Theorem purify_image_ixiy2ind_valid_index_error :
  let img := {| fov_x := 0; fov_y := 0; nx := 4; ny := 2;
                pix := repeat 0%R 8 |} in
  (0 <= 3 < nx img)%Z /\ (0 <= 0 < ny img)%Z /\
  purify_image_ixiy2ind 3 0 img = Err (ErrGeneric "Image index too large").
Proof. cbv zeta. simpl. repeat split; lia. Qed.

(** The same guard lets an index beyond the second dimension through. *)
Lemma purify_image_ixiy2ind_invalid_index_ok :
  let img := {| fov_x := 0; fov_y := 0; nx := 4; ny := 2;
                pix := repeat 0%R 8 |} in
  purify_image_ixiy2ind 0 5 img = Ok 5%Z.
Proof. reflexivity. Qed.

(** ** Loops over a range *)

Lemma for_range_inv {S : Type} (I : Z -> S -> Prop) lo hi
      (body : Z -> S -> result S) s :
  (lo <= hi)%Z -> I lo s ->
  (forall i t, (lo <= i < hi)%Z -> I i t ->
     exists t', body i t = Ok t' /\ I (i + 1)%Z t') ->
  exists s', for_range lo hi body s = Ok s' /\ I hi s'.
Proof.
  intros Hle H0 Hstep. unfold for_range.
  destruct (@for_loop_inv S (fun k t => I (lo + Z.of_nat k)%Z t)
              (Z.to_nat (hi - lo)) lo body s) as (s' & E & HI).
  - now rewrite Z.add_0_r.
  - intros k t Hk Hk'.
    destruct (Hstep (lo + Z.of_nat k)%Z t) as (t' & E' & HI'); auto; [lia|].
    exists t'. split; auto.
    replace (lo + Z.of_nat (Datatypes.S k))%Z with (lo + Z.of_nat k + 1)%Z
      by lia. exact HI'.
  - exists s'. split; auto.
    assert (Heq : (lo + Z.of_nat (Z.to_nat (hi - lo)) = hi)%Z) by lia.
    rewrite Heq in HI. exact HI.
Qed.

Lemma for_range_empty {S : Type} lo hi (body : Z -> S -> result S) s :
  (hi <= lo)%Z -> for_range lo hi body s = Ok s.
Proof.
  intros H. unfold for_range.
  replace (Z.to_nat (hi - lo)) with O by lia. reflexivity.
Qed.

(** A loop that fills [buf[lo..hi)] with [f]. *)
Lemma for_range_fill {A : Type} (d : A) (f : Z -> A) lo hi buf :
  (0 <= lo <= hi)%Z -> (hi <= Z.of_nat (length buf))%Z ->
  exists buf', for_range lo hi (fun i b => store b i (f i)) buf = Ok buf' /\
    length buf' = length buf /\
    forall p, (0 <= p)%Z ->
      nth (Z.to_nat p) buf' d =
      if ((lo <=? p) && (p <? hi))%Z then f p else nth (Z.to_nat p) buf d.
Proof.
  intros Hlo Hhi.
  apply (for_range_inv (fun i b =>
    length b = length buf /\
    forall p, (0 <= p)%Z ->
      nth (Z.to_nat p) b d =
      if ((lo <=? p) && (p <? i))%Z then f p else nth (Z.to_nat p) buf d)).
  - lia.
  - split; auto. intros p Hp.
    destruct (Z.leb_spec lo p); destruct (Z.ltb_spec p lo); simpl; auto; lia.
  - intros i b Hi [Hlen Hb].
    rewrite store_Ok by lia. eexists; split; [reflexivity|].
    split; [now rewrite upd_length|].
    intros p Hp. destruct (Z.eq_dec p i) as [->|Hne].
    + rewrite nth_upd_eq by lia.
      destruct (Z.leb_spec lo i); destruct (Z.ltb_spec i (i + 1));
        simpl; auto; lia.
    + rewrite nth_upd_ne by lia. rewrite Hb by auto.
      destruct (Z.leb_spec lo p); destruct (Z.ltb_spec p i);
        destruct (Z.ltb_spec p (i + 1)); simpl; auto; lia.
Qed.

(** ** Conversions between [double] and [int] *)

Lemma check_int_Ok z : is_int z -> check_int z = Ok z.
Proof.
  unfold is_int, check_int. intros [H1 H2].
  destruct (Z.leb_spec INT_MIN z); destruct (Z.leb_spec z INT_MAX);
    simpl; auto; lia.
Qed.

Lemma check_int_inv z z' : check_int z = Ok z' -> z' = z /\ is_int z.
Proof.
  unfold is_int, check_int.
  destruct (Z.leb_spec INT_MIN z); destruct (Z.leb_spec z INT_MAX);
    simpl; intros [= <-] || discriminate. auto.
Qed.

Lemma check_int_Err z : ~ is_int z -> check_int z = Err Undefined.
Proof.
  unfold is_int, check_int. intros H.
  destruct (Z.leb_spec INT_MIN z); destruct (Z.leb_spec z INT_MAX);
    simpl; auto; lia.
Qed.

Lemma Ztrunc_IZR z : Ztrunc (IZR z) = z.
Proof.
  unfold Ztrunc. destruct (Rle_dec 0 (IZR z)).
  - apply ZfloorZ.
  - unfold Zceil. rewrite ZfloorNZ. lia.
Qed.

Lemma Ztrunc_nonneg x : (0 <= x)%R -> Ztrunc x = Zfloor x.
Proof. unfold Ztrunc. destruct (Rle_dec 0 x); [reflexivity | tauto]. Qed.

Lemma nearest_cell_eq u uinc :
  nearest_cell u uinc = check_int (nearest u uinc).
Proof.
  unfold nearest_cell, double2int, floor, nearest. now rewrite Ztrunc_IZR.
Qed.

Lemma tgtocg_eq : tgtocg = 120%R.
Proof. unfold tgtocg, NGCF, nmask. simpl. lra. Qed.

Lemma convfn_length : length convfn = Z.to_nat NGCF.
Proof. unfold convfn. now rewrite length_map, length_seq. Qed.

(** The distance of a grid line of the support window to the fractional
    coordinate is at most [nmask + 0.5]. *)
Lemma window_distance (frc : R) (i : Z) :
  (Zfloor (frc + 0.5) - nmask <= i <= Zfloor (frc + 0.5) + nmask)%Z ->
  (Rabs (IZR i - frc) <= IZR nmask + 0.5)%R.
Proof.
  intros [Hlo Hhi].
  destruct (Zfloor_bound (frc + 0.5)) as [H1 H2].
  apply IZR_le in Hlo, Hhi. rewrite minus_IZR in Hlo. rewrite plus_IZR in Hhi.
  apply Rabs_le. lra.
Qed.

(** The table index of a grid line of the support window is defined and
    lies in the table. *)
Lemma convfn_index_in_table (frc : R) (i : Z) :
  (Zfloor (frc + 0.5) - nmask <= i <= Zfloor (frc + 0.5) + nmask)%Z ->
  exists k, convfn_index i frc = Ok k /\ (0 <= k < NGCF)%Z /\
            k = Zfloor (tgtocg * fabs (IZR i - frc) + 0.5).
Proof.
  intros H. apply window_distance in H.
  unfold convfn_index, double2int, fabs.
  pose proof (Rabs_pos (IZR i - frc)) as Hpos.
  set (d := Rabs (IZR i - frc)) in *.
  assert (Hx : (0.5 <= tgtocg * d + 0.5 <= 300.5)%R).
  { rewrite tgtocg_eq. unfold nmask in H. simpl in H. lra. }
  rewrite Ztrunc_nonneg by lra.
  destruct (Zfloor_bound (tgtocg * d + 0.5)) as [H1 H2].
  assert (H0 : (0 <= Zfloor (tgtocg * d + 0.5))%Z)
    by (apply Zfloor_lub; simpl; lra).
  assert (H3 : (Zfloor (tgtocg * d + 0.5) < 301)%Z)
    by (apply lt_IZR; lra).
  exists (Zfloor (tgtocg * d + 0.5)). split; [|split; [unfold NGCF; lia | auto]].
  apply check_int_Ok. unfold is_int, INT_MIN, INT_MAX. lia.
Qed.

(** ** The gridding set-up *)

Lemma wrap_index_range (i n : Z) :
  (- n <= i < 2 * n)%Z -> (0 <= wrap_index i n < n)%Z.
Proof.
  intros H. unfold wrap_index.
  destruct (Z.ltb_spec i 0).
  - destruct (Z.geb_spec (i + n) n); lia.
  - destruct (Z.geb_spec i n); lia.
Qed.

Lemma tap_decompose (a b : Z) :
  (0 <= b < 2 * nmask + 1)%Z -> (0 <= a)%Z ->
  let t := ((2 * nmask + 1) * a + b)%Z in
  (t / (2 * nmask + 1) = a /\ t mod (2 * nmask + 1) = b)%Z.
Proof.
  unfold nmask. change (2 * 2 + 1)%Z with 5%Z. intros Hb Ha. cbv zeta.
  split; [symmetry; apply (Z.div_unique _ 5 a b) |
          symmetry; apply (Z.mod_unique _ 5 a b)]; lia.
Qed.

Lemma init_cft_row_spec nx2 ny2 uinc vinc u v i vals colind :
  (0 <= i)%Z -> (i < Z.of_nat (length u))%Z -> (i < Z.of_nat (length v))%Z ->
  ((i + 1) * numel <= Z.of_nat (length vals))%Z ->
  length colind = length vals ->
  window_is_int (rnth u i) uinc -> window_is_int (rnth v i) vinc ->
  exists vals' colind',
    init_cft_row nx2 ny2 uinc vinc u v numel i (vals, colind)
      = Ok (vals', colind') /\
    length vals' = length vals /\ length colind' = length colind /\
    forall p, (0 <= p)%Z ->
      znth colind' p =
      if ((i * numel <=? p) && (p <? (i + 1) * numel))%Z
      then tap_colind nx2 ny2 (nearest (rnth u i) uinc)
                      (nearest (rnth v i) vinc) (p - i * numel)
      else znth colind p.
Proof.
  intros Hi Hu Hv Hlen Hcl Wu Wv.
  unfold init_cft_row.
  rewrite (load_Ok 0%R) by lia. cbn [bind].
  rewrite (load_Ok 0%R) by lia. cbn [bind].
  fold (rnth u i) (rnth v i).
  set (ui := rnth u i) in *. set (vi := rnth v i) in *.
  rewrite !nearest_cell_eq.
  set (idu := nearest ui uinc) in *. set (idv := nearest vi vinc) in *.
  unfold window_is_int in Wu, Wv. fold idu in Wu. fold idv in Wv.
  assert (Hnm : nmask = 2%Z) by reflexivity.
  assert (Hne : numel = 25%Z) by reflexivity.
  assert (Hmin : INT_MIN = (-2147483648)%Z) by reflexivity.
  assert (Hmax : INT_MAX = 2147483647%Z) by reflexivity.
  rewrite (check_int_Ok idu) by (unfold is_int; lia). cbn [bind].
  rewrite (check_int_Ok idv) by (unfold is_int; lia). cbn [bind].
  rewrite (check_int_Ok (idv - nmask)%Z) by (unfold is_int; lia).
  cbn [bind].
  rewrite (check_int_Ok (idv + nmask + 1)%Z) by (unfold is_int; lia).
  cbn [bind].
  rewrite (check_int_Ok (idu - nmask)%Z) by (unfold is_int; lia).
  cbn [bind].
  rewrite (check_int_Ok (idu + nmask + 1)%Z) by (unfold is_int; lia).
  cbn [bind].
  set (row := (i * numel)%Z).
  set (Inv := row_filled nx2 ny2 idu idv row (length vals) colind).
  match goal with
  | |- context [for_range ?lo ?hi ?body ?s] =>
      destruct (@for_range_inv _
                  (fun iv st => Inv ((2 * nmask + 1) * (iv - (idv - nmask)))%Z st)
                  lo hi body s) as (st' & E & HI)
  end.
  - lia.
  - unfold Inv, row_filled. repeat split; auto; try lia.
    intros p Hp.
    destruct (Z.leb_spec row p); destruct (Z.ltb_spec p (row + (2 * nmask + 1) * (idv - nmask - (idv - nmask)))%Z);
      simpl; auto; lia.
  - (* one line of the window *)
    intros iv st Hiv HInv.
    destruct (convfn_index_in_table (vi / vinc)%R iv) as (kv & Ekv & Hkv & _).
    { fold (nearest vi vinc). fold idv. lia. }
    rewrite Ekv. cbn [bind].
    rewrite (load_Ok 0%R) by (rewrite convfn_length; lia). cbn [bind].
    match goal with
    | |- exists t', for_range ?lo ?hi ?body ?s = Ok t' /\ _ =>
        destruct (@for_range_inv _
          (fun iu st => Inv ((2 * nmask + 1) * (iv - (idv - nmask))
                             + (iu - (idu - nmask)))%Z st)
          lo hi body s) as (st' & E & HI)
    end.
    + lia.
    + now rewrite Z.sub_diag, Z.add_0_r.
    + (* one tap *)
      intros iu [[vals1 colind1] counter] Hiu HInv1.
      destruct HInv1 as (Hc & Hl1 & Hl2 & Hcol).
      destruct (convfn_index_in_table (ui / uinc)%R iu) as (ku & Eku & Hku & _).
      { fold (nearest ui uinc). fold idu. lia. }
      rewrite Eku. cbn [bind].
      rewrite (load_Ok 0%R) by (rewrite convfn_length; lia). cbn [bind].
      assert (Hpos : (0 <= row + counter < Z.of_nat (length vals))%Z).
      { subst counter. unfold row. nia. }
      rewrite store_Ok by lia. cbn [bind].
      rewrite store_Ok by lia. cbn [bind].
      eexists; split; [reflexivity|].
      unfold Inv, row_filled. rewrite !upd_length.
      split; [lia|]. split; [auto|]. split; [auto|].
      replace ((2 * nmask + 1) * (iv - (idv - nmask))
               + (iu + 1 - (idu - nmask)))%Z with (counter + 1)%Z by lia.
      intros p Hp. unfold znth.
      destruct (Z.eq_dec p (row + counter)) as [->|Hne'].
      * rewrite nth_upd_eq by lia.
        destruct (Z.leb_spec row (row + counter));
          destruct (Z.ltb_spec (row + counter) (row + (counter + 1)));
          simpl; try lia.
        unfold tap_colind, tap_iv, tap_iu.
        replace (row + counter - row)%Z with counter by lia.
        destruct (tap_decompose (iv - (idv - nmask)) (iu - (idu - nmask)))
          as [Hd Hm]; try lia.
        rewrite Hc, Hd, Hm.
        f_equal; f_equal; f_equal; lia.
      * rewrite nth_upd_ne by lia. fold (znth colind1 p).
        rewrite Hcol by auto. rewrite <- Hc.
        destruct (Z.leb_spec row p);
          destruct (Z.ltb_spec p (row + counter));
          destruct (Z.ltb_spec p (row + (counter + 1)));
          simpl; auto; lia.
    + exists st'. split; auto.
      replace ((2 * nmask + 1) * (iv + 1 - (idv - nmask)))%Z
        with ((2 * nmask + 1) * (iv - (idv - nmask))
              + (idu + nmask + 1 - (idu - nmask)))%Z by lia.
      exact HI.
  - destruct st' as [[vals' colind'] counter].
    rewrite E. cbn [bind].
    destruct HI as (Hc & Hl1 & Hl2 & Hcol).
    exists vals', colind'. split; [reflexivity|].
    split; [auto|]. split; [congruence|].
    intros p Hp. rewrite Hcol by auto.
    replace (row + (2 * nmask + 1) * (idv + nmask + 1 - (idv - nmask)))%Z
      with ((i + 1) * numel)%Z by (unfold row; lia).
    reflexivity.
Qed.

Lemma malloc_length {A : Type} (d : A) n : length (malloc d n) = Z.to_nat n.
Proof. apply repeat_length. Qed.

(** What [purify_measurement_init_cft] builds when the support window of
    every measurement stays within [int]. *)
Lemma init_cft_spec param deconv u v :
  (0 <= nmeas param)%Z ->
  Z.of_nat (length u) = nmeas param -> Z.of_nat (length v) = nmeas param ->
  (nx1 param * ny1 param <= Z.of_nat (length deconv))%Z ->
  (forall i, (0 <= i < nmeas param)%Z ->
     window_is_int (rnth u i) (cparam_uinc param) /\
     window_is_int (rnth v i) (cparam_vinc param)) ->
  exists mat deconv',
    purify_measurement_init_cft deconv u v param = Ok (mat, deconv') /\
    nrows mat = nmeas param /\
    ncols mat = (cparam_nx2 param * cparam_ny2 param)%Z /\
    nvals mat = (nmeas param * numel)%Z /\
    length (vals mat) = Z.to_nat (nvals mat) /\
    length (colind mat) = Z.to_nat (nvals mat) /\
    length (rowptr mat) = Z.to_nat (nmeas param + 1) /\
    (forall j, (0 <= j <= nmeas param)%Z ->
       znth (rowptr mat) j = (j * numel)%Z) /\
    (forall i t, (0 <= i < nmeas param)%Z -> (0 <= t < numel)%Z ->
       znth (colind mat) (i * numel + t) =
       tap_colind (cparam_nx2 param) (cparam_ny2 param)
                  (nearest (rnth u i) (cparam_uinc param))
                  (nearest (rnth v i) (cparam_vinc param)) t) /\
    length deconv' = length deconv /\
    (forall p, (0 <= p < nx1 param * ny1 param)%Z -> rnth deconv' p = 1%R).
Proof.
  intros Hn Hu Hv Hd Hw.
  unfold purify_measurement_init_cft.
  fold (cparam_nx2 param) (cparam_ny2 param).
  fold (cparam_uinc param) (cparam_vinc param). fold numel.
  assert (Hne : numel = 25%Z) by reflexivity.
  replace (nmeas param * (2 * nmask + 1) * (2 * nmask + 1))%Z
    with (nmeas param * numel)%Z by (unfold numel; lia).
  (* row pointers *)
  destruct (for_range_fill 0%Z (fun j => (j * numel)%Z) 0 (nmeas param + 1)
              (malloc 0%Z (nmeas param + 1)))
    as (rp & Erp & Lrp & Hrp); [lia | rewrite malloc_length; lia |].
  rewrite Erp. cbn [bind].
  (* main loop *)
  set (N := Z.to_nat (nmeas param * numel)).
  destruct (@for_range_inv _
    (fun i (st : list R * list Z) =>
       length (fst st) = N /\ length (snd st) = N /\
       forall i' t, (0 <= i' < i)%Z -> (0 <= t < numel)%Z ->
         znth (snd st) (i' * numel + t) =
         tap_colind (cparam_nx2 param) (cparam_ny2 param)
                    (nearest (rnth u i') (cparam_uinc param))
                    (nearest (rnth v i') (cparam_vinc param)) t)
    0%Z (nmeas param)
    (init_cft_row (cparam_nx2 param) (cparam_ny2 param)
                  (cparam_uinc param) (cparam_vinc param) u v numel)
    (malloc 0%R (nmeas param * numel), malloc 0%Z (nmeas param * numel)))
    as ([vals' colind'] & Emain & Lv & Lc & Hcol).
  - lia.
  - simpl. rewrite !malloc_length. repeat split; auto. intros; lia.
  - intros i [vals1 colind1] Hi (Lv & Lc & Hcol). simpl in Lv, Lc, Hcol.
    destruct (Hw i Hi) as [Wu Wv].
    assert (Hfit : ((i + 1) * numel <= Z.of_nat (length vals1))%Z)
      by (rewrite Lv; unfold N; nia).
    destruct (init_cft_row_spec (cparam_nx2 param) (cparam_ny2 param)
                (cparam_uinc param) (cparam_vinc param) u v i vals1 colind1)
      as (vals2 & colind2 & E & L1 & L2 & H2); auto; try lia.
    exists (vals2, colind2). split; [exact E|]. simpl.
    split; [lia|]. split; [lia|].
    intros i' t Hi' Ht. rewrite H2 by nia.
    destruct (Z.eq_dec i' i) as [->|Hne'].
    + destruct (Z.leb_spec (i * numel) (i * numel + t));
        destruct (Z.ltb_spec (i * numel + t) ((i + 1) * numel));
        simpl; try lia.
      f_equal. lia.
    + destruct (Z.leb_spec (i * numel) (i' * numel + t));
        destruct (Z.ltb_spec (i' * numel + t) ((i + 1) * numel));
        simpl; try (apply Hcol; lia); nia.
  - rewrite Emain. cbn [bind]. simpl in Lv, Lc, Hcol.
    (* deconvolution kernel *)
    destruct (Z.le_gt_cases 0 (nx1 param * ny1 param)) as [Hpos|Hneg].
    + destruct (for_range_fill 0%R (fun _ : Z => 1%R) 0
                  (nx1 param * ny1 param) deconv)
        as (dc & Edc & Ldc & Hdc); [lia | lia |].
      rewrite Edc. cbn [bind].
      eexists; eexists. split; [reflexivity|]. simpl.
      repeat split; auto.
      * rewrite Lrp. apply malloc_length.
      * intros j Hj. unfold znth. rewrite Hrp by lia.
        destruct (Z.leb_spec 0 j); destruct (Z.ltb_spec j (nmeas param + 1));
          simpl; auto; lia.
      * intros p Hp. unfold rnth. rewrite Hdc by lia.
        destruct (Z.leb_spec 0 p);
          destruct (Z.ltb_spec p (nx1 param * ny1 param)); simpl; auto; lia.
    + rewrite for_range_empty by lia. cbn [bind].
      eexists; eexists. split; [reflexivity|]. simpl.
      repeat split; auto.
      * rewrite Lrp. apply malloc_length.
      * intros j Hj. unfold znth. rewrite Hrp by lia.
        destruct (Z.leb_spec 0 j); destruct (Z.ltb_spec j (nmeas param + 1));
          simpl; auto; lia.
      * intros p Hp. lia.
Qed.

Lemma for_range_first {S : Type} lo hi (body : Z -> S -> result S) s :
  (lo < hi)%Z ->
  for_range lo hi body s = (s' <- body lo s ;; for_range (lo + 1) hi body s').
Proof.
  intros H. unfold for_range.
  replace (Z.to_nat (hi - lo)) with (Datatypes.S (Z.to_nat (hi - (lo + 1))))
    by lia. reflexivity.
Qed.

(** Coordinates in [(-umax, umax]] have their nearest grid line within half
    the grid. *)
Lemma nearest_bound (u um : R) (h : Z) :
  (0 < h)%Z -> (- um < u <= um)%R ->
  (- h <= nearest u (um / IZR h) <= h)%Z.
Proof.
  intros Hh [Hlo Hhi]. unfold nearest.
  assert (Hum : (0 < um)%R) by lra.
  assert (HhR : (0 < IZR h)%R) by (apply IZR_lt; lia).
  set (x := (u / (um / IZR h))%R).
  assert (Hx : (x = u / um * IZR h)%R) by (unfold x; field; split; lra).
  assert (Hr : (-1 < u / um <= 1)%R).
  { split.
    - apply Rmult_lt_reg_r with um; auto. unfold Rdiv.
      rewrite Rmult_assoc, Rinv_l by lra. lra.
    - apply Rmult_le_reg_r with um; auto. unfold Rdiv.
      rewrite Rmult_assoc, Rinv_l by lra. lra. }
  assert (Hxb : (- IZR h < x <= IZR h)%R) by (rewrite Hx; nra).
  destruct (Zfloor_bound (x + 0.5)) as [H1 H2]. split.
  - apply Zfloor_lub. rewrite opp_IZR. lra.
  - apply Z.lt_succ_r, lt_IZR. rewrite succ_IZR. lra.
Qed.

Lemma even_quot2 n : (0 <= n)%Z -> Z.even n = true -> (n = 2 * Z.quot n 2)%Z.
Proof.
  intros Hn He. rewrite Z.quot_div_nonneg by lia.
  apply Z.even_spec in He. destruct He as [k ->].
  rewrite Z.mul_comm, Z.div_mul by lia. lia.
Qed.

(** Under the preconditions on the coordinates the support window of a
    measurement is within [int] and wraps into the grid in one step. *)
Lemma nearest_in_grid (u um : R) (n : Z) :
  (4 <= n)%Z -> is_int n -> Z.even n = true -> (- um < u <= um)%R ->
  let idu := nearest u (um / IZR (Z.quot n 2)) in
  window_is_int u (um / IZR (Z.quot n 2)) /\
  forall t, (0 <= t < numel)%Z -> (0 <= wrap_index (tap_iu idu t) n < n)%Z /\
                                  (0 <= wrap_index (tap_iv idu t) n < n)%Z.
Proof.
  intros Hn Hint He Hu. cbv zeta.
  pose proof (even_quot2 n ltac:(lia) He) as Hh.
  set (h := Z.quot n 2) in *.
  pose proof (nearest_bound u um h ltac:(lia) Hu) as Hb.
  unfold is_int, INT_MIN, INT_MAX in Hint.
  split.
  - unfold window_is_int, INT_MIN, INT_MAX, nmask. lia.
  - intros t Ht. unfold numel, nmask in Ht. change ((2 * 2 + 1) * (2 * 2 + 1))%Z with 25%Z in Ht.
    unfold tap_iu, tap_iv, nmask. change (2 * 2 + 1)%Z with 5%Z.
    pose proof (Z.mod_pos_bound t 5 ltac:(lia)).
    assert (0 <= t / 5 < 5)%Z
      by (split; [apply Z.div_pos; lia | apply Z.div_lt_upper_bound; lia]).
    split; apply wrap_index_range; lia.
Qed.




Lemma window_is_int_zero inc : window_is_int 0 inc.
Proof.
  unfold window_is_int, nearest.
  replace (0 / inc + 0.5)%R with 0.5%R by (unfold Rdiv; ring).
  rewrite (Zfloor_eq 0) by (simpl; lra).
  unfold INT_MIN, INT_MAX, nmask. lia.
Qed.



(** ** Inner products and updates of a vector *)

Lemma cnth_upd_eq n v l : (n < length l)%nat -> cnth (upd n v l) n = v.
Proof. apply nth_upd_eq. Qed.

Lemma cnth_upd_ne n m v l : n <> m -> cnth (upd n v l) m = cnth l m.
Proof. apply nth_upd_ne. Qed.

Lemma upd_upd {A : Type} n (v w : A) l : upd n v (upd n w l) = upd n v l.
Proof.
  revert n; induction l as [|h t IH]; intros [|n]; simpl; auto.
  now rewrite IH.
Qed.

(** A sum whose [k]-th term changes by [delta]. *)
Lemma Csum_change f g n k delta :
  (k < n)%nat -> (forall j, (j < n)%nat -> j <> k -> g j = f j) ->
  g k = (f k + delta)%C -> Csum g n = (Csum f n + delta)%C.
Proof.
  induction n as [|n IH]; intros Hk Hne Heq; [lia|]. simpl.
  destruct (Nat.eq_dec k n) as [->|Hkn].
  - rewrite (Csum_ext g f) by (intros; apply Hne; lia). rewrite Heq. ring.
  - rewrite IH, (Hne n) by (auto; try lia; intros; apply Hne; lia). ring.
Qed.

Lemma inner_upd_r n a b k delta :
  (k < n)%nat -> (k < length b)%nat ->
  inner n a (upd k (cnth b k + delta)%C b) =
  (inner n a b + conj (cnth a k) * delta)%C.
Proof.
  intros Hk Hl. unfold inner. apply Csum_change with (k := k); auto.
  - intros j _ Hj. now rewrite cnth_upd_ne by auto.
  - rewrite cnth_upd_eq by auto. ring.
Qed.

Lemma inner_upd_l n a b k v :
  (k < n)%nat -> (k < length a)%nat -> cnth a k = C0 ->
  inner n (upd k v a) b = (inner n a b + conj v * cnth b k)%C.
Proof.
  intros Hk Hl H0. unfold inner. apply Csum_change with (k := k); auto.
  - intros j _ Hj. now rewrite cnth_upd_ne by auto.
  - rewrite cnth_upd_eq, H0, conj_C0 by auto. ring.
Qed.

Lemma inner_zero_r n a b :
  (forall k, (k < n)%nat -> cnth b k = C0) -> inner n a b = C0.
Proof.
  intros H. unfold inner.
  rewrite (Csum_ext _ (fun _ => C0)), Csum_zero; auto.
  intros k Hk. rewrite H by auto. ring.
Qed.

Lemma inner_zero_l n a b :
  (forall k, (k < n)%nat -> cnth a k = C0) -> inner n a b = C0.
Proof.
  intros H. unfold inner.
  rewrite (Csum_ext _ (fun _ => C0)), Csum_zero; auto.
  intros k Hk. rewrite H, conj_C0 by auto. ring.
Qed.

Lemma inner_ext n a a' b b' :
  (forall k, (k < n)%nat -> cnth a k = cnth a' k) ->
  (forall k, (k < n)%nat -> cnth b k = cnth b' k) ->
  inner n a b = inner n a' b'.
Proof.
  intros Ha Hb. unfold inner. apply Csum_ext. intros k Hk.
  now rewrite Ha, Hb.
Qed.

(** ** The sparse products *)

Lemma load_znth l i :
  (0 <= i < Z.of_nat (length l))%Z -> load l i = Ok (znth l i).
Proof. apply load_Ok. Qed.

Lemma load_rnth l i :
  (0 <= i < Z.of_nat (length l))%Z -> load l i = Ok (rnth l i).
Proof. apply load_Ok. Qed.

Lemma load_cnth l i :
  (0 <= i < Z.of_nat (length l))%Z -> load l i = Ok (cnth l (Z.to_nat i)).
Proof. apply load_Ok. Qed.

(** [purify_sparsemat_adj_complexr] computes a vector [s] with
    [<t, s> = sparse_form A t y] for every [t]. *)
Lemma sparse_adj_spec A temp y :
  sparsemat_wf A ->
  (ncols A <= Z.of_nat (length temp))%Z ->
  (nrows A <= Z.of_nat (length y))%Z ->
  exists s, purify_sparsemat_adj_complexr temp y A = Ok s /\
    length s = length temp /\
    forall t, inner (Z.to_nat (ncols A)) t s = sparse_form A t y.
Proof.
  intros (Hnr & Hnc & Hrp & Hrow & Hcol) Ht Hy.
  unfold purify_sparsemat_adj_complexr.
  destruct (for_range_fill C0 (fun _ : Z => C0) 0 (ncols A) temp)
    as (s0 & E0 & L0 & H0); [lia | lia |].
  rewrite E0. cbn [bind].
  set (term := fun (t : list complex) (r k : nat) =>
         (conj (cnth t (row_col A r k)) *
          (cnth y r * RtoC (row_val A r k)))%C).
  set (rowsum := fun t r => Csum (term t r) (row_len A r)).
  apply (for_range_inv (fun r s =>
    length s = length temp /\
    forall t, inner (Z.to_nat (ncols A)) t s =
              Csum (rowsum t) (Z.to_nat r))).
  - lia.
  - split; [exact L0|]. intros t. simpl. apply inner_zero_r.
    intros k Hk. unfold cnth.
    replace k with (Z.to_nat (Z.of_nat k)) by lia.
    rewrite H0 by lia.
    destruct (Z.leb_spec 0 (Z.of_nat k));
      destruct (Z.ltb_spec (Z.of_nat k) (ncols A)); simpl; auto; lia.
  - intros r s Hr [Ls Hs].
    destruct (Hrow r Hr) as (Hlo & Hhi1 & Hhi2).
    rewrite load_znth by lia. cbn [bind].
    rewrite load_znth by lia. cbn [bind].
    set (lo := znth (rowptr A) r) in *.
    set (hi := znth (rowptr A) (r + 1)) in *.
    assert (Hrn : Z.of_nat (Z.to_nat r) = r) by lia.
    assert (Hlen : row_len A (Z.to_nat r) = Z.to_nat (hi - lo)).
    { unfold row_len. rewrite Hrn. reflexivity. }
    assert (Hrs : forall t, rowsum t (Z.to_nat r) =
                            Csum (term t (Z.to_nat r)) (Z.to_nat (hi - lo))).
    { intros t. unfold rowsum. now rewrite Hlen. }
    destruct (Z.le_gt_cases hi lo) as [Hemp|Hne].
    + rewrite for_range_empty by lia.
      exists s. split; [reflexivity|]. split; [exact Ls|].
      intros t. replace (Z.to_nat (r + 1)) with (S (Z.to_nat r)) by lia.
      simpl. rewrite Hs, Hrs.
      replace (Z.to_nat (hi - lo)) with O by lia. simpl. ring.
    + destruct (@for_range_inv _ (fun rr s =>
        length s = length temp /\
        forall t, inner (Z.to_nat (ncols A)) t s =
                  (Csum (rowsum t) (Z.to_nat r) +
                   Csum (term t (Z.to_nat r)) (Z.to_nat (rr - lo)))%C)
        lo hi
        (fun rr y0 =>
           c <- load (colind A) rr ;;
           xr <- load y r ;;
           a <- load (vals A) rr ;;
           yc <- load y0 c ;;
           store y0 c (yc + xr * RtoC a)%C) s) as (s' & E & Ls' & Hs').
      * lia.
      * split; [exact Ls|]. intros t. rewrite Hs, Z.sub_diag. simpl. ring.
      * intros rr s1 Hrr [Ls1 Hs1].
        assert (Hc := Hcol rr ltac:(lia)).
        rewrite load_znth by lia. cbn [bind].
        rewrite load_cnth by lia. cbn [bind].
        rewrite load_rnth by lia. cbn [bind].
        rewrite load_cnth by lia. cbn [bind].
        rewrite store_Ok by lia.
        eexists. split; [reflexivity|]. rewrite upd_length.
        split; [exact Ls1|]. intros t.
        rewrite inner_upd_r by lia. rewrite Hs1.
        replace (Z.to_nat (rr + 1 - lo)) with (S (Z.to_nat (rr - lo))) by lia.
        simpl. unfold term at 3. unfold row_col, row_val.
        rewrite Hrn. fold lo.
        replace (lo + Z.of_nat (Z.to_nat (rr - lo)))%Z with rr by lia.
        ring.
      * exists s'. split; [exact E|]. split; [exact Ls'|].
        intros t. rewrite Hs'.
        replace (Z.to_nat (r + 1)) with (S (Z.to_nat r)) by lia.
        simpl. now rewrite Hrs.
Qed.

(** [purify_sparsemat_fwd_complexr] computes the rows [sum_k t[col] * a]
    and leaves the rest of the output buffer unchanged. *)
Lemma sparse_fwd_rows A out t :
  sparsemat_wf A ->
  (ncols A <= Z.of_nat (length t))%Z ->
  (nrows A <= Z.of_nat (length out))%Z ->
  exists fx, purify_sparsemat_fwd_complexr out t A = Ok fx /\
    length fx = length out /\
    (forall r, (r < Z.to_nat (nrows A))%nat ->
       cnth fx r = Csum (fun k => (cnth t (row_col A r k) *
                                   RtoC (row_val A r k))%C) (row_len A r)) /\
    (forall p, (Z.to_nat (nrows A) <= p)%nat -> cnth fx p = cnth out p).
Proof.
  intros (Hnr & Hnc & Hrp & Hrow & Hcol) Ht Hy.
  unfold purify_sparsemat_fwd_complexr.
  set (rowval := fun r => Csum (fun k => (cnth t (row_col A r k) *
                                 RtoC (row_val A r k))%C) (row_len A r)).
  destruct (@for_range_inv _ (fun r s =>
    length s = length out /\
    (forall r', (r' < Z.to_nat r)%nat -> cnth s r' = rowval r') /\
    (forall p, (Z.to_nat r <= p)%nat -> cnth s p = cnth out p))
    0%Z (nrows A)
    (fun r y0 =>
       y1 <- store y0 r C0 ;;
       lo <- load (rowptr A) r ;;
       hi <- load (rowptr A) (r + 1)%Z ;;
       for_range lo hi (fun rr y2 =>
         c <- load (colind A) rr ;;
         xc <- load t c ;;
         a <- load (vals A) rr ;;
         yr <- load y2 r ;;
         store y2 r (yr + xc * RtoC a)%C) y1) out) as (fx & E & Lf & H1 & H2).
  - lia.
  - split; [reflexivity|]. split; [intros; lia | auto].
  - intros r s Hr (Ls & Hdone & Hrest).
    destruct (Hrow r Hr) as (Hlo & Hhi1 & Hhi2).
    rewrite store_Ok by lia. cbn [bind].
    rewrite load_znth by lia. cbn [bind].
    rewrite load_znth by lia. cbn [bind].
    set (lo := znth (rowptr A) r) in *.
    set (hi := znth (rowptr A) (r + 1)) in *.
    set (s1 := upd (Z.to_nat r) C0 s).
    assert (Ls1 : length s1 = length out) by (unfold s1; now rewrite upd_length).
    assert (Hrn : Z.of_nat (Z.to_nat r) = r) by lia.
    assert (Hlen : row_len A (Z.to_nat r) = Z.to_nat (hi - lo)).
    { unfold row_len. rewrite Hrn. reflexivity. }
    set (term := fun k => (cnth t (row_col A (Z.to_nat r) k) *
                           RtoC (row_val A (Z.to_nat r) k))%C).
    assert (Hfin : forall s',
      length s' = length out ->
      cnth s' (Z.to_nat r) = Csum term (Z.to_nat (hi - lo)) ->
      (forall p, p <> Z.to_nat r -> cnth s' p = cnth s1 p) ->
      length s' = length out /\
      (forall r', (r' < Z.to_nat (r + 1))%nat -> cnth s' r' = rowval r') /\
      (forall p, (Z.to_nat (r + 1) <= p)%nat -> cnth s' p = cnth out p)).
    { intros s' L' Hr' Hne'. split; [exact L'|]. split.
      - intros r' Hlt. destruct (Nat.eq_dec r' (Z.to_nat r)) as [->|Hd].
        + rewrite Hr'. unfold rowval. rewrite Hlen. reflexivity.
        + rewrite Hne' by auto. unfold s1. rewrite cnth_upd_ne by auto.
          apply Hdone. lia.
      - intros p Hp. rewrite Hne' by lia. unfold s1.
        rewrite cnth_upd_ne by lia. apply Hrest. lia. }
    destruct (Z.le_gt_cases hi lo) as [Hemp|Hne].
    + rewrite for_range_empty by lia.
      exists s1. split; [reflexivity|]. apply Hfin; auto.
      replace (Z.to_nat (hi - lo)) with O by lia. simpl.
      unfold s1. apply cnth_upd_eq. lia.
    + destruct (@for_range_inv _ (fun rr s' =>
        length s' = length out /\
        cnth s' (Z.to_nat r) = Csum term (Z.to_nat (rr - lo)) /\
        (forall p, p <> Z.to_nat r -> cnth s' p = cnth s1 p))
        lo hi
        (fun rr y2 =>
           c <- load (colind A) rr ;;
           xc <- load t c ;;
           a <- load (vals A) rr ;;
           yr <- load y2 r ;;
           store y2 r (yr + xc * RtoC a)%C) s1) as (s' & E & L' & Hr' & Hne').
      * lia.
      * split; [exact Ls1|]. split; [|auto].
        rewrite Z.sub_diag. simpl. unfold s1. apply cnth_upd_eq. lia.
      * intros rr s2 Hrr (L2 & Hr2 & Hne2).
        assert (Hc := Hcol rr ltac:(lia)).
        rewrite load_znth by lia. cbn [bind].
        rewrite load_cnth by lia. cbn [bind].
        rewrite load_rnth by lia. cbn [bind].
        rewrite load_cnth by lia. cbn [bind].
        rewrite store_Ok by lia.
        eexists. split; [reflexivity|]. rewrite upd_length.
        split; [exact L2|]. split.
        -- rewrite cnth_upd_eq by lia. rewrite Hr2.
           replace (Z.to_nat (rr + 1 - lo)) with (S (Z.to_nat (rr - lo)))
             by lia.
           assert (Hterm : term (Z.to_nat (rr - lo)) =
                     (cnth t (Z.to_nat (znth (colind A) rr)) *
                      RtoC (rnth (vals A) rr))%C).
           { unfold term, row_col, row_val. rewrite Hrn. fold lo.
             replace (lo + Z.of_nat (Z.to_nat (rr - lo)))%Z with rr by lia.
             reflexivity. }
           simpl. now rewrite Hterm.
        -- intros p Hp. rewrite cnth_upd_ne by auto. now apply Hne2.
      * exists s'. split; [exact E|]. apply Hfin; auto.
  - exists fx. split; [exact E|]. split; [exact Lf|]. split; [exact H1|].
    exact H2.
Qed.

(** [<A t, y> = sparse_form A t y]. *)
Lemma sparse_fwd_spec A out t :
  sparsemat_wf A ->
  (ncols A <= Z.of_nat (length t))%Z ->
  (nrows A <= Z.of_nat (length out))%Z ->
  exists fx, purify_sparsemat_fwd_complexr out t A = Ok fx /\
    length fx = length out /\
    forall y, inner (Z.to_nat (nrows A)) fx y = sparse_form A t y.
Proof.
  intros Hwf Ht Ho.
  destruct (sparse_fwd_rows A out t Hwf Ht Ho) as (fx & E & Lf & Hr & _).
  exists fx. split; [exact E|]. split; [exact Lf|].
  intros y. unfold inner, sparse_form. apply Csum_ext. intros r Hlt.
  rewrite Hr by auto. rewrite Csum_conj, <- Csum_mul_r.
  apply Csum_ext. intros k _.
  rewrite conj_mul, conj_RtoC. ring.
Qed.

(** ** The discrete Fourier transform *)

Lemma cnth_map_seq (f : nat -> complex) n k :
  (k < n)%nat -> cnth (map f (seq 0 n)) k = f k.
Proof.
  intros H. unfold cnth.
  rewrite (nth_indep _ C0 (f O)) by (rewrite length_map, length_seq; lia).
  rewrite map_nth, seq_nth by lia. reflexivity.
Qed.

Lemma cnth_app_l a b k : (k < length a)%nat -> cnth (a ++ b) k = cnth a k.
Proof. intros H. unfold cnth. now rewrite app_nth1. Qed.

Lemma cis_conj n m : conj (cis n m) = cis n (- m).
Proof.
  unfold cis, conj. simpl. rewrite opp_IZR.
  replace (2 * PI * - IZR m / IZR n)%R with (- (2 * PI * IZR m / IZR n))%R
    by (unfold Rdiv; ring).
  now rewrite cos_neg, sin_neg.
Qed.

Lemma twiddle_conj n0 n1 s k0 k1 j0 j1 :
  conj (twiddle n0 n1 s k0 k1 j0 j1) = twiddle n0 n1 (- s) j0 j1 k0 k1.
Proof.
  unfold twiddle. rewrite conj_mul, !cis_conj.
  f_equal; f_equal; ring.
Qed.

Lemma dft_kernel_adjoint pf pb k j :
  plan_n0 pb = plan_n0 pf -> plan_n1 pb = plan_n1 pf ->
  plan_sign pb = (- plan_sign pf)%Z ->
  dft_kernel pb j k = conj (dft_kernel pf k j).
Proof.
  intros H0 H1 Hs. unfold dft_kernel. cbv zeta.
  now rewrite twiddle_conj, H0, H1, Hs.
Qed.

Lemma dft_length p x :
  length (dft p x) = Z.to_nat (plan_n0 p * plan_n1 p).
Proof. unfold dft. now rewrite length_map, length_seq. Qed.

Lemma cnth_dft p x k :
  (k < Z.to_nat (plan_n0 p * plan_n1 p))%nat ->
  cnth (dft p x) k =
  Csum (fun j => (cnth x j * dft_kernel p k j)%C)
       (Z.to_nat (plan_n0 p * plan_n1 p)).
Proof. intros H. unfold dft. now rewrite cnth_map_seq. Qed.

(** The backward transform is the adjoint of the forward transform. *)
Lemma dft_adjoint pf pb a b :
  plan_n0 pb = plan_n0 pf -> plan_n1 pb = plan_n1 pf ->
  plan_sign pb = (- plan_sign pf)%Z ->
  let n := Z.to_nat (plan_n0 pf * plan_n1 pf) in
  inner n (dft pf a) b = inner n a (dft pb b).
Proof.
  intros H0 H1 Hs n. unfold inner.
  assert (Hn : Z.to_nat (plan_n0 pb * plan_n1 pb) = n)
    by (unfold n; now rewrite H0, H1).
  rewrite (Csum_ext _ (fun k => Csum (fun j =>
            (conj (cnth a j) * (cnth b k * dft_kernel pb j k))%C) n)).
  2:{ intros k Hk. rewrite cnth_dft by exact Hk. fold n.
      rewrite Csum_conj, <- Csum_mul_r. apply Csum_ext. intros j _.
      rewrite conj_mul, (dft_kernel_adjoint pf pb k j) by auto. ring. }
  rewrite Csum_swap. apply Csum_ext. intros j Hj.
  rewrite cnth_dft by (rewrite Hn; exact Hj). rewrite Hn.
  now rewrite Csum_mul_l.
Qed.

Lemma fftw_execute_dft_spec p x :
  (plan_n0 p * plan_n1 p <= Z.of_nat (length x))%Z ->
  exists x', fftw_execute_dft p x = Ok x' /\ length x' = length x /\
    forall k, (k < Z.to_nat (plan_n0 p * plan_n1 p))%nat ->
      cnth x' k = cnth (dft p x) k.
Proof.
  intros H. unfold fftw_execute_dft.
  destruct (Z.ltb_spec (Z.of_nat (length x)) (plan_n0 p * plan_n1 p)); [lia|].
  eexists. split; [reflexivity|]. split.
  - rewrite length_app, dft_length, length_skipn. lia.
  - intros k Hk. apply cnth_app_l. now rewrite dft_length.
Qed.

(** ** The grid shift *)

(** A cyclic shift of the summation index. *)
Lemma Csum_cyclic_split f m h :
  Csum (fun a => f ((a + h) mod (m + h))%nat) (m + h) = Csum f (h + m).
Proof.
  destruct (Nat.eq_dec (m + h) 0) as [E|Hn].
  { assert (m = 0 /\ h = 0)%nat as [-> ->] by lia. reflexivity. }
  rewrite !Csum_app.
  rewrite (Csum_ext (fun a => f ((a + h) mod (m + h))%nat)
                    (fun a => f (h + a)%nat) m).
  2:{ intros a Ha. rewrite Nat.mod_small by lia. f_equal. lia. }
  rewrite (Csum_ext (fun k => f ((m + k + h) mod (m + h))%nat) f h).
  2:{ intros k Hk. f_equal.
      replace (m + k + h)%nat with (k + 1 * (m + h))%nat by lia.
      rewrite Nat.Div0.mod_add. apply Nat.mod_small. lia. }
  ring.
Qed.

Lemma Csum_cyclic f n h :
  (h <= n)%nat -> Csum (fun a => f ((a + h) mod n)%nat) n = Csum f n.
Proof.
  intros Hh. pose proof (Csum_cyclic_split f (n - h) h) as H.
  replace (n - h + h)%nat with n in H by lia.
  replace (h + (n - h))%nat with n in H by lia. exact H.
Qed.

Lemma fftshift_index_rows nx ny b a :
  (a < nx)%nat ->
  fftshift_index nx ny (b * nx + a) =
  (((b + ny / 2) mod ny) * nx + (a + nx / 2) mod nx)%nat.
Proof.
  intros Ha. unfold fftshift_index.
  replace ((b * nx + a) / nx)%nat with b.
  2:{ rewrite Nat.add_comm, Nat.div_add by lia.
      rewrite Nat.div_small by lia. reflexivity. }
  replace ((b * nx + a) mod nx)%nat with a.
  2:{ rewrite Nat.add_comm, Nat.Div0.mod_add. now rewrite Nat.mod_small. }
  reflexivity.
Qed.

(** Summation over the shifted grid. *)
Lemma Csum_fftshift g nx ny :
  Csum (fun k => g (fftshift_index nx ny k)) (ny * nx) = Csum g (ny * nx).
Proof.
  rewrite !Csum_rows.
  rewrite (Csum_ext _ (fun b => Csum (fun a =>
             g (((b + ny / 2) mod ny) * nx + a)%nat) nx)).
  2:{ intros b Hb.
      rewrite (Csum_ext _ (fun a =>
                 g (((b + ny / 2) mod ny) * nx + (a + nx / 2) mod nx)%nat)).
      2:{ intros a Ha. now rewrite fftshift_index_rows. }
      apply (Csum_cyclic (fun a' => g (((b + ny / 2) mod ny) * nx + a')%nat)).
      apply Nat.Div0.div_le_upper_bound. lia. }
  apply (Csum_cyclic (fun b' => Csum (fun a => g (b' * nx + a)%nat) nx)).
  apply Nat.Div0.div_le_upper_bound. lia.
Qed.

Lemma half_twice_mod a n :
  Nat.even n = true -> (a < n)%nat ->
  (((a + n / 2) mod n + n / 2) mod n = a)%nat.
Proof.
  intros He Ha. rewrite Nat.Div0.add_mod_idemp_l.
  apply Nat.even_spec in He. destruct He as [h ->].
  replace (2 * h / 2)%nat with h
    by (rewrite Nat.mul_comm, Nat.div_mul; lia).
  replace (a + h + h)%nat with (a + 1 * (2 * h))%nat by lia.
  rewrite Nat.Div0.mod_add. now apply Nat.mod_small.
Qed.

Lemma fftshift_index_lt nx ny k :
  (k < ny * nx)%nat -> (fftshift_index nx ny k < ny * nx)%nat.
Proof.
  intros Hk. unfold fftshift_index.
  assert (nx <> 0)%nat by (intros ->; lia).
  assert (ny <> 0)%nat by (intros ->; lia).
  pose proof (Nat.mod_upper_bound (k / nx + ny / 2) ny ltac:(lia)).
  pose proof (Nat.mod_upper_bound (k mod nx + nx / 2) nx ltac:(lia)).
  nia.
Qed.

(** For even sizes the shift is its own inverse. *)
Lemma fftshift_index_involutive nx ny k :
  Nat.even nx = true -> Nat.even ny = true -> (k < ny * nx)%nat ->
  fftshift_index nx ny (fftshift_index nx ny k) = k.
Proof.
  intros Ex Ey Hk.
  assert (Hx : (nx <> 0)%nat) by (intros ->; lia).
  assert (Hy : (ny <> 0)%nat) by (intros ->; lia).
  assert (Hb : (k / nx < ny)%nat)
    by (apply Nat.Div0.div_lt_upper_bound; lia).
  assert (Ha : (k mod nx < nx)%nat) by (apply Nat.mod_upper_bound; lia).
  unfold fftshift_index at 2.
  rewrite fftshift_index_rows by (apply Nat.mod_upper_bound; lia).
  rewrite !half_twice_mod by auto.
  rewrite (Nat.div_mod_eq k nx) at 3. lia.
Qed.

Lemma fftshift_spec x nx ny :
  (0 <= nx)%Z -> (0 <= ny)%Z -> (nx * ny <= Z.of_nat (length x))%Z ->
  exists x', purify_utils_fftshift_2d_c x nx ny = Ok x' /\
    length x' = length x /\
    forall k, (k < Z.to_nat (nx * ny))%nat ->
      cnth x' k = cnth x (fftshift_index (Z.to_nat nx) (Z.to_nat ny) k).
Proof.
  intros Hx Hy H. unfold purify_utils_fftshift_2d_c.
  destruct (Z.ltb_spec (Z.of_nat (length x)) (nx * ny)); [lia|].
  eexists. split; [reflexivity|]. split.
  - rewrite length_app, length_map, length_seq, length_skipn. lia.
  - intros k Hk. rewrite cnth_app_l by (now rewrite length_map, length_seq).
    now rewrite cnth_map_seq.
Qed.

(** For even sizes the grid shift is self-adjoint. *)
Lemma inner_fftshift nx ny a a' b b' :
  Nat.even nx = true -> Nat.even ny = true ->
  (forall k, (k < ny * nx)%nat -> cnth a' k = cnth a (fftshift_index nx ny k)) ->
  (forall k, (k < ny * nx)%nat -> cnth b' k = cnth b (fftshift_index nx ny k)) ->
  inner (ny * nx) a' b = inner (ny * nx) a b'.
Proof.
  intros Ex Ey Ha Hb. unfold inner.
  rewrite <- (Csum_fftshift
                (fun k => (conj (cnth a k) * cnth b' k)%C) nx ny).
  apply Csum_ext. intros k Hk.
  rewrite Ha by exact Hk.
  rewrite Hb by (apply fftshift_index_lt; exact Hk).
  now rewrite fftshift_index_involutive.
Qed.

(** ** Padding and cropping *)

Lemma window_fits_facts param :
  window_fits param ->
  let nx2 := cparam_nx2 param in
  let npadx := Z.quot nx2 4 in
  let npady := Z.quot (cparam_ny2 param) 4 in
  (0 < nx1 param)%Z /\ (0 < ny1 param)%Z /\ (nx1 param <= nx2)%Z /\
  (0 <= npadx)%Z /\ (0 <= npady)%Z /\
  (0 < cparam_ny2 param)%Z /\
  (forall i j, cft_pad_index param i j = ((j + npady) * nx2 + i + npadx)%Z) /\
  ((ny1 param - 1 + npady) * nx2 + (nx1 param - 1) + npadx
   < nx2 * cparam_ny2 param)%Z.
Proof.
  intros (Hx & Hy & Hox & Hoy & Hfit). cbv zeta.
  unfold cft_pad_index in *. fold (cparam_nx2 param) in *.
  fold (cparam_ny2 param) in *.
  assert (nx1 param <= cparam_nx2 param)%Z by (unfold cparam_nx2; nia).
  assert (ny1 param <= cparam_ny2 param)%Z by (unfold cparam_ny2; nia).
  repeat split; auto; try lia; try (apply Z.quot_pos; lia).
Qed.

(** The first stage of the forward operator: every pixel lands at its
    padded index, and [<pad x, s> = pad_form x s]. *)
Lemma cft_zero_pad_spec param deconv xin temp :
  window_fits param ->
  (cparam_nx2 param * cparam_ny2 param <= Z.of_nat (length temp))%Z ->
  (nx1 param * ny1 param <= Z.of_nat (length xin))%Z ->
  (nx1 param * ny1 param <= Z.of_nat (length deconv))%Z ->
  exists t, cft_zero_pad param deconv xin temp = Ok t /\
    length t = length temp /\
    (forall i j, (0 <= i < nx1 param)%Z -> (0 <= j < ny1 param)%Z ->
       cnth t (Z.to_nat (cft_pad_index param i j)) =
       cft_pixel param deconv xin i j) /\
    (forall s, inner (Z.to_nat (cparam_nx2 param * cparam_ny2 param)) t s =
               pad_form param deconv xin s).
Proof.
  intros Hfit Ht Hxin Hd.
  destruct (window_fits_facts param Hfit)
    as (Hx & Hy & Hxx & Hpx & Hpy & Hy2 & HP & Hlast).
  cbv zeta in *.
  set (nx2 := cparam_nx2 param) in *. set (ny2 := cparam_ny2 param) in *.
  set (px := Z.quot nx2 4) in *. set (py := Z.quot ny2 4) in *.
  set (N := (nx2 * ny2)%Z) in *.
  unfold cft_zero_pad. fold (cparam_nx2 param) (cparam_ny2 param).
  fold nx2 ny2 N.
  assert (HN : (0 < N)%Z) by (unfold N; nia).
  destruct (for_range_fill C0 (fun _ : Z => (RtoC 0 + RtoC 0 * Ci)%C) 0 N temp)
    as (t0 & E0 & L0 & H0); [lia | lia |].
  rewrite E0. cbn [bind].
  assert (Hzero : (RtoC 0 + RtoC 0 * Ci)%C = C0) by (apply complex_eq; simpl; ring).
  assert (Hin : forall i j, (0 <= i < nx1 param)%Z -> (0 <= j < ny1 param)%Z ->
                 (0 <= cft_pad_index param i j < N)%Z).
  { intros i j Hi Hj. rewrite HP. unfold N. nia. }
  set (term := fun s (j i : nat) =>
    (conj (cft_pixel param deconv xin (Z.of_nat i) (Z.of_nat j))
     * cnth s (Z.to_nat (cft_pad_index param (Z.of_nat i) (Z.of_nat j))))%C).
  set (rowsum := fun s j => Csum (term s j) (Z.to_nat (nx1 param))).
  (* the invariant of both loops, at row [j] and column [i] *)
  set (Inv := fun (j i : Z) (t : list complex) =>
    length t = length temp /\
    (forall k, (cft_pad_index param i j <= k < N)%Z ->
       cnth t (Z.to_nat k) = C0) /\
    (forall i' j', (0 <= i' < nx1 param)%Z -> (0 <= j')%Z ->
       (j' < j \/ (j' = j /\ i' < i))%Z ->
       cnth t (Z.to_nat (cft_pad_index param i' j')) =
       cft_pixel param deconv xin i' j') /\
    (forall s, inner (Z.to_nat N) t s =
       (Csum (rowsum s) (Z.to_nat j) + Csum (term s (Z.to_nat j)) (Z.to_nat i))%C)).
  destruct (@for_range_inv _ (fun j t => Inv j 0%Z t) 0%Z (ny1 param)
    (fun j t =>
       for_range 0 (nx1 param) (fun i t1 =>
         x <- load xin (j * nx1 param + i)%Z ;;
         t2 <- store t1 (cft_pad_index param i j)
                 (x * RtoC (cft_scale param))%C ;;
         tv <- load t2 (cft_pad_index param i j) ;;
         dv <- load deconv (j * nx1 param + i)%Z ;;
         store t2 (cft_pad_index param i j) (tv * RtoC dv)%C) t) t0)
    as (t & E & Lt & _ & Hent & Hsum).
  - lia.
  - (* after clearing *)
    unfold Inv. split; [exact L0|]. split; [|split].
    + intros k Hk. unfold cnth. rewrite H0 by (rewrite HP in Hk; nia).
      assert (0 <= k)%Z by (rewrite HP in Hk; nia).
      destruct (Z.leb_spec 0 k); destruct (Z.ltb_spec k N);
        simpl; auto; lia.
    + intros i' j' Hi' Hj' [Hlt|[_ Hlt]]; lia.
    + intros s. simpl. rewrite inner_zero_l; [ring|].
      intros k Hk. unfold cnth.
      replace k with (Z.to_nat (Z.of_nat k)) by lia.
      rewrite H0 by lia.
      destruct (Z.leb_spec 0 (Z.of_nat k));
        destruct (Z.ltb_spec (Z.of_nat k) N); simpl; auto; lia.
  - (* one row *)
    intros j t1 Hj HI.
    destruct (@for_range_inv _ (fun i t => Inv j i t) 0%Z (nx1 param)
      (fun i t1 =>
         x <- load xin (j * nx1 param + i)%Z ;;
         t2 <- store t1 (cft_pad_index param i j)
                 (x * RtoC (cft_scale param))%C ;;
         tv <- load t2 (cft_pad_index param i j) ;;
         dv <- load deconv (j * nx1 param + i)%Z ;;
         store t2 (cft_pad_index param i j) (tv * RtoC dv)%C) t1)
      as (t2 & E2 & L2 & Hz2 & Hent2 & Hsum2).
    + lia.
    + exact HI.
    + (* one pixel *)
      intros i t3 Hi (L3 & Hz3 & Hent3 & Hsum3).
      pose proof (Hin i j Hi Hj) as HPin.
      set (P := cft_pad_index param i j) in *.
      rewrite load_cnth by nia. cbn [bind].
      rewrite store_Ok by lia. cbn [bind].
      rewrite load_cnth by (rewrite upd_length; lia). cbn [bind].
      rewrite cnth_upd_eq by lia.
      rewrite load_rnth by nia. cbn [bind].
      rewrite store_Ok by (rewrite upd_length; lia).
      rewrite upd_upd.
      fold (cft_pixel param deconv xin i j).
      eexists. split; [reflexivity|].
      assert (Hnext : cft_pad_index param (i + 1) j = (P + 1)%Z)
        by (unfold P; rewrite !HP; lia).
      assert (Hbefore : forall i' j', (0 <= i' < nx1 param)%Z -> (0 <= j')%Z ->
                (j' < j \/ (j' = j /\ i' < i))%Z ->
                (0 <= cft_pad_index param i' j' < P)%Z).
      { intros i' j' Hi' Hj' Hlt. unfold P. rewrite !HP.
        destruct Hlt as [Hlt|[-> Hlt]]; nia. }
      unfold Inv. rewrite upd_length. split; [exact L3|]. split; [|split].
      * intros k Hk. rewrite Hnext in Hk. rewrite cnth_upd_ne by lia.
        apply Hz3. lia.
      * intros i' j' Hi' Hj' Hlt.
        destruct (Z.eq_dec j' j) as [->|Hnej].
        -- destruct (Z.eq_dec i' i) as [->|Hnei].
           ++ fold P. apply cnth_upd_eq. lia.
           ++ pose proof (Hbefore i' j Hi' Hj' ltac:(lia)).
              rewrite cnth_upd_ne by lia.
              apply Hent3; auto. lia.
        -- pose proof (Hbefore i' j' Hi' Hj' ltac:(lia)).
           rewrite cnth_upd_ne by lia.
           apply Hent3; auto. lia.
      * intros s. rewrite inner_upd_l; try lia.
        -- rewrite Hsum3.
           replace (Z.to_nat (i + 1)) with (S (Z.to_nat i)) by lia.
           simpl. unfold term at 3.
           replace (Z.of_nat (Z.to_nat i)) with i by lia.
           replace (Z.of_nat (Z.to_nat j)) with j by lia.
           fold P. symmetry. apply Cadd_assoc.
        -- apply Hz3. lia.
    + exists t2. split; [exact E2|].
      unfold Inv. split; [exact L2|]. split; [|split].
      * intros k Hk. apply Hz2. rewrite !HP in *. nia.
      * intros i' j' Hi' Hj' Hlt. apply Hent2; auto. lia.
      * intros s. rewrite Hsum2.
        replace (Z.to_nat (j + 1)) with (S (Z.to_nat j)) by lia.
        simpl. rewrite Cadd_0_r. reflexivity.
  - exists t. split; [exact E|]. split; [exact Lt|]. split.
    + intros i j Hi Hj. apply Hent; lia.
    + intros s. rewrite Hsum. simpl. rewrite Cadd_0_r. reflexivity.
Qed.

(** The last stage of the adjoint operator: every pixel is read at its
    padded index, scaled and deconvolved. *)
Lemma cft_crop_spec param deconv temp xout :
  window_fits param ->
  (cparam_nx2 param * cparam_ny2 param <= Z.of_nat (length temp))%Z ->
  (nx1 param * ny1 param <= Z.of_nat (length xout))%Z ->
  (nx1 param * ny1 param <= Z.of_nat (length deconv))%Z ->
  exists ax, cft_crop param deconv temp xout = Ok ax /\
    length ax = length xout /\
    (forall i j, (0 <= i < nx1 param)%Z -> (0 <= j < ny1 param)%Z ->
       cnth ax (Z.to_nat (j * nx1 param + i)) =
       (cnth temp (Z.to_nat (cft_pad_index param i j))
        * RtoC (cft_scale param)
        * RtoC (rnth deconv (j * nx1 param + i)))%C) /\
    (forall p, (nx1 param * ny1 param <= p)%Z ->
       cnth ax (Z.to_nat p) = cnth xout (Z.to_nat p)).
Proof.
  intros Hfit Ht Hxo Hd.
  destruct (window_fits_facts param Hfit)
    as (Hx & Hy & Hxx & Hpx & Hpy & Hy2 & HP & Hlast).
  cbv zeta in *.
  assert (Hin : forall i j, (0 <= i < nx1 param)%Z -> (0 <= j < ny1 param)%Z ->
                 (0 <= cft_pad_index param i j
                  < cparam_nx2 param * cparam_ny2 param)%Z).
  { intros i j Hi Hj. rewrite HP. nia. }
  set (val := fun i j =>
    (cnth temp (Z.to_nat (cft_pad_index param i j))
     * RtoC (cft_scale param) * RtoC (rnth deconv (j * nx1 param + i)))%C).
  set (Inv := fun (j i : Z) (ax : list complex) =>
    length ax = length xout /\
    (forall i' j', (0 <= i' < nx1 param)%Z -> (0 <= j')%Z ->
       (j' < j \/ (j' = j /\ i' < i))%Z ->
       cnth ax (Z.to_nat (j' * nx1 param + i')) = val i' j') /\
    (forall p, (j * nx1 param + i <= p)%Z ->
       cnth ax (Z.to_nat p) = cnth xout (Z.to_nat p))).
  unfold cft_crop.
  destruct (@for_range_inv _ (fun j ax => Inv j 0%Z ax) 0%Z (ny1 param)
    (fun j xo =>
       for_range 0 (nx1 param) (fun i xo1 =>
         tv <- load temp (cft_pad_index param i j) ;;
         xo2 <- store xo1 (j * nx1 param + i)%Z
                  (tv * RtoC (cft_scale param))%C ;;
         xv <- load xo2 (j * nx1 param + i)%Z ;;
         dv <- load deconv (j * nx1 param + i)%Z ;;
         store xo2 (j * nx1 param + i)%Z (xv * RtoC dv)%C) xo) xout)
    as (ax & E & La & Hent & Hrest).
  - lia.
  - unfold Inv. split; [reflexivity|]. split; [|auto].
    intros i' j' Hi' Hj' [Hlt|[_ Hlt]]; lia.
  - intros j ax1 Hj HI.
    destruct (@for_range_inv _ (fun i ax => Inv j i ax) 0%Z (nx1 param)
      (fun i xo1 =>
         tv <- load temp (cft_pad_index param i j) ;;
         xo2 <- store xo1 (j * nx1 param + i)%Z
                  (tv * RtoC (cft_scale param))%C ;;
         xv <- load xo2 (j * nx1 param + i)%Z ;;
         dv <- load deconv (j * nx1 param + i)%Z ;;
         store xo2 (j * nx1 param + i)%Z (xv * RtoC dv)%C) ax1)
      as (ax2 & E2 & L2 & Hent2 & Hrest2).
    + lia.
    + exact HI.
    + intros i ax3 Hi (L3 & Hent3 & Hrest3).
      pose proof (Hin i j Hi Hj) as HPin.
      assert (Hq : (0 <= j * nx1 param + i < nx1 param * ny1 param)%Z) by nia.
      set (q := (j * nx1 param + i)%Z) in *.
      rewrite load_cnth by lia. cbn [bind].
      rewrite store_Ok by lia. cbn [bind].
      rewrite load_cnth by (rewrite upd_length; lia). cbn [bind].
      rewrite cnth_upd_eq by lia.
      rewrite load_rnth by lia. cbn [bind].
      rewrite store_Ok by (rewrite upd_length; lia).
      rewrite upd_upd.
      eexists. split; [reflexivity|].
      assert (Hbefore : forall i' j', (0 <= i' < nx1 param)%Z -> (0 <= j')%Z ->
                (j' < j \/ (j' = j /\ i' < i))%Z ->
                (0 <= j' * nx1 param + i' < q)%Z).
      { intros i' j' Hi' Hj' Hlt. unfold q.
        destruct Hlt as [Hlt|[-> Hlt]]; nia. }
      unfold Inv. rewrite upd_length. split; [exact L3|]. split.
      * intros i' j' Hi' Hj' Hlt.
        destruct (Z.eq_dec j' j) as [->|Hnej].
        -- destruct (Z.eq_dec i' i) as [->|Hnei].
           ++ fold q. rewrite cnth_upd_eq by lia. reflexivity.
           ++ pose proof (Hbefore i' j Hi' Hj' ltac:(lia)).
              rewrite cnth_upd_ne by lia. apply Hent3; auto. lia.
        -- pose proof (Hbefore i' j' Hi' Hj' ltac:(lia)).
           rewrite cnth_upd_ne by lia. apply Hent3; auto. lia.
      * intros p Hp. replace (j * nx1 param + (i + 1))%Z with (q + 1)%Z in Hp
          by (unfold q; lia).
        rewrite cnth_upd_ne by lia. apply Hrest3. lia.
    + exists ax2. split; [exact E2|].
      unfold Inv. split; [exact L2|]. split.
      * intros i' j' Hi' Hj' Hlt. apply Hent2; auto. lia.
      * intros p Hp. apply Hrest2. lia.
  - exists ax. split; [exact E|]. split; [exact La|]. split.
    + intros i j Hi Hj. apply Hent; lia.
    + intros p Hp. apply Hrest. lia.
Qed.

(** [<x, crop s> = pad_form x s]. *)
Lemma inner_crop param deconv x s ax :
  (0 <= nx1 param)%Z -> (0 <= ny1 param)%Z ->
  (forall i j, (0 <= i < nx1 param)%Z -> (0 <= j < ny1 param)%Z ->
     cnth ax (Z.to_nat (j * nx1 param + i)) =
     (cnth s (Z.to_nat (cft_pad_index param i j))
      * RtoC (cft_scale param)
      * RtoC (rnth deconv (j * nx1 param + i)))%C) ->
  inner (Z.to_nat (nx1 param * ny1 param)) x ax = pad_form param deconv x s.
Proof.
  intros Hx Hy Hax. unfold inner, pad_form.
  replace (Z.to_nat (nx1 param * ny1 param))
    with (Z.to_nat (ny1 param) * Z.to_nat (nx1 param))%nat by lia.
  rewrite Csum_rows. apply Csum_ext. intros j Hj.
  apply Csum_ext. intros i Hi.
  replace (j * Z.to_nat (nx1 param) + i)%nat
    with (Z.to_nat (Z.of_nat j * nx1 param + Z.of_nat i)) by lia.
  rewrite Hax by lia. unfold cft_pixel.
  rewrite !conj_mul, !conj_RtoC. ring.
Qed.

(** ** The continuous operators are formal adjoints *)

Lemma even_to_nat z :
  (0 <= z)%Z -> Z.even z = true -> Nat.even (Z.to_nat z) = true.
Proof.
  intros Hz He. apply Z.even_spec in He. destruct He as [k ->].
  apply Nat.even_spec. exists (Z.to_nat k). lia.
Qed.


(** Under the preconditions of the gridding set-up (coordinates within
    [(-umax, umax]] and [(-vmax, vmax]], even padded dimensions of at least
    4) the matrix built by [purify_measurement_init_cft] has valid indices
    and the deconvolution kernel is all ones. *)
Lemma init_cft_built param deconv u v :
  (0 <= nmeas param)%Z ->
  Z.of_nat (length u) = nmeas param -> Z.of_nat (length v) = nmeas param ->
  (nx1 param * ny1 param <= Z.of_nat (length deconv))%Z ->
  is_int (cparam_nx2 param) -> is_int (cparam_ny2 param) ->
  Z.even (cparam_nx2 param) = true -> Z.even (cparam_ny2 param) = true ->
  (4 <= cparam_nx2 param)%Z -> (4 <= cparam_ny2 param)%Z ->
  (forall i, (0 <= i < nmeas param)%Z ->
     (- umax param < rnth u i <= umax param)%R /\
     (- vmax param < rnth v i <= vmax param)%R) ->
  exists mat deconv',
    purify_measurement_init_cft deconv u v param = Ok (mat, deconv') /\
    sparsemat_wf mat /\ nrows mat = nmeas param /\
    ncols mat = (cparam_nx2 param * cparam_ny2 param)%Z /\
    length deconv' = length deconv /\
    (forall p, (0 <= p < nx1 param * ny1 param)%Z -> rnth deconv' p = 1%R).
Proof.
  intros Hn Hu Hv Hd Ix Iy Ex Ey Hx Hy Hc.
  assert (Hwin : forall i, (0 <= i < nmeas param)%Z ->
     window_is_int (rnth u i) (cparam_uinc param) /\
     window_is_int (rnth v i) (cparam_vinc param)).
  { intros i Hi. destruct (Hc i Hi) as [Hcu Hcv]. split.
    - apply (nearest_in_grid _ _ _ Hx Ix Ex Hcu).
    - apply (nearest_in_grid _ _ _ Hy Iy Ey Hcv). }
  destruct (init_cft_spec param deconv u v Hn Hu Hv Hd Hwin)
    as (mat & deconv' & E & Hnr & Hnc & Hnv & Lv & Lc & Lr & Hrp & Hcol
        & Ld & Hones).
  exists mat, deconv'. split; [exact E|].
  assert (Hne : numel = 25%Z) by reflexivity.
  assert (Hrange : forall rr, (0 <= rr < Z.of_nat (length (colind mat)))%Z ->
                     (0 <= znth (colind mat) rr < ncols mat)%Z).
  { intros rr H. rewrite Lc, Hnv in H.
    assert (Hi : (0 <= rr / numel < nmeas param)%Z).
    { split; [apply Z.div_pos; lia | apply Z.div_lt_upper_bound; lia]. }
    pose proof (Z.mod_pos_bound rr numel ltac:(lia)) as Ht.
    pose proof (Hcol _ _ Hi Ht) as Ecol.
    replace (rr / numel * numel + rr mod numel)%Z with rr in Ecol
      by (rewrite (Z.div_mod rr numel) at 1; lia).
    destruct (Hc _ Hi) as [Hcu Hcv].
    destruct (nearest_in_grid _ _ _ Hx Ix Ex Hcu) as [_ Hgu].
    destruct (nearest_in_grid _ _ _ Hy Iy Ey Hcv) as [_ Hgv].
    pose proof (proj1 (Hgu _ Ht)). pose proof (proj2 (Hgv _ Ht)).
    rewrite Ecol, Hnc. unfold tap_colind. fold (cparam_uinc param) in *.
    fold (cparam_vinc param) in *. nia. }
  split; [|repeat split; auto].
  unfold sparsemat_wf. split; [lia|]. split; [rewrite Hnc; nia|].
  split; [lia|]. split; [|exact Hrange].
  intros r Hr. rewrite !Hrp by lia. rewrite Lc, Lv, Hnv. lia.
Qed.



(** ** Properties preserved by loops *)

Lemma for_loop_preserve {S : Type} (P : S -> Prop) n lo
      (body : Z -> S -> result S) s s' :
  (forall i t t', P t -> body i t = Ok t' -> P t') ->
  P s -> for_loop n lo body s = Ok s' -> P s'.
Proof.
  intros Hbody. revert lo s. induction n as [|n IH]; intros lo s Hs E.
  - simpl in E. now inversion E; subst.
  - simpl in E. apply bind_Ok in E. destruct E as (t & E1 & E2).
    eapply IH; [|exact E2]. eapply Hbody; eauto.
Qed.

Lemma for_range_preserve {S : Type} (P : S -> Prop) lo hi
      (body : Z -> S -> result S) s s' :
  (forall i t t', P t -> body i t = Ok t' -> P t') ->
  P s -> for_range lo hi body s = Ok s' -> P s'.
Proof. unfold for_range. apply for_loop_preserve. Qed.

Lemma store_length {A : Type} (buf : list A) i v buf' :
  store buf i v = Ok buf' -> length buf' = length buf.
Proof.
  intros H. apply store_inv in H. destruct H as [_ ->]. apply upd_length.
Qed.

(** Inversion of a sequence of bindings in a hypothesis. *)
Ltac inv_bind H :=
  repeat match type of H with
         | bind _ _ = Ok _ =>
             let a := fresh "a" in
             let E := fresh "E" in
             apply bind_Ok in H; destruct H as (a & E & H)
         end.

Lemma sparse_fwd_length A out t fx :
  purify_sparsemat_fwd_complexr out t A = Ok fx -> length fx = length out.
Proof.
  unfold purify_sparsemat_fwd_complexr.
  apply (for_range_preserve (fun s => length s = length out)); auto.
  intros r s s' Hs H. inv_bind H.
  apply store_length in E.
  revert H. apply (for_range_preserve (fun s => length s = length out));
    [|congruence].
  intros rr s1 s2 Hs1 H. inv_bind H. apply store_length in H. congruence.
Qed.

Lemma cft_crop_length param deconv temp xout ax :
  cft_crop param deconv temp xout = Ok ax -> length ax = length xout.
Proof.
  unfold cft_crop.
  apply (for_range_preserve (fun s => length s = length xout)); auto.
  intros j s s' Hs.
  apply (for_range_preserve (fun s => length s = length xout)); auto.
  intros i s1 s2 Hs1 H. inv_bind H.
  apply store_length in E0, H. congruence.
Qed.

Lemma cftfwd_length out xin data fx :
  purify_measurement_cftfwd out xin data = Ok fx -> length fx = length out.
Proof.
  unfold purify_measurement_cftfwd. intros H. inv_bind H.
  now apply sparse_fwd_length in H.
Qed.

Lemma cftadj_length out yin data ax :
  purify_measurement_cftadj out yin data = Ok ax -> length ax = length out.
Proof.
  unfold purify_measurement_cftadj. intros H. inv_bind H.
  now apply cft_crop_length in H.
Qed.

(** ** The symmetric operators *)

(** The loop of [purify_measurement_symcftfwd]: the conjugates of the
    first [ny] entries are written to the second block. *)
Lemma conj_block_loop ny out1 :
  (0 <= ny)%Z -> Z.of_nat (length out1) = (2 * ny)%Z ->
  exists out2,
    for_range 0 ny
      (fun i yout => yi <- load yout i ;; store yout (i + ny)%Z (conj yi))
      out1 = Ok out2 /\
    length out2 = length out1 /\
    forall i, (0 <= i < ny)%Z ->
      cnth out2 (Z.to_nat i) = cnth out1 (Z.to_nat i) /\
      cnth out2 (Z.to_nat (ny + i)) = conj (cnth out1 (Z.to_nat i)).
Proof.
  intros Hn L1.
  destruct (@for_range_inv _ (fun i o =>
    length o = length out1 /\
    (forall k, (0 <= k < ny)%Z -> cnth o (Z.to_nat k) = cnth out1 (Z.to_nat k)) /\
    (forall k, (0 <= k < i)%Z ->
       cnth o (Z.to_nat (ny + k)) = conj (cnth out1 (Z.to_nat k))))
    0%Z ny
    (fun i yout => yi <- load yout i ;; store yout (i + ny)%Z (conj yi)) out1)
    as (out2 & E2 & L2 & Hfirst & Hsecond).
  - lia.
  - split; [reflexivity|]. split; [auto | intros; lia].
  - intros i o Hi (Lo' & Hf & Hs).
    rewrite load_cnth by lia. cbn [bind].
    rewrite store_Ok by lia.
    eexists. split; [reflexivity|]. rewrite upd_length.
    split; [exact Lo'|]. split.
    + intros k Hk. rewrite cnth_upd_ne by lia. now apply Hf.
    + intros k Hk. destruct (Z.eq_dec k i) as [->|Hne].
      * replace (ny + i)%Z with (i + ny)%Z by lia.
        rewrite cnth_upd_eq by lia. now rewrite Hf.
      * rewrite cnth_upd_ne by lia. apply Hs. lia.
  - exists out2. split; [exact E2|]. split; [exact L2|].
    intros i Hi. split; [now apply Hfirst | now apply Hsecond].
Qed.

(** The loop of [purify_measurement_symcftadj]:
    [xout[i] = 2*creal(xout[i]) + 0.0*I]. *)
Lemma twice_real_loop n out1 :
  (0 <= n)%Z -> (n <= Z.of_nat (length out1))%Z ->
  exists out2,
    for_range 0 n
      (fun i xout =>
         xi <- load xout i ;;
         store xout i (RtoC (2 * creal xi) + RtoC 0 * Ci)%C) out1 = Ok out2 /\
    length out2 = length out1 /\
    forall i, (0 <= i < n)%Z ->
      cnth out2 (Z.to_nat i) = mkC (2 * creal (cnth out1 (Z.to_nat i))) 0.
Proof.
  intros Hn L1.
  destruct (@for_range_inv _ (fun i o =>
    length o = length out1 /\
    (forall k, (0 <= k < i)%Z ->
       cnth o (Z.to_nat k) = mkC (2 * creal (cnth out1 (Z.to_nat k))) 0) /\
    (forall k, (i <= k)%Z -> cnth o (Z.to_nat k) = cnth out1 (Z.to_nat k)))
    0%Z n
    (fun i xout =>
       xi <- load xout i ;;
       store xout i (RtoC (2 * creal xi) + RtoC 0 * Ci)%C) out1)
    as (out2 & E2 & L2 & Hdone & _).
  - lia.
  - split; [reflexivity|]. split; [intros; lia | auto].
  - intros i o Hi (Lo' & Hd & Hr).
    rewrite load_cnth by lia. cbn [bind].
    rewrite store_Ok by lia.
    eexists. split; [reflexivity|]. rewrite upd_length.
    split; [exact Lo'|]. split.
    + intros k Hk. destruct (Z.eq_dec k i) as [->|Hne].
      * rewrite cnth_upd_eq by lia. rewrite Hr by lia.
        apply complex_eq; simpl; ring.
      * rewrite cnth_upd_ne by lia. apply Hd. lia.
    + intros k Hk. rewrite cnth_upd_ne by lia. apply Hr. lia.
  - exists out2. split; [exact E2|]. split; [exact L2|]. exact Hdone.
Qed.

(** C6.  For every input image and every output buffer of [2*nmeas] cells
    on which the unsymmetrized operator [purify_measurement_cftfwd]
    succeeds with result [out1], [purify_measurement_symcftfwd] succeeds
    with an output of total length [2*nmeas] whose first block (entries
    [0 .. nmeas-1]) is the unsymmetrized result and whose second block is
    [out[nmeas + i] = conj(out[i])]; it is one call of
    [purify_measurement_cftfwd] followed by the loop that appends the
    conjugates. *)
Theorem symcftfwd_blocks out xin data out1 :
  (0 <= nmeas (data_param data))%Z ->
  Z.of_nat (length out) = (2 * nmeas (data_param data))%Z ->
  purify_measurement_cftfwd out xin data = Ok out1 ->
  exists out2,
    purify_measurement_symcftfwd out xin data = Ok out2 /\
    Z.of_nat (length out2) = (2 * nmeas (data_param data))%Z /\
    forall i, (0 <= i < nmeas (data_param data))%Z ->
      cnth out2 (Z.to_nat i) = cnth out1 (Z.to_nat i) /\
      cnth out2 (Z.to_nat (nmeas (data_param data) + i))
      = conj (cnth out2 (Z.to_nat i)).
Proof.
  intros Hn Lo E. pose proof (cftfwd_length _ _ _ _ E) as L1.
  unfold purify_measurement_symcftfwd. rewrite E. cbn [bind].
  destruct (conj_block_loop (nmeas (data_param data)) out1 Hn ltac:(lia))
    as (out2 & E2 & L2 & H2).
  exists out2. split; [exact E2|]. split; [lia|].
  intros i Hi. destruct (H2 i Hi) as [Hf Hs]. split; [exact Hf|].
  now rewrite Hs, Hf.
Qed.

(** C5.  For every visibility vector and every output buffer of
    [nx1*ny1] cells on which the unsymmetrized adjoint
    [purify_measurement_cftadj] succeeds with result [out1],
    [purify_measurement_symcftadj] succeeds with an image of length
    [nx1*ny1] whose [i]-th entry is [2 * Re(out1[i]) + 0i]: twice the real
    part of the unsymmetrized adjoint, with imaginary part zero. *)
Theorem symcftadj_twice_real out yin data out1 :
  (0 <= nx1 (data_param data) * ny1 (data_param data))%Z ->
  Z.of_nat (length out)
  = (nx1 (data_param data) * ny1 (data_param data))%Z ->
  purify_measurement_cftadj out yin data = Ok out1 ->
  exists out2,
    purify_measurement_symcftadj out yin data = Ok out2 /\
    Z.of_nat (length out2)
    = (nx1 (data_param data) * ny1 (data_param data))%Z /\
    forall i, (0 <= i < nx1 (data_param data) * ny1 (data_param data))%Z ->
      cnth out2 (Z.to_nat i) = mkC (2 * creal (cnth out1 (Z.to_nat i))) 0 /\
      cimag (cnth out2 (Z.to_nat i)) = 0%R.
Proof.
  intros Hn Lo E. pose proof (cftadj_length _ _ _ _ E) as L1.
  unfold purify_measurement_symcftadj. rewrite E. cbn [bind].
  destruct (twice_real_loop
              (nx1 (data_param data) * ny1 (data_param data)) out1 Hn
              ltac:(lia)) as (out2 & E2 & L2 & H2).
  exists out2. split; [exact E2|]. split; [lia|].
  intros i Hi. rewrite H2 by exact Hi. split; reflexivity.
Qed.

(** ** Success of the operators on a usable data bundle *)

Lemma cftfwd_ok out xin data :
  cft_data_ok data ->
  (nx1 (data_param data) * ny1 (data_param data)
   <= Z.of_nat (length xin))%Z ->
  (nrows (data_mat data) <= Z.of_nat (length out))%Z ->
  exists fx, purify_measurement_cftfwd out xin data = Ok fx.
Proof.
  intros (Hfit & Hwf & Hnc & Hpl & Ld & Lt) Lx Lo. cbv zeta in *.
  destruct (window_fits_facts _ Hfit)
    as (Hx & Hy & Hxx & Hpx & Hpy & Hy2 & _). cbv zeta in *.
  unfold purify_measurement_cftfwd.
  fold (cparam_nx2 (data_param data)) (cparam_ny2 (data_param data)).
  destruct (cft_zero_pad_spec _ (data_deconv data) xin (data_temp data) Hfit)
    as (t1 & E1 & L1 & _); auto.
  rewrite E1. cbn [bind].
  destruct (fftshift_spec t1 (cparam_nx2 (data_param data))
                          (cparam_ny2 (data_param data)))
    as (t2 & E2 & L2 & _); try lia.
  rewrite E2. cbn [bind].
  destruct (fftw_execute_dft_spec (data_plan data) t2) as (t3 & E3 & L3 & _);
    [lia|].
  rewrite E3. cbn [bind].
  destruct (sparse_fwd_spec (data_mat data) out t3 Hwf) as (fx & E4 & _);
    try lia.
  eauto.
Qed.

Lemma cftadj_ok out yin data :
  cft_data_ok data ->
  (nrows (data_mat data) <= Z.of_nat (length yin))%Z ->
  (nx1 (data_param data) * ny1 (data_param data)
   <= Z.of_nat (length out))%Z ->
  exists ax, purify_measurement_cftadj out yin data = Ok ax.
Proof.
  intros (Hfit & Hwf & Hnc & Hpl & Ld & Lt) Ly Lo. cbv zeta in *.
  destruct (window_fits_facts _ Hfit)
    as (Hx & Hy & Hxx & Hpx & Hpy & Hy2 & _). cbv zeta in *.
  unfold purify_measurement_cftadj.
  fold (cparam_nx2 (data_param data)) (cparam_ny2 (data_param data)).
  destruct (sparse_adj_spec (data_mat data) (data_temp data) yin Hwf)
    as (s1 & F1 & M1 & _); try lia.
  rewrite F1. cbn [bind].
  destruct (fftw_execute_dft_spec (data_plan data) s1) as (s2 & F2 & M2 & _);
    [lia|].
  rewrite F2. cbn [bind].
  destruct (fftshift_spec s2 (cparam_nx2 (data_param data))
                          (cparam_ny2 (data_param data)))
    as (s3 & F3 & M3 & _); try lia.
  rewrite F3. cbn [bind].
  destruct (cft_crop_spec _ (data_deconv data) s3 out Hfit)
    as (ax & F4 & _); auto; try lia.
  eauto.
Qed.

(** The small data bundle of the examples is usable. *)
Lemma small_data_ok sign : cft_data_ok (small_data sign).
Proof.
  unfold cft_data_ok, small_data, small_param. cbv zeta.
  cbn [data_param data_deconv data_mat data_plan data_temp].
  split; [|split; [|split; [|split; [|split]]]].
  - unfold window_fits, cft_pad_index, cparam_nx2, cparam_ny2. simpl.
    repeat split; lia.
  - unfold sparsemat_wf. simpl. repeat split; try lia.
    + assert (r = 0%Z) as -> by lia. unfold znth; simpl; lia.
    + assert (r = 0%Z) as -> by lia. unfold znth; simpl; lia.
    + assert (r = 0%Z) as -> by lia. unfold znth; simpl; lia.
    + assert (rr = 0%Z) as -> by lia. unfold znth; simpl; lia.
    + assert (rr = 0%Z) as -> by lia. unfold znth; simpl; lia.
  - reflexivity.
  - reflexivity.
  - simpl. lia.
  - unfold cparam_nx2, cparam_ny2. simpl. lia.
Qed.

Lemma symcftfwd_blocks_witness :
  exists out1 out2,
    purify_measurement_cftfwd [C0; C0] [C1; C0] (small_data (-1)) = Ok out1 /\
    purify_measurement_symcftfwd [C0; C0] [C1; C0] (small_data (-1))
      = Ok out2 /\
    Z.of_nat (length out2) = (2 * nmeas (data_param (small_data (-1))))%Z /\
    forall i, (0 <= i < nmeas (data_param (small_data (-1))))%Z ->
      cnth out2 (Z.to_nat i) = cnth out1 (Z.to_nat i) /\
      cnth out2 (Z.to_nat (nmeas (data_param (small_data (-1))) + i))
      = conj (cnth out2 (Z.to_nat i)).
Proof.
  destruct (cftfwd_ok [C0; C0] [C1; C0] _ (small_data_ok (-1)))
    as (out1 & E); try (simpl; lia).
  exists out1.
  destruct (symcftfwd_blocks [C0; C0] [C1; C0] (small_data (-1)) out1
              ltac:(simpl; lia) ltac:(reflexivity) E) as (out2 & H).
  exists out2. split; [exact E | exact H].
Defined.

Lemma symcftadj_twice_real_witness :
  exists out1 out2,
    purify_measurement_cftadj [C0; C0] [Ci] (small_data 1) = Ok out1 /\
    purify_measurement_symcftadj [C0; C0] [Ci] (small_data 1) = Ok out2 /\
    Z.of_nat (length out2)
    = (nx1 (data_param (small_data 1)) * ny1 (data_param (small_data 1)))%Z /\
    forall i, (0 <= i < nx1 (data_param (small_data 1))
                        * ny1 (data_param (small_data 1)))%Z ->
      cnth out2 (Z.to_nat i) = mkC (2 * creal (cnth out1 (Z.to_nat i))) 0 /\
      cimag (cnth out2 (Z.to_nat i)) = 0%R.
Proof.
  destruct (cftadj_ok [C0; C0] [Ci] _ (small_data_ok 1))
    as (out1 & E); try (simpl; lia).
  exists out1.
  destruct (symcftadj_twice_real [C0; C0] [Ci] (small_data 1) out1
              ltac:(simpl; lia) ltac:(reflexivity) E) as (out2 & H).
  exists out2. split; [exact E | exact H].
Defined.

(** ** The symmetric composite *)

Lemma for_loop_ext {S : Type} n lo (body body' : Z -> S -> result S) s :
  (forall i t, (lo <= i < lo + Z.of_nat n)%Z -> body i t = body' i t) ->
  for_loop n lo body s = for_loop n lo body' s.
Proof.
  revert lo s. induction n as [|n IH]; intros lo s H; [reflexivity|].
  simpl. rewrite H by lia. destruct (body' lo s) as [t|e]; simpl; auto.
  apply IH. intros i t' Hi. apply H. lia.
Qed.

Lemma for_range_ext {S : Type} lo hi (body body' : Z -> S -> result S) s :
  (forall i t, (lo <= i < hi)%Z -> body i t = body' i t) ->
  for_range lo hi body s = for_range lo hi body' s.
Proof.
  intros H. unfold for_range. apply for_loop_ext.
  intros i t Hi. apply H. lia.
Qed.

(** The adjoint sparse product reads its input only at the rows of the
    matrix. *)
Lemma sparse_adj_ext A temp y y' :
  (forall r, (0 <= r < nrows A)%Z -> load y r = load y' r) ->
  purify_sparsemat_adj_complexr temp y A
  = purify_sparsemat_adj_complexr temp y' A.
Proof.
  intros H. unfold purify_sparsemat_adj_complexr.
  destruct (for_range 0 (ncols A) (fun c y0 => store y0 c C0) temp)
    as [t0|e]; [|reflexivity].
  cbn [bind]. apply for_range_ext. intros r t Hr.
  destruct (load (rowptr A) r) as [lo|e]; [|reflexivity]. cbn [bind].
  destruct (load (rowptr A) (r + 1)) as [hi|e]; [|reflexivity]. cbn [bind].
  apply for_range_ext. intros rr t' Hrr.
  now rewrite (H r Hr).
Qed.

Lemma cftadj_ext out y y' data :
  (forall r, (0 <= r < nrows (data_mat data))%Z -> load y r = load y' r) ->
  purify_measurement_cftadj out y data = purify_measurement_cftadj out y' data.
Proof.
  intros H. unfold purify_measurement_cftadj.
  now rewrite (sparse_adj_ext _ _ y y' H).
Qed.

Lemma load_eq_cnth y y' r :
  length y = length y' -> (0 <= r)%Z ->
  cnth y (Z.to_nat r) = cnth y' (Z.to_nat r) -> load y r = load y' r.
Proof.
  intros L Hr H.
  destruct (Z.lt_ge_cases r (Z.of_nat (length y))) as [Hlt|Hge].
  - rewrite !load_cnth by lia. now rewrite H.
  - unfold load. destruct (Z.ltb_spec r 0); [reflexivity|].
    destruct (nth_error y (Z.to_nat r)) eqn:E1.
    { assert (Z.to_nat r < length y)%nat
        by (apply nth_error_Some; congruence). lia. }
    destruct (nth_error y' (Z.to_nat r)) eqn:E2; [|reflexivity].
    assert (Z.to_nat r < length y')%nat by (apply nth_error_Some; congruence).
    lia.
Qed.



(** *** A composite that is not proportional to [A^H A x] *)

Lemma cis_0 n : cis n 0 = C1.
Proof.
  unfold cis, C1.
  replace (2 * PI * 0 / IZR n)%R with 0%R by (unfold Rdiv; ring).
  now rewrite cos_0, sin_0.
Qed.

Lemma cis_4_1 : cis 4 1 = Ci.
Proof.
  unfold cis, Ci. replace (2 * PI * 1 / 4)%R with (PI / 2)%R by lra.
  now rewrite cos_PI2, sin_PI2.
Qed.

Lemma cis_4_2 : cis 4 2 = mkC (-1) 0.
Proof.
  unfold cis. replace (2 * PI * 2 / 4)%R with PI by lra.
  now rewrite cos_PI, sin_PI.
Qed.

Lemma cis_4_3 : cis 4 3 = mkC 0 (-1).
Proof.
  unfold cis. replace (2 * PI * 3 / 4)%R with (3 * (PI / 2))%R by lra.
  now rewrite cos_3PI2, sin_3PI2.
Qed.

Lemma cis_4_m1 : cis 4 (-1) = mkC 0 (-1).
Proof.
  change (-1)%Z with (- (1))%Z. rewrite <- cis_conj, cis_4_1.
  apply complex_eq; simpl; ring.
Qed.

Lemma cis_4_m2 : cis 4 (-2) = mkC (-1) 0.
Proof.
  change (-2)%Z with (- (2))%Z. rewrite <- cis_conj, cis_4_2.
  apply complex_eq; simpl; ring.
Qed.

Lemma cis_4_m3 : cis 4 (-3) = Ci.
Proof.
  change (-3)%Z with (- (3))%Z. rewrite <- cis_conj, cis_4_3.
  apply complex_eq; simpl; ring.
Qed.

Lemma small_scale_pos : (0 < cft_scale small_param)%R.
Proof.
  unfold cft_scale, small_param. simpl.
  apply Rdiv_lt_0_compat; [lra|]. apply sqrt_lt_R0. lra.
Qed.

(** The forward operator on the image [(1, 0)]: the visibility [i * s]. *)
Lemma small_cftfwd out1 :
  purify_measurement_cftfwd [C0; out1] [C1; C0] (small_data (-1))
  = Ok [mkC 0 (cft_scale small_param); out1].
Proof.
  cbv -[Cmul Cadd conj RtoC cis cft_scale C0 C1 Ci Rmult Rplus Ropp IZR].
  change {| nmeas := 1; nx1 := 2; ny1 := 1; ofx := 2; ofy := 2;
            umax := 1; vmax := 1 |} with small_param.
  do 2 f_equal.
  rewrite !cis_0, cis_4_m1, cis_4_m2, cis_4_m3.
  apply complex_eq; simpl; ring.
Qed.

(** The adjoint operator on the visibility [i * s]: the image
    [(s^2, i * s^2)]. *)
Lemma small_cftadj s b :
  purify_measurement_cftadj [C0; C0] [mkC 0 s; b] (small_data 1)
  = Ok [mkC (cft_scale small_param * s) 0;
        mkC 0 (cft_scale small_param * s)].
Proof.
  cbv -[Cmul Cadd conj RtoC cis cft_scale C0 C1 Ci Rmult Rplus Ropp IZR].
  change {| nmeas := 1; nx1 := 2; ny1 := 1; ofx := 2; ofy := 2;
            umax := 1; vmax := 1 |} with small_param.
  rewrite ?cis_0, ?cis_4_1, ?cis_4_2, ?cis_4_3.
  f_equal. f_equal; [|f_equal]; apply complex_eq; simpl; ring.
Qed.


(** ** The transform of a real signal *)

Lemma cis_period n m q : (n <> 0)%Z -> cis n (m + n * q) = cis n m.
Proof.
  intros Hn. unfold cis.
  assert (HnR : IZR n <> 0%R) by (now apply not_0_IZR).
  assert (Hnat : forall x (k : nat),
             cos (x + 2 * PI * INR k) = cos x /\
             sin (x + 2 * PI * INR k) = sin x).
  { intros x k. replace (x + 2 * PI * INR k)%R with (x + 2 * INR k * PI)%R
      by ring. split; [apply cos_period | apply sin_period]. }
  assert (HZ : forall x (k : Z),
             cos (x + 2 * PI * IZR k) = cos x /\
             sin (x + 2 * PI * IZR k) = sin x).
  { intros x k. destruct (Z.le_gt_cases 0 k) as [Hk|Hk].
    - rewrite <- (Z2Nat.id k Hk), <- INR_IZR_INZ. apply Hnat.
    - destruct (Hnat (x + 2 * PI * IZR k)%R (Z.to_nat (- k))) as [Hc Hs].
      rewrite INR_IZR_INZ, Z2Nat.id, opp_IZR in Hc, Hs by lia.
      replace (x + 2 * PI * IZR k + 2 * PI * - IZR k)%R with x in Hc, Hs
        by ring.
      split; congruence. }
  replace (2 * PI * IZR (m + n * q) / IZR n)%R
    with (2 * PI * IZR m / IZR n + 2 * PI * IZR q)%R
    by (rewrite plus_IZR, mult_IZR; field; exact HnR).
  destruct (HZ (2 * PI * IZR m / IZR n)%R q) as [-> ->]. reflexivity.
Qed.

Lemma cis_congr n m m' :
  (n <> 0)%Z -> ((m' - m) mod n = 0)%Z -> cis n m' = cis n m.
Proof.
  intros Hn Hm. apply Z.mod_divide in Hm; [|exact Hn].
  destruct Hm as [q Hq].
  replace m' with (m + n * q)%Z by lia. now apply cis_period.
Qed.

Lemma mirror_range n i : (0 < n)%Z -> (0 <= mirror n i < n)%Z.
Proof. intros Hn. unfold mirror. apply Z.mod_pos_bound. lia. Qed.

Lemma mirror_zero n : (0 < n)%Z -> mirror n 0 = 0%Z.
Proof.
  intros Hn. unfold mirror. rewrite Z.sub_0_r. apply Z.mod_same. lia.
Qed.

Lemma mirror_pos n i : (0 < i < n)%Z -> mirror n i = (n - i)%Z.
Proof. intros Hi. unfold mirror. apply Z.mod_small. lia. Qed.

Lemma mirror_involutive n i : (0 <= i < n)%Z -> mirror n (mirror n i) = i.
Proof.
  intros Hi. destruct (Z.eq_dec i 0) as [->|Hne].
  - rewrite mirror_zero by lia. apply mirror_zero. lia.
  - rewrite (mirror_pos n i) by lia. rewrite mirror_pos by lia. lia.
Qed.

Lemma mirror_congr n i : (0 < n)%Z -> ((mirror n i - - i) mod n = 0)%Z.
Proof.
  intros Hn. unfold mirror.
  rewrite Zminus_mod_idemp_l.
  replace (n - i - - i)%Z with (1 * n)%Z by lia. apply Z.mod_mul. lia.
Qed.

(** The transform of a real signal is Hermitian. *)
Lemma half_plane_hermitian p x iu iv iu' iv' :
  (plan_n0 p <> 0)%Z -> (plan_n1 p <> 0)%Z ->
  ((iu' - - iu) mod plan_n0 p = 0)%Z -> ((iv' - - iv) mod plan_n1 p = 0)%Z ->
  half_plane p x iu' iv' = conj (half_plane p x iu iv).
Proof.
  intros H0 H1 Hu Hv. unfold half_plane. rewrite Csum_conj.
  apply Csum_ext. intros j _.
  rewrite conj_mul, conj_RtoC. f_equal.
  unfold twiddle. rewrite conj_mul, !cis_conj. f_equal.
  - apply cis_congr; [exact H0|].
    replace (-1 * iu' * (Z.of_nat j / plan_n1 p)
             - - (-1 * iu * (Z.of_nat j / plan_n1 p)))%Z
      with (- (Z.of_nat j / plan_n1 p) * (iu' - - iu))%Z by ring.
    rewrite Z.mul_mod, Hu, Z.mul_0_r by exact H0. apply Z.mod_0_l. exact H0.
  - apply cis_congr; [exact H1|].
    replace (-1 * iv' * (Z.of_nat j mod plan_n1 p)
             - - (-1 * iv * (Z.of_nat j mod plan_n1 p)))%Z
      with (- (Z.of_nat j mod plan_n1 p) * (iv' - - iv))%Z by ring.
    rewrite Z.mul_mod, Hv, Z.mul_0_r by exact H1. apply Z.mod_0_l. exact H1.
Qed.

Lemma fftw_execute_dft_r2c_spec p x buf :
  (0 < plan_n0 p)%Z -> (0 < plan_n1 p)%Z ->
  (plan_n0 p * plan_n1 p <= Z.of_nat (length x))%Z ->
  (plan_n0 p * (plan_n1 p / 2 + 1) <= Z.of_nat (length buf))%Z ->
  exists yh, fftw_execute_dft_r2c p x buf = Ok yh /\
    length yh = length buf /\
    forall iu iv, (0 <= iu < plan_n0 p)%Z -> (0 <= iv <= plan_n1 p / 2)%Z ->
      cnth yh (Z.to_nat (iu * (plan_n1 p / 2 + 1) + iv)) = half_plane p x iu iv.
Proof.
  intros H0 H1 Lx Lb. unfold fftw_execute_dft_r2c.
  rewrite Z.quot_div_nonneg by lia.
  set (h := (plan_n1 p / 2 + 1)%Z) in *.
  assert (Hh : (0 < h)%Z) by (unfold h; pose proof (Z.div_pos (plan_n1 p) 2); lia).
  destruct (Z.ltb_spec (Z.of_nat (length x)) (plan_n0 p * plan_n1 p)); [lia|].
  destruct (Z.ltb_spec (Z.of_nat (length buf)) (plan_n0 p * h)); [lia|].
  simpl. eexists. split; [reflexivity|].
  assert (Ld : length (dft_r2c p x) = Z.to_nat (plan_n0 p * h)).
  { unfold dft_r2c. rewrite length_map, length_seq.
    rewrite Z.quot_div_nonneg by lia. reflexivity. }
  split.
  - rewrite length_app, Ld, length_skipn. lia.
  - intros iu iv Hu Hv.
    assert (Hk : (0 <= iu * h + iv < plan_n0 p * h)%Z) by (unfold h in *; nia).
    rewrite cnth_app_l by (rewrite Ld; lia).
    unfold dft_r2c. rewrite Z.quot_div_nonneg by lia. fold h.
    rewrite cnth_map_seq by lia. rewrite Z2Nat.id by lia.
    replace ((iu * h + iv) / h)%Z with iu
      by (apply (Z.div_unique _ h iu iv); unfold h in *; lia).
    replace ((iu * h + iv) mod h)%Z with iv
      by (apply (Z.mod_unique _ h iu iv); unfold h in *; lia).
    reflexivity.
Qed.

(** What the conjugate-symmetry completion stores for a frequency and for
    its Hermitian mirror. *)
Lemma full_plane_copy p x nx ny iu iv :
  (0 <= iv <= ny / 2)%Z ->
  full_plane p x nx ny iu iv = half_plane p x iu iv.
Proof.
  intros Hv. unfold full_plane.
  destruct (Z.leb_spec iv (ny / 2)); [reflexivity | lia].
Qed.

Lemma full_plane_mirror_any p x iu iv :
  let nx := plan_n0 p in
  let ny := plan_n1 p in
  (0 < nx)%Z -> (0 < ny)%Z ->
  (0 <= iu < nx)%Z -> (0 <= iv <= ny / 2)%Z -> (iv < ny)%Z ->
  full_plane p x nx ny (mirror nx iu) (mirror ny iv)
  = conj (half_plane p x iu iv).
Proof.
  intros nx ny Hx Hy Hu Hv Hlt.
  pose proof (Z.mul_div_le ny 2 ltac:(lia)) as Hhalf.
  unfold full_plane.
  destruct (Z.eq_dec iv 0) as [->|Hv0].
  - rewrite mirror_zero by lia.
    destruct (Z.leb_spec 0 (ny / 2)); [|lia].
    apply half_plane_hermitian; try (fold nx ny; lia).
    + apply mirror_congr. exact Hx.
    + apply Z.mod_0_l. fold ny. lia.
  - rewrite (mirror_pos ny iv) by lia.
    destruct (Z.leb_spec (ny - iv) (ny / 2)).
    + assert (iv = ny / 2)%Z by lia. subst iv.
      assert (Hyy : ny = (2 * (ny / 2))%Z) by lia.
      replace (ny - ny / 2)%Z with (ny / 2)%Z by lia.
      apply half_plane_hermitian; try (fold nx ny; lia).
      * apply mirror_congr. exact Hx.
      * fold ny. replace (ny / 2 - - (ny / 2))%Z with (1 * ny)%Z by lia.
        apply Z.mod_mul. lia.
    + rewrite mirror_involutive by lia.
      replace (ny - (ny - iv))%Z with iv by lia. reflexivity.
Qed.

Lemma full_plane_mirror p x iu iv :
  let nx := plan_n0 p in
  let ny := plan_n1 p in
  (0 < nx)%Z -> (0 < ny)%Z -> Z.even ny = true ->
  (0 <= iu < nx)%Z -> (0 <= iv <= ny / 2)%Z ->
  full_plane p x nx ny (mirror nx iu) (mirror ny iv)
  = conj (half_plane p x iu iv).
Proof.
  intros nx ny Hx Hy Ey Hu Hv.
  apply full_plane_mirror_any; auto.
  pose proof (Z.div_lt ny 2 Hy ltac:(lia)). lia.
Qed.

(** The reconstructed full plane is Hermitian. *)
Lemma full_plane_symmetric_any p x iu iv :
  let nx := plan_n0 p in
  let ny := plan_n1 p in
  (0 < nx)%Z -> (0 < ny)%Z ->
  (0 <= iu < nx)%Z -> (0 <= iv < ny)%Z ->
  full_plane p x nx ny iu iv
  = conj (full_plane p x nx ny (mirror nx iu) (mirror ny iv)).
Proof.
  intros nx ny Hx Hy Hu Hv.
  pose proof (Z.div_mod ny 2 ltac:(lia)) as Hhalf.
  pose proof (Z.mod_pos_bound ny 2 ltac:(lia)) as Hrem.
  subst nx ny.
  destruct (Z.le_gt_cases iv (plan_n1 p / 2)) as [Hle|Hgt].
  - rewrite (full_plane_mirror_any p x iu iv) by (auto; lia).
    rewrite conj_conj. apply full_plane_copy. lia.
  - rewrite (mirror_pos (plan_n1 p) iv) by lia.
    rewrite (full_plane_copy p x _ _ (mirror (plan_n0 p) iu)
                             (plan_n1 p - iv)) by lia.
    unfold full_plane. destruct (Z.leb_spec iv (plan_n1 p / 2)); [lia|].
    reflexivity.
Qed.

Lemma full_plane_symmetric p x iu iv :
  let nx := plan_n0 p in
  let ny := plan_n1 p in
  (0 < nx)%Z -> (0 < ny)%Z -> Z.even ny = true ->
  (0 <= iu < nx)%Z -> (0 <= iv < ny)%Z ->
  full_plane p x nx ny iu iv
  = conj (full_plane p x nx ny (mirror nx iu) (mirror ny iv)).
Proof. intros nx ny Hx Hy _ Hu Hv. now apply full_plane_symmetric_any. Qed.

(** One execution of the loop body: the half-plane value is copied to the
    frequency, and its conjugate to the Hermitian mirror when that is a
    different cell. *)
Lemma fft_real_body_spec y_half img iu iv y (hv : complex) :
  let n1 := nx img in
  let n2 := ny img in
  let ind := purify_visibility_iuiv2ind iu iv n1 n2 in
  let ind_neg :=
    purify_visibility_iuiv2ind (mirror n1 iu) (mirror n2 iv) n1 n2 in
  (0 < n1)%Z -> (0 < n2)%Z ->
  (0 <= iu < n1)%Z -> (0 <= iv <= n2 / 2)%Z -> (iv < n2)%Z ->
  Z.of_nat (length y) = (n1 * n2)%Z ->
  load y_half (iu * (n2 / 2 + 1) + iv) = Ok hv ->
  fft_real_body y_half img iu iv y =
  Ok (if (ind =? ind_neg)%Z then upd (Z.to_nat ind) hv y
      else upd (Z.to_nat ind_neg) (conj hv) (upd (Z.to_nat ind) hv y)).
Proof.
  intros n1 n2 ind ind_neg H1 H2 Hu Hv Hv' Ly Hload.
  unfold fft_real_body. fold n1 n2.
  rewrite Z.quot_div_nonneg by lia. rewrite Hload. cbn [bind].
  fold ind.
  assert (Hind : (0 <= ind < n1 * n2)%Z)
    by (unfold ind, purify_visibility_iuiv2ind; nia).
  rewrite store_Ok by lia. cbn [bind].
  assert (Hneg : forall a b, (0 <= a < n1)%Z -> (0 <= b < n2)%Z ->
            (0 <= purify_visibility_iuiv2ind a b n1 n2 < n1 * n2)%Z)
    by (intros a b Ha Hb; unfold purify_visibility_iuiv2ind; nia).
  assert (Hrefl : forall i',
            (0 <= i' < n1 * n2)%Z ->
            fft_real_reflect (upd (Z.to_nat ind) hv y) y_half ind
                             (iu * (n2 / 2 + 1) + iv) i'
            = Ok (if (ind =? i')%Z then upd (Z.to_nat ind) hv y
                  else upd (Z.to_nat i') (conj hv) (upd (Z.to_nat ind) hv y))).
  { intros i' Hi'. unfold fft_real_reflect.
    destruct (Z.eqb_spec ind i'); [reflexivity|].
    rewrite Hload. cbn [bind]. apply store_Ok. rewrite upd_length. lia. }
  destruct (Z.eqb_spec iu 0) as [->|Hu0]; destruct (Z.eqb_spec iv 0) as [->|Hv0];
    cbn [andb].
  - unfold ind_neg. rewrite !mirror_zero by lia. fold ind.
    now rewrite Z.eqb_refl.
  - unfold ind_neg. rewrite mirror_zero, mirror_pos by lia.
    apply Hrefl. apply Hneg; lia.
  - unfold ind_neg. rewrite mirror_zero, mirror_pos by lia.
    apply Hrefl. apply Hneg; lia.
  - unfold ind_neg. rewrite !mirror_pos by lia.
    apply Hrefl. apply Hneg; lia.
Qed.

Lemma iuiv2ind_inj n1 n2 a b a' b' :
  (0 <= b < n2)%Z -> (0 <= b' < n2)%Z ->
  purify_visibility_iuiv2ind a b n1 n2 = purify_visibility_iuiv2ind a' b' n1 n2 ->
  a = a' /\ b = b'.
Proof.
  unfold purify_visibility_iuiv2ind. intros Hb Hb' H.
  assert (Ha : a = a').
  { destruct (Z.lt_trichotomy a a') as [Hlt|[Heq|Hgt]];
      [exfalso | exact Heq | exfalso]; nia. }
  subst a'. split; [reflexivity | lia].
Qed.

(** [purify_measurement_fft_real] fills the output with the reconstructed
    full plane. *)
Lemma fft_real_full_plane_any out input plan img :
  (0 < nx img)%Z -> (0 < ny img)%Z ->
  plan_n0 plan = nx img -> plan_n1 plan = ny img ->
  (nx img * ny img <= Z.of_nat (length input))%Z ->
  Z.of_nat (length out) = (nx img * ny img)%Z ->
  exists y, purify_measurement_fft_real out input plan img = Ok y /\
    length y = length out /\
    forall iu iv, (0 <= iu < nx img)%Z -> (0 <= iv < ny img)%Z ->
      plane_nth y (nx img) (ny img) iu iv
      = full_plane plan input (nx img) (ny img) iu iv.
Proof.
  intros H1 H2 Hp0 Hp1 Lin Lout.
  set (n1 := nx img) in *. set (n2 := ny img) in *.
  assert (Hyy : (2 * (n2 / 2) <= n2 <= 2 * (n2 / 2) + 1
                 /\ 0 <= n2 / 2 < n2)%Z).
  { pose proof (Z.div_mod n2 2 ltac:(lia)).
    pose proof (Z.mod_pos_bound n2 2 ltac:(lia)).
    pose proof (Z.div_lt n2 2 H2 ltac:(lia)).
    pose proof (Z.div_pos n2 2 ltac:(lia) ltac:(lia)). lia. }
  remember (n2 / 2)%Z as hh eqn:Hhh.
  unfold purify_measurement_fft_real. fold n1 n2.
  destruct (fftw_execute_dft_r2c_spec plan input (malloc C0 (n1 * n2)))
    as (yh & Eh & Lh & Hh); try lia.
  { rewrite malloc_length, Hp0, Hp1. fold n1 n2. rewrite <- Hhh.
    rewrite Z2Nat.id by (apply Z.mul_nonneg_nonneg; lia).
    nia. }
  rewrite Eh. cbn [bind]. rewrite Hp0, Hp1 in Hh. fold n2 in Hh.
  rewrite <- Hhh in Hh.
  rewrite malloc_length in Lh.
  set (F := full_plane plan input n1 n2).
  set (ind := fun a b => purify_visibility_iuiv2ind a b n1 n2).
  set (Inv := fun (iu iv : Z) (y : list complex) =>
    length y = length out /\
    forall a b, (0 <= a < n1)%Z -> (0 <= b < n2)%Z ->
      fft_real_done n2 iu iv a b \/
      fft_real_done n2 iu iv (mirror n1 a) (mirror n2 b) ->
      cnth y (Z.to_nat (ind a b)) = F a b).
  rewrite Z.quot_div_nonneg by lia. rewrite <- Hhh.
  destruct (@for_range_inv _ (fun iu y => Inv iu 0%Z y) 0%Z n1
    (fun iu y => for_range 0 (hh + 1)
                   (fun iv y0 => fft_real_body yh img iu iv y0) y) out)
    as (y & E & Ly & Hy).
  - lia.
  - split; [reflexivity|].
    intros a b Ha Hb Hd. pose proof (mirror_range n1 a H1).
    pose proof (mirror_range n2 b H2).
    destruct Hd as [Hd|Hd]; destruct Hd as (_ & [Hlt|[_ Hlt]]); lia.
  - (* one row of the half plane *)
    intros iu y0 Hiu HI.
    destruct (@for_range_inv _ (fun iv y => Inv iu iv y) 0%Z (hh + 1)
      (fun iv y1 => fft_real_body yh img iu iv y1) y0)
      as (y1 & E1 & Ly1 & Hy1).
    + lia.
    + exact HI.
    + (* one frequency *)
      intros iv y2 Hiv (L2 & H2').
      assert (Hload : load yh (iu * (n2 / 2 + 1) + iv)
                      = Ok (half_plane plan input iu iv)).
      { rewrite <- Hhh.
        assert (Lh' : Z.of_nat (length yh) = (n1 * n2)%Z)
          by (rewrite Lh, Z2Nat.id;
              [reflexivity | apply Z.mul_nonneg_nonneg; lia]).
        assert (Hidx : (0 <= iu * (hh + 1) + iv < n1 * n2)%Z).
        { nia. }
        rewrite load_cnth by lia. rewrite Hh by lia. reflexivity. }
      rewrite (fft_real_body_spec yh img iu iv y2 _ H1 H2 Hiu
                 ltac:(fold n2; rewrite <- Hhh; lia) ltac:(fold n2; lia)
                 ltac:(fold n1 n2; lia) Hload).
      fold n1 n2. fold (ind iu iv) (ind (mirror n1 iu) (mirror n2 iv)).
      eexists. split; [reflexivity|].
      pose proof (mirror_range n1 iu H1) as Hmu.
      pose proof (mirror_range n2 iv H2) as Hmv.
      assert (Hi1 : (0 <= ind iu iv < n1 * n2)%Z)
        by (unfold ind, purify_visibility_iuiv2ind; nia).
      assert (Hi2 : (0 <= ind (mirror n1 iu) (mirror n2 iv) < n1 * n2)%Z)
        by (unfold ind, purify_visibility_iuiv2ind; nia).
      assert (HF1 : F iu iv = half_plane plan input iu iv)
        by (apply full_plane_copy; rewrite <- Hhh; lia).
      assert (HF2 : F (mirror n1 iu) (mirror n2 iv)
                    = conj (half_plane plan input iu iv)).
      { unfold F. rewrite <- Hp0, <- Hp1.
        apply full_plane_mirror_any; rewrite ?Hp0, ?Hp1;
          rewrite <- ?Hhh; auto; lia. }
      split.
      { destruct (Z.eqb_spec (ind iu iv) (ind (mirror n1 iu) (mirror n2 iv)));
          rewrite ?upd_length; exact L2. }
      intros a b Ha Hb Hdone.
      pose proof (mirror_range n1 a H1) as Hma.
      pose proof (mirror_range n2 b H2) as Hmb.
      (* the cell is the frequency itself, its mirror, or untouched *)
      destruct (Z.eq_dec (ind a b) (ind iu iv)) as [Heq|Hne].
      { apply iuiv2ind_inj in Heq; try lia. destruct Heq as [-> ->].
        rewrite HF1.
        destruct (Z.eqb_spec (ind iu iv) (ind (mirror n1 iu) (mirror n2 iv))).
        - apply cnth_upd_eq. lia.
        - rewrite cnth_upd_ne by lia. apply cnth_upd_eq. lia. }
      destruct (Z.eq_dec (ind a b) (ind (mirror n1 iu) (mirror n2 iv)))
        as [Heq|Hne2].
      { destruct (Z.eqb_spec (ind iu iv) (ind (mirror n1 iu) (mirror n2 iv)));
          [congruence|].
        rewrite Heq. rewrite cnth_upd_eq by (rewrite upd_length; lia).
        apply iuiv2ind_inj in Heq; try lia. destruct Heq as [-> ->].
        now rewrite HF2. }
      assert (Hold : cnth y2 (Z.to_nat (ind a b)) = F a b).
      { apply H2'; auto.
        destruct Hdone as [Hd|Hd]; destruct Hd as (Hb' & [Hlt|[E1' Hlt]]).
        - left. split; [exact Hb' | left; exact Hlt].
        - destruct (Z.eq_dec b iv) as [->|Hbv].
          + subst a. congruence.
          + left. split; [exact Hb' | right; lia].
        - right. split; [exact Hb' | left; exact Hlt].
        - destruct (Z.eq_dec (mirror n2 b) iv) as [E2'|Hbv].
          + exfalso. apply Hne2.
            rewrite <- E1', <- E2', !mirror_involutive by lia. reflexivity.
          + right. split; [exact Hb' | right; lia]. }
      assert (Hab : (0 <= ind a b)%Z)
        by (unfold ind, purify_visibility_iuiv2ind; nia).
      destruct (Z.eqb_spec (ind iu iv) (ind (mirror n1 iu) (mirror n2 iv))).
      * rewrite cnth_upd_ne by lia. exact Hold.
      * rewrite !cnth_upd_ne by lia. exact Hold.
    + exists y1. split; [exact E1|]. split; [exact Ly1|].
      intros a b Ha Hb Hdone. apply Hy1; auto.
      unfold fft_real_done in *. rewrite <- Hhh in *.
      destruct Hdone as [(Hb' & Hd)|(Hb' & Hd)]; [left | right];
        (split; [exact Hb' | lia]).
  - exists y. split; [exact E|]. split; [exact Ly|].
    intros iu iv Hiu Hiv. unfold plane_nth. fold (ind iu iv).
    apply Hy; auto.
    pose proof (mirror_range n1 iu H1) as Hmu.
    destruct (Z.le_gt_cases iv hh) as [Hle|Hgt].
    + left. split; [rewrite <- Hhh; lia | left; lia].
    + right. rewrite (mirror_pos n2 iv) by lia.
      split; [rewrite <- Hhh; lia | left; lia].
Qed.

Lemma fft_real_full_plane out input plan img :
  (0 < nx img)%Z -> (0 < ny img)%Z -> Z.even (ny img) = true ->
  plan_n0 plan = nx img -> plan_n1 plan = ny img ->
  (nx img * ny img <= Z.of_nat (length input))%Z ->
  Z.of_nat (length out) = (nx img * ny img)%Z ->
  exists y, purify_measurement_fft_real out input plan img = Ok y /\
    length y = length out /\
    forall iu iv, (0 <= iu < nx img)%Z -> (0 <= iv < ny img)%Z ->
      plane_nth y (nx img) (ny img) iu iv
      = full_plane plan input (nx img) (ny img) iu iv.
Proof.
  intros H1 H2 _ Hp0 Hp1 Lin Lout. now apply fft_real_full_plane_any.
Qed.

(** C3.  For every real input image of size [nx]-by-[ny] with even [ny]
    and a real-to-complex plan of that size,
    [purify_measurement_fft_real] succeeds and its output has the
    full-plane conjugate symmetry
    [spectrum[ind(iu,iv)] = conj(spectrum[ind((nx-iu) mod nx, (ny-iv) mod ny)])]
    for all [(iu, iv)]: the half-plane values of the real-to-complex
    transform are copied (the DC element without conjugation), and the
    entries with [iv > ny/2] are the conjugates of the half-plane values at
    their Hermitian mirror. *)
Theorem fft_real_conjugate_symmetry out input plan img :
  (0 < nx img)%Z -> (0 < ny img)%Z -> Z.even (ny img) = true ->
  plan_n0 plan = nx img -> plan_n1 plan = ny img ->
  (nx img * ny img <= Z.of_nat (length input))%Z ->
  Z.of_nat (length out) = (nx img * ny img)%Z ->
  exists y, purify_measurement_fft_real out input plan img = Ok y /\
    length y = length out /\
    (forall iu iv, (0 <= iu < nx img)%Z -> (0 <= iv < ny img)%Z ->
       plane_nth y (nx img) (ny img) iu iv
       = conj (plane_nth y (nx img) (ny img)
                         (mirror (nx img) iu) (mirror (ny img) iv))) /\
    (forall iu iv, (0 <= iu < nx img)%Z -> (0 <= iv <= ny img / 2)%Z ->
       plane_nth y (nx img) (ny img) iu iv = half_plane plan input iu iv) /\
    (forall iu iv, (0 <= iu < nx img)%Z -> (ny img / 2 < iv < ny img)%Z ->
       plane_nth y (nx img) (ny img) iu iv
       = conj (half_plane plan input (mirror (nx img) iu)
                          (mirror (ny img) iv))) /\
    plane_nth y (nx img) (ny img) 0 0 = half_plane plan input 0 0.
Proof.
  intros H1 H2 Ey Hp0 Hp1 Lin Lout.
  destruct (fft_real_full_plane out input plan img H1 H2 Ey Hp0 Hp1 Lin Lout)
    as (y & E & Ly & Hy).
  assert (Hhalf : (0 <= ny img / 2 < ny img)%Z).
  { split; [apply Z.div_pos; lia | apply Z.div_lt_upper_bound; lia]. }
  exists y. split; [exact E|]. split; [exact Ly|].
  split; [|split; [|split]].
  - intros iu iv Hu Hv.
    pose proof (mirror_range (nx img) iu H1).
    pose proof (mirror_range (ny img) iv H2).
    rewrite !Hy by lia. rewrite <- Hp0, <- Hp1.
    apply full_plane_symmetric; rewrite ?Hp0, ?Hp1; auto.
  - intros iu iv Hu Hv. rewrite Hy by lia. now apply full_plane_copy.
  - intros iu iv Hu Hv. rewrite Hy by lia. unfold full_plane.
    destruct (Z.leb_spec iv (ny img / 2)); [lia|].
    now rewrite (mirror_pos (ny img) iv) by lia.
  - rewrite Hy by lia. apply full_plane_copy. lia.
Qed.

Lemma fft_real_conjugate_symmetry_witness :
  let img := {| fov_x := 1; fov_y := 1; nx := 2; ny := 2;
                pix := [1; 2; 3; 4]%R |} in
  let plan := {| plan_n0 := 2; plan_n1 := 2; plan_sign := -1 |} in
  exists y,
    purify_measurement_fft_real [C0; C0; C0; C0] (pix img) plan img = Ok y /\
    length y = 4%nat /\
    (forall iu iv, (0 <= iu < nx img)%Z -> (0 <= iv < ny img)%Z ->
       plane_nth y (nx img) (ny img) iu iv
       = conj (plane_nth y (nx img) (ny img)
                         (mirror (nx img) iu) (mirror (ny img) iv))) /\
    (forall iu iv, (0 <= iu < nx img)%Z -> (0 <= iv <= ny img / 2)%Z ->
       plane_nth y (nx img) (ny img) iu iv
       = half_plane plan (pix img) iu iv) /\
    (forall iu iv, (0 <= iu < nx img)%Z -> (ny img / 2 < iv < ny img)%Z ->
       plane_nth y (nx img) (ny img) iu iv
       = conj (half_plane plan (pix img) (mirror (nx img) iu)
                          (mirror (ny img) iv))) /\
    plane_nth y (nx img) (ny img) 0 0 = half_plane plan (pix img) 0 0.
Proof.
  cbv zeta.
  apply (fft_real_conjugate_symmetry
           [C0; C0; C0; C0] [1; 2; 3; 4]%R
           {| plan_n0 := 2; plan_n1 := 2; plan_sign := -1 |}
           {| fov_x := 1; fov_y := 1; nx := 2; ny := 2;
              pix := [1; 2; 3; 4]%R |});
    try reflexivity; simpl; lia.
Defined.

(** ** Linearisation of the padded grid *)

Lemma nearest_zero inc : nearest 0 inc = 0%Z.
Proof.
  unfold nearest.
  replace (0 / inc + 0.5)%R with 0.5%R by (unfold Rdiv; ring).
  apply Zfloor_eq. simpl. lra.
Qed.




(** ** The power method *)

Section PowerMethod.
Variables (first : operator) (first_data : cft_data).
Variables (second : operator) (second_data : cft_data).
Variable n : Z.
Variable it0 : pow_iterate.

Let cond := fun s : pow_state => (pow_iter s <? 200)%Z.
Let body := pow_body first first_data second second_data n.

(** The main loop from a state reached after [200 - j] passes without
    [break]: with more than [j] units of fuel it ends, as the
    specification of the iteration says. *)
Lemma pow_loop_spec j : forall fuel s,
  (j < fuel)%nat -> (j <= 200)%nat ->
  pow_iter s = Z.of_nat (200 - j) -> passes s = (200 - j)%nat ->
  power_iterate first first_data second second_data n (200 - j) it0
    = Ok (pow_v s, pow_w s, pow_norm s) ->
  (forall k, (k < 200 - j)%nat ->
     power_continues first first_data second second_data n k it0) ->
  ((0 < 200 - j)%nat ->
   exists norm, power_bound first first_data second second_data n
                            (200 - j - 1) it0 = Ok (pow_bound s, norm)) ->
  exists r, while_loop fuel cond body s = Some r /\
    match r with
    | Ok s' => power_stops first first_data second second_data n it0 s'
    | Err e => power_fails first first_data second second_data n it0 e
    end.
Proof.
  induction j as [|j IH]; intros fuel s Hfuel Hj Hiter Hpass Hit Hcont Hbound.
  - (* the budget is exhausted *)
    destruct fuel as [|fuel]; [lia|]. simpl. unfold cond.
    rewrite Hiter. simpl.
    exists (Ok s). split; [reflexivity|].
    unfold power_stops. rewrite Hpass. simpl.
    split; [lia|]. split; [apply Hbound; simpl; lia|].
    split; [intros k Hk; apply Hcont; simpl; lia|].
    split; [intros; lia | rewrite Hiter; simpl; lia].
  - destruct fuel as [|fuel]; [lia|]. simpl. unfold cond.
    destruct (Z.ltb_spec (pow_iter s) 200) as [_|Hge]; [|lia].
    set (i := (200 - S j)%nat) in *.
    assert (Hi : (200 - j = S i)%nat) by (unfold i; lia).
    unfold body, pow_body.
    (* the bound measured in this pass, in terms of the specification *)
    assert (Hpb : forall m, power_measure first first_data second second_data n
                              (pow_v s, pow_w s, pow_norm s) = m ->
              power_bound first first_data second second_data n i it0
              = ('(_, _, bound) <- m ;; Ok (bound, pow_norm s))).
    { intros m <-. unfold power_bound. rewrite Hit. reflexivity. }
    unfold power_measure in Hpb.
    destruct (first (pow_w s) (pow_v s) first_data) as [w|e] eqn:E1.
    2:{ exists (Err e). split; [reflexivity|].
        exists i. split; [unfold i; lia|]. split; [exact Hcont|].
        left. rewrite (Hpb _ eq_refl). reflexivity. }
    cbn [bind] in *.
    destruct (second (pow_v s) w second_data) as [v|e] eqn:E2.
    2:{ exists (Err e). split; [reflexivity|].
        exists i. split; [unfold i; lia|]. split; [exact Hcont|].
        left. rewrite (Hpb _ eq_refl). reflexivity. }
    cbn [bind] in *.
    specialize (Hpb _ eq_refl). cbn [bind] in Hpb.
    set (bound := cblas_dznrm2 n v) in *.
    destruct (Rle_dec ((bound - pow_norm s) / pow_norm s) 0.001) as [Hle|Hgt].
    + (* break *)
      eexists. split; [reflexivity|].
      unfold power_stops. cbn [passes pow_bound pow_iter]. rewrite Hpass.
      fold i. replace (S i - 1)%nat with i by lia.
      split; [unfold i; lia|]. split; [eauto|].
      split; [exact Hcont|].
      split; [intros _; exists bound, (pow_norm s); auto | lia].
    + assert (Hci : power_continues first first_data second second_data n
                                     i it0)
        by (exists bound, (pow_norm s); auto).
      assert (Hnext : power_iterate first first_data second second_data n
                                    (S i) it0
                      = (v' <- pow_normalize n v bound ;;
                         Ok (v', w, bound))).
      { simpl. rewrite Hit. cbn [bind]. unfold power_measure.
        rewrite E1. cbn [bind]. rewrite E2. reflexivity. }
      destruct (pow_normalize n v bound) as [v'|e] eqn:E3.
      2:{ exists (Err e). split; [reflexivity|].
          exists i. split; [unfold i; lia|]. split; [exact Hcont|].
          right. split; [exact Hci | exact Hnext]. }
      cbn [bind] in *.
      apply IH; cbn [pow_iter passes pow_v pow_w pow_norm pow_bound];
        try lia.
      * rewrite Hi. exact Hnext.
      * intros k Hk. destruct (Nat.eq_dec k i) as [->|Hne];
          [exact Hci | apply Hcont; lia].
      * intros _. rewrite Hi. replace (S i - 1)%nat with i by lia. eauto.
Qed.
End PowerMethod.

(** The seeding and the main loop in one domain. *)
Lemma pow_meth_domain_spec fuel ran first first_data second second_data n m :
  (200 < fuel)%nat ->
  exists r,
    pow_meth_domain fuel ran first first_data second second_data n m
      = Some r /\
    power_outcome first first_data second second_data n m ran r.
Proof.
  intros Hfuel. unfold pow_meth_domain, power_outcome, power_initial.
  destruct (pow_seed ran n (malloc C0 n)) as [v0|e]; cbn [bind];
    [|exists (Err e); auto].
  destruct (pow_normalize n v0 (cblas_dznrm2 n v0)) as [v|e]; cbn [bind];
    [|exists (Err e); auto].
  apply (pow_loop_spec first first_data second second_data n
           (v, malloc C0 m, 1%R) 200 fuel); simpl; auto; try lia.
Qed.



(** * Further properties *)

(** ** The inverse linearisation *)





(** ** The linearisation of valid index pairs *)



(** ** Comparison of images *)

Lemma differ_false a b tol :
  differ a b tol = false <-> (Rabs (a - b) <= tol)%R.
Proof.
  unfold differ, fabs. destruct (Rgt_dec (Rabs (a - b)) tol) as [H|H].
  - split; [discriminate | intros; lra].
  - split; [intros; lra | reflexivity].
Qed.

Lemma differ_sym a b tol : differ a b tol = differ b a tol.
Proof. unfold differ, fabs. now rewrite Rabs_minus_sym. Qed.

Lemma for_return_spec n : forall lo test (f : Z -> bool),
  (forall i, (lo <= i < lo + Z.of_nat n)%Z -> test i = Ok (f i)) ->
  exists b, for_return n lo test = Ok b /\
    (b = false <->
     forall i, (lo <= i < lo + Z.of_nat n)%Z -> f i = false).
Proof.
  induction n as [|n IH]; intros lo test f H.
  - exists false. split; [reflexivity|]. split; [intros _ i Hi; lia | auto].
  - cbn [for_return]. rewrite (H lo) by lia. cbn [bind].
    destruct (f lo) eqn:E.
    + exists true. split; [reflexivity|].
      split; [discriminate|]. intros Hall.
      rewrite (Hall lo) in E by lia. discriminate.
    + destruct (IH (lo + 1)%Z test f) as (b & Eb & Hb).
      { intros i Hi. apply H. lia. }
      exists b. split; [exact Eb|]. rewrite Hb. split.
      * intros Hall i Hi. destruct (Z.eq_dec i lo) as [->|]; [exact E|].
        apply Hall. lia.
      * intros Hall i Hi. apply Hall. lia.
Qed.

Lemma for_return_ext n : forall lo test test',
  (forall i, (lo <= i < lo + Z.of_nat n)%Z -> test i = test' i) ->
  for_return n lo test = for_return n lo test'.
Proof.
  induction n as [|n IH]; intros lo test test' H; [reflexivity|].
  cbn [for_return]. rewrite (H lo) by lia.
  destruct (test' lo) as [[|]|e]; cbn [bind]; auto.
  apply IH. intros i Hi. apply H. lia.
Qed.



(** X5.  [purify_image_compare] is symmetric in the two images, also in its
    undefined cases. *)
Theorem purify_image_compare_sym (img1 img2 : purify_image) (tol : R) :
  purify_image_compare img1 img2 tol = purify_image_compare img2 img1 tol.
Proof.
  unfold purify_image_compare.
  rewrite (differ_sym (fov_x img2)), (differ_sym (fov_y img2)).
  rewrite (Z.eqb_sym (nx img2)), (Z.eqb_sym (ny img2)).
  destruct (differ (fov_x img1) (fov_x img2) tol); [reflexivity|].
  destruct (differ (fov_y img1) (fov_y img2) tol); [reflexivity|].
  destruct (Z.eqb_spec (nx img1) (nx img2)) as [Hnx|]; [|reflexivity].
  destruct (Z.eqb_spec (ny img1) (ny img2)) as [Hny|]; [|reflexivity].
  cbn [negb]. rewrite <- Hnx, <- Hny. f_equal.
  apply for_return_ext. intros i _.
  unfold load. destruct (i <? 0)%Z; [reflexivity|].
  destruct (nth_error (pix img1) (Z.to_nat i));
    destruct (nth_error (pix img2) (Z.to_nat i)); cbn [bind]; auto.
  now rewrite differ_sym.
Qed.

(** X6.  With a tolerance that is not negative an image equals itself. *)
Theorem purify_image_compare_self (img : purify_image) (tol : R) :
  (0 <= tol)%R ->
  (nx img * ny img <= Z.of_nat (length (pix img)))%Z ->
  purify_image_compare img img tol = Ok 0%Z.
Proof.
  intros Ht L. unfold purify_image_compare.
  assert (Hd : forall a, differ a a tol = false).
  { intros a. apply differ_false. rewrite Rminus_diag, Rabs_R0. exact Ht. }
  rewrite !Hd, !Z.eqb_refl. cbn [negb].
  destruct (for_return_spec (Z.to_nat (nx img * ny img)) 0
              (fun i => p1 <- load (pix img) i ;;
                        p2 <- load (pix img) i ;; Ok (differ p1 p2 tol))
              (fun _ => false)) as (b & Eb & Hb).
  { intros i Hi. rewrite !load_rnth by lia. cbn [bind]. now rewrite Hd. }
  rewrite Eb. cbn [bind]. destruct b; [|reflexivity].
  assert (true = false) by (apply Hb; auto). discriminate.
Qed.

Lemma purify_image_compare_self_witness :
  purify_image_compare
    {| fov_x := 1; fov_y := 1; nx := 2; ny := 1; pix := [1; 2]%R |}
    {| fov_x := 1; fov_y := 1; nx := 2; ny := 1; pix := [1; 2]%R |} 0
  = Ok 0%Z.
Proof.
  apply (purify_image_compare_self
           {| fov_x := 1; fov_y := 1; nx := 2; ny := 1; pix := [1; 2]%R |} 0);
    [lra | simpl; lia].
Defined.

(** X7.  With a negative tolerance every comparison reports a difference, even
    of an image with itself, and no pixel is read. *)
Theorem purify_image_compare_negative_tol (img1 img2 : purify_image)
        (tol : R) :
  (tol < 0)%R -> purify_image_compare img1 img2 tol = Ok 1%Z.
Proof.
  intros Ht. unfold purify_image_compare.
  assert (Hd : differ (fov_x img1) (fov_x img2) tol = true).
  { unfold differ, fabs.
    destruct (Rgt_dec (Rabs (fov_x img1 - fov_x img2)) tol) as [|H];
      [reflexivity|].
    pose proof (Rabs_pos (fov_x img1 - fov_x img2)). lra. }
  now rewrite Hd.
Qed.

Lemma purify_image_compare_negative_tol_witness :
  purify_image_compare
    {| fov_x := 1; fov_y := 1; nx := 2; ny := 1; pix := [] |}
    {| fov_x := 1; fov_y := 1; nx := 2; ny := 1; pix := [] |} (-1)
  = Ok 1%Z.
Proof.
  apply (purify_image_compare_negative_tol
           {| fov_x := 1; fov_y := 1; nx := 2; ny := 1; pix := [] |}
           {| fov_x := 1; fov_y := 1; nx := 2; ny := 1; pix := [] |} (-1)).
  lra.
Defined.

(** ** Release of an image *)

(** X8.  [purify_image_free] releases the pixel block and clears the sizes and
    the fields of view, but leaves the pointer [pix] dangling: a second
    call on the same image releases the block again, which is undefined. *)
Theorem purify_image_free_twice (img : purify_image_struct) (h : heap)
        (p : nat) (blk : list R) :
  s_pix img = Some p -> h p = Some blk ->
  exists img' h',
    purify_image_free img h = Ok (img', h') /\
    s_nx img' = 0%Z /\ s_ny img' = 0%Z /\
    s_fov_x img' = 0%R /\ s_fov_y img' = 0%R /\
    s_pix img' = Some p /\ h' p = None /\
    (forall q, q <> p -> h' q = h q) /\
    purify_image_free img' h' = Err Undefined.
Proof.
  intros Hp Hh. unfold purify_image_free at 1, free.
  rewrite Hp, Hh. cbn [bind].
  eexists; eexists. split; [reflexivity|]. cbn.
  repeat split; auto.
  - now rewrite Nat.eqb_refl.
  - intros q Hq. apply Nat.eqb_neq in Hq. now rewrite Hq.
  - unfold purify_image_free, free. cbn. now rewrite Nat.eqb_refl.
Qed.

Lemma purify_image_free_twice_witness :
  let img := {| s_fov_x := 1; s_fov_y := 1; s_nx := 2; s_ny := 1;
                s_pix := Some 7%nat |} in
  let h := fun q => if Nat.eqb q 7 then Some [1; 2]%R else None in
  exists img' h',
    purify_image_free img h = Ok (img', h') /\
    s_nx img' = 0%Z /\ s_ny img' = 0%Z /\
    s_fov_x img' = 0%R /\ s_fov_y img' = 0%R /\
    s_pix img' = Some 7%nat /\ h' 7%nat = None /\
    (forall q, q <> 7%nat -> h' q = h q) /\
    purify_image_free img' h' = Err Undefined.
Proof.
  apply (purify_image_free_twice
           {| s_fov_x := 1; s_fov_y := 1; s_nx := 2; s_ny := 1;
              s_pix := Some 7%nat |}
           (fun q => if Nat.eqb q 7 then Some [1; 2]%R else None)
           7%nat [1; 2]%R); reflexivity.
Defined.

(** ** The kernel table *)

Lemma recvar_pos : (0 < recvar)%R.
Proof.
  unfold recvar, cghwhm, hwhm. rewrite tgtocg_eq.
  pose proof ln_lt_2 as H.
  assert (H2 : (0 < ln 2)%R) by lra.
  apply Rdiv_lt_0_compat; [apply Rdiv_lt_0_compat|]; lra.
Qed.

Lemma convfn_nth k :
  (0 <= k < NGCF)%Z -> rnth convfn k = exp (- recvar * IZR k * IZR k).
Proof.
  intros Hk. unfold rnth, convfn.
  rewrite (nth_indep _ 0%R (exp (- recvar * INR 0 * INR 0)))
    by (rewrite length_map, length_seq; lia).
  rewrite (map_nth (fun i => exp (- recvar * INR i * INR i))).
  rewrite seq_nth by lia. cbn [Nat.add].
  rewrite INR_IZR_INZ, Z2Nat.id by lia. reflexivity.
Qed.

Lemma convfn_bounds k : (0 <= k < NGCF)%Z -> (0 < rnth convfn k <= 1)%R.
Proof.
  intros Hk. rewrite convfn_nth by exact Hk. split; [apply exp_pos|].
  rewrite <- exp_0. pose proof recvar_pos as Hr.
  assert (Hs : (0 <= IZR k * IZR k)%R) by nra.
  destruct (Req_dec (- recvar * IZR k * IZR k) 0) as [->|Hne];
    [lra|]. left. apply exp_increasing. nra.
Qed.

(** X9.  The Gauss table has [NGCF] entries, starts at [convfn[0] = 1], takes
    half its maximum at the index [84 = tgtocg * hwhm], and is positive
    and strictly decreasing. *)
Theorem convfn_decreasing (i j : Z) :
  (0 <= i < j)%Z -> (j < NGCF)%Z ->
  (0 < rnth convfn j < rnth convfn i)%R /\ (rnth convfn i <= 1)%R /\
  rnth convfn 0 = 1%R /\ rnth convfn 84 = (1 / 2)%R /\
  length convfn = 301%nat.
Proof.
  intros Hi Hj. pose proof recvar_pos as Hr.
  split; [|split; [|split; [|split]]].
  - rewrite !convfn_nth by lia. split; [apply exp_pos|].
    apply exp_increasing.
    assert (IZR i < IZR j)%R by (apply IZR_lt; lia).
    assert (0 <= IZR i)%R by (apply IZR_le; lia).
    assert (Hsq : (IZR i * IZR i < IZR j * IZR j)%R) by nra.
    replace (- recvar * IZR j * IZR j)%R
      with (- (recvar * (IZR j * IZR j)))%R by ring.
    replace (- recvar * IZR i * IZR i)%R
      with (- (recvar * (IZR i * IZR i)))%R by ring.
    apply Ropp_lt_contravar, Rmult_lt_compat_l; assumption.
  - apply convfn_bounds. lia.
  - rewrite convfn_nth by (unfold NGCF; lia).
    replace (- recvar * 0 * 0)%R with 0%R by ring. apply exp_0.
  - rewrite convfn_nth by (unfold NGCF; lia).
    replace (- recvar * 84 * 84)%R with (- ln 2)%R.
    + rewrite exp_Ropp, exp_ln by lra. lra.
    + unfold recvar, cghwhm, hwhm. rewrite tgtocg_eq. lra.
  - apply convfn_length.
Qed.

Lemma convfn_decreasing_witness :
  (0 < rnth convfn 300 < rnth convfn 1)%R /\ (rnth convfn 1 <= 1)%R /\
  rnth convfn 0 = 1%R /\ rnth convfn 84 = (1 / 2)%R /\
  length convfn = 301%nat.
Proof. apply (convfn_decreasing 1 300); unfold NGCF; lia. Defined.

(** ** The single-step wraparound *)

(** X10.  The wraparound of [purify_measurement_init_cft] never changes the
    residue of a grid index, and it lands in [[0, n)] exactly for the
    indices in [[-n, 2n)]: one period on either side of the grid. *)
Theorem wrap_index_in_grid (i n : Z) :
  (0 < n)%Z ->
  ((0 <= wrap_index i n < n)%Z <-> (- n <= i < 2 * n)%Z) /\
  (wrap_index i n mod n = i mod n)%Z.
Proof.
  intros Hn. unfold wrap_index.
  destruct (Z.ltb_spec i 0) as [Hneg|Hpos].
  - destruct (Z.geb_spec (i + n) n) as [H|H]; [lia|].
    split; [lia|].
    replace (i + n)%Z with (i + 1 * n)%Z by lia. apply Z.mod_add. lia.
  - destruct (Z.geb_spec i n) as [H|H].
    + split; [lia|].
      replace (i - n)%Z with (i + (-1) * n)%Z by lia. apply Z.mod_add. lia.
    + split; [lia | reflexivity].
Qed.

Lemma wrap_index_in_grid_witness :
  ((0 <= wrap_index (-3) 8 < 8)%Z <-> (- 8 <= -3 < 2 * 8)%Z) /\
  (wrap_index (-3) 8 mod 8 = (-3) mod 8)%Z.
Proof. apply (wrap_index_in_grid (-3) 8). lia. Defined.

(** ** The interpolation weights *)

Lemma tap_index_in_table (frc : R) (i : Z) :
  (Zfloor (frc + 0.5) - nmask <= i <= Zfloor (frc + 0.5) + nmask)%Z ->
  convfn_index i frc = Ok (tap_index i frc) /\
  (0 <= tap_index i frc < NGCF)%Z.
Proof.
  intros H. destruct (convfn_index_in_table frc i H) as (k & E & Hk & Hv).
  unfold tap_index. unfold fabs in Hv. rewrite <- Hv. auto.
Qed.

(** One row of weights: the taps of measurement [i]. *)
Lemma init_cft_row_vals nx2 ny2 uinc vinc u v i vals colind :
  (0 <= i)%Z -> (i < Z.of_nat (length u))%Z -> (i < Z.of_nat (length v))%Z ->
  ((i + 1) * numel <= Z.of_nat (length vals))%Z ->
  length colind = length vals ->
  window_is_int (rnth u i) uinc -> window_is_int (rnth v i) vinc ->
  exists vals' colind',
    init_cft_row nx2 ny2 uinc vinc u v numel i (vals, colind)
      = Ok (vals', colind') /\
    length vals' = length vals /\ length colind' = length colind /\
    forall p, (0 <= p)%Z ->
      rnth vals' p =
      if ((i * numel <=? p) && (p <? (i + 1) * numel))%Z
      then tap_val uinc vinc (rnth u i) (rnth v i) (p - i * numel)
      else rnth vals p.
Proof.
  intros Hi Hu Hv Hlen Hcl Wu Wv.
  unfold init_cft_row.
  rewrite (load_Ok 0%R) by lia. cbn [bind].
  rewrite (load_Ok 0%R) by lia. cbn [bind].
  fold (rnth u i) (rnth v i).
  set (ui := rnth u i) in *. set (vi := rnth v i) in *.
  rewrite !nearest_cell_eq.
  set (W := tap_val uinc vinc ui vi).
  assert (HW : forall t, W t = tap_val uinc vinc ui vi t) by reflexivity.
  set (idu := nearest ui uinc) in *. set (idv := nearest vi vinc) in *.
  unfold window_is_int in Wu, Wv. fold idu in Wu. fold idv in Wv.
  assert (Hnm : nmask = 2%Z) by reflexivity.
  assert (Hne : numel = 25%Z) by reflexivity.
  assert (Hmin : INT_MIN = (-2147483648)%Z) by reflexivity.
  assert (Hmax : INT_MAX = 2147483647%Z) by reflexivity.
  rewrite (check_int_Ok idu) by (unfold is_int; lia). cbn [bind].
  rewrite (check_int_Ok idv) by (unfold is_int; lia). cbn [bind].
  rewrite (check_int_Ok (idv - nmask)%Z) by (unfold is_int; lia).
  cbn [bind].
  rewrite (check_int_Ok (idv + nmask + 1)%Z) by (unfold is_int; lia).
  cbn [bind].
  rewrite (check_int_Ok (idu - nmask)%Z) by (unfold is_int; lia).
  cbn [bind].
  rewrite (check_int_Ok (idu + nmask + 1)%Z) by (unfold is_int; lia).
  cbn [bind].
  set (row := (i * numel)%Z).
  set (Inv := fun c (st : cft_row_state) =>
                let '(vals1, colind1, counter) := st in
                counter = c /\ length vals1 = length vals /\
                length colind1 = length vals /\
                forall p, (0 <= p)%Z ->
                  rnth vals1 p =
                  if ((row <=? p) && (p <? row + c))%Z
                  then W (p - row)%Z else rnth vals p).
  match goal with
  | |- context [for_range ?lo ?hi ?body ?s] =>
      destruct (@for_range_inv _
                  (fun iv st => Inv ((2 * nmask + 1) * (iv - (idv - nmask)))%Z st)
                  lo hi body s) as (st' & E & HI)
  end.
  - lia.
  - unfold Inv. repeat split; auto; try lia.
    intros p Hp.
    destruct (Z.leb_spec row p);
      destruct (Z.ltb_spec p (row + (2 * nmask + 1)
                                    * (idv - nmask - (idv - nmask)))%Z);
      simpl; auto; lia.
  - (* one line of the window *)
    intros iv st Hiv HInv.
    destruct (tap_index_in_table (vi / vinc)%R iv) as (Ekv & Hkv).
    { fold (nearest vi vinc). fold idv. lia. }
    rewrite Ekv. cbn [bind].
    rewrite (load_Ok 0%R) by (rewrite convfn_length; lia). cbn [bind].
    match goal with
    | |- exists t', for_range ?lo ?hi ?body ?s = Ok t' /\ _ =>
        destruct (@for_range_inv _
          (fun iu st => Inv ((2 * nmask + 1) * (iv - (idv - nmask))
                             + (iu - (idu - nmask)))%Z st)
          lo hi body s) as (st' & E & HI)
    end.
    + lia.
    + now rewrite Z.sub_diag, Z.add_0_r.
    + (* one tap *)
      intros iu [[vals1 colind1] counter] Hiu HInv1.
      destruct HInv1 as (Hc & Hl1 & Hl2 & Hval).
      destruct (tap_index_in_table (ui / uinc)%R iu) as (Eku & Hku).
      { fold (nearest ui uinc). fold idu. lia. }
      rewrite Eku. cbn [bind].
      rewrite (load_Ok 0%R) by (rewrite convfn_length; lia). cbn [bind].
      assert (Hpos : (0 <= row + counter < Z.of_nat (length vals))%Z).
      { subst counter. unfold row. nia. }
      rewrite store_Ok by lia. cbn [bind].
      rewrite store_Ok by lia. cbn [bind].
      eexists; split; [reflexivity|].
      unfold Inv. rewrite !upd_length.
      split; [lia|]. split; [auto|]. split; [auto|].
      replace ((2 * nmask + 1) * (iv - (idv - nmask))
               + (iu + 1 - (idu - nmask)))%Z with (counter + 1)%Z by lia.
      intros p Hp. unfold rnth at 1.
      destruct (Z.eq_dec p (row + counter)) as [->|Hne'].
      * rewrite nth_upd_eq by lia.
        destruct (Z.leb_spec row (row + counter));
          destruct (Z.ltb_spec (row + counter) (row + (counter + 1)));
          simpl; try lia.
        rewrite HW. unfold tap_val, tap_iv, tap_iu. fold idu idv.
        replace (row + counter - row)%Z with counter by lia.
        destruct (tap_decompose (iv - (idv - nmask)) (iu - (idu - nmask)))
          as [Hd Hm]; try lia.
        rewrite Hc, Hd, Hm. unfold rnth.
        replace (idv - nmask + (iv - (idv - nmask)))%Z with iv by lia.
        replace (idu - nmask + (iu - (idu - nmask)))%Z with iu by lia.
        reflexivity.
      * rewrite nth_upd_ne by lia. fold (rnth vals1 p).
        rewrite Hval by auto. rewrite <- Hc.
        destruct (Z.leb_spec row p);
          destruct (Z.ltb_spec p (row + counter));
          destruct (Z.ltb_spec p (row + (counter + 1)));
          simpl; auto; lia.
    + exists st'. split; auto.
      replace ((2 * nmask + 1) * (iv + 1 - (idv - nmask)))%Z
        with ((2 * nmask + 1) * (iv - (idv - nmask))
              + (idu + nmask + 1 - (idu - nmask)))%Z by lia.
      exact HI.
  - destruct st' as [[vals' colind'] counter].
    rewrite E. cbn [bind].
    destruct HI as (Hc & Hl1 & Hl2 & Hval).
    exists vals', colind'. split; [reflexivity|].
    split; [auto|]. split; [congruence|].
    intros p Hp. rewrite Hval by auto.
    replace (row + (2 * nmask + 1) * (idv + nmask + 1 - (idv - nmask)))%Z
      with ((i + 1) * numel)%Z by (unfold row; lia).
    reflexivity.
Qed.

(** The weights of the matrix that [purify_measurement_init_cft] builds. *)
Lemma init_cft_vals_spec param deconv u v :
  (0 <= nmeas param)%Z ->
  Z.of_nat (length u) = nmeas param -> Z.of_nat (length v) = nmeas param ->
  (nx1 param * ny1 param <= Z.of_nat (length deconv))%Z ->
  (forall i, (0 <= i < nmeas param)%Z ->
     window_is_int (rnth u i) (cparam_uinc param) /\
     window_is_int (rnth v i) (cparam_vinc param)) ->
  exists mat deconv',
    purify_measurement_init_cft deconv u v param = Ok (mat, deconv') /\
    (forall i t, (0 <= i < nmeas param)%Z -> (0 <= t < numel)%Z ->
       rnth (vals mat) (i * numel + t) =
       tap_val (cparam_uinc param) (cparam_vinc param)
               (rnth u i) (rnth v i) t) /\
    (forall p, (0 <= p)%Z ->
       rnth deconv' p =
       if (p <? nx1 param * ny1 param)%Z then 1%R else rnth deconv p).
Proof.
  intros Hn Hu Hv Hd Hw.
  unfold purify_measurement_init_cft.
  fold (cparam_nx2 param) (cparam_ny2 param).
  fold (cparam_uinc param) (cparam_vinc param). fold numel.
  assert (Hne : numel = 25%Z) by reflexivity.
  replace (nmeas param * (2 * nmask + 1) * (2 * nmask + 1))%Z
    with (nmeas param * numel)%Z by (unfold numel; lia).
  destruct (for_range_fill 0%Z (fun j => (j * numel)%Z) 0 (nmeas param + 1)
              (malloc 0%Z (nmeas param + 1)))
    as (rp & Erp & Lrp & Hrp); [lia | rewrite malloc_length; lia |].
  rewrite Erp. cbn [bind].
  set (N := Z.to_nat (nmeas param * numel)).
  destruct (@for_range_inv _
    (fun i (st : list R * list Z) =>
       length (fst st) = N /\ length (snd st) = N /\
       forall i' t, (0 <= i' < i)%Z -> (0 <= t < numel)%Z ->
         rnth (fst st) (i' * numel + t) =
         tap_val (cparam_uinc param) (cparam_vinc param)
                 (rnth u i') (rnth v i') t)
    0%Z (nmeas param)
    (init_cft_row (cparam_nx2 param) (cparam_ny2 param)
                  (cparam_uinc param) (cparam_vinc param) u v numel)
    (malloc 0%R (nmeas param * numel), malloc 0%Z (nmeas param * numel)))
    as ([vals' colind'] & Emain & Lv & Lc & Hval).
  - lia.
  - simpl. rewrite !malloc_length. repeat split; auto. intros; lia.
  - intros i [vals1 colind1] Hi (Lv & Lc & Hval). simpl in Lv, Lc, Hval.
    destruct (Hw i Hi) as [Wu Wv].
    assert (Hfit : ((i + 1) * numel <= Z.of_nat (length vals1))%Z)
      by (rewrite Lv; unfold N; nia).
    destruct (init_cft_row_vals (cparam_nx2 param) (cparam_ny2 param)
                (cparam_uinc param) (cparam_vinc param) u v i vals1 colind1)
      as (vals2 & colind2 & E & L1 & L2 & H2); auto; try lia.
    exists (vals2, colind2). split; [exact E|]. simpl.
    split; [lia|]. split; [lia|].
    intros i' t Hi' Ht. rewrite H2 by nia.
    destruct (Z.eq_dec i' i) as [->|Hne'].
    + destruct (Z.leb_spec (i * numel) (i * numel + t));
        destruct (Z.ltb_spec (i * numel + t) ((i + 1) * numel));
        simpl; try lia.
      f_equal. lia.
    + destruct (Z.leb_spec (i * numel) (i' * numel + t));
        destruct (Z.ltb_spec (i' * numel + t) ((i + 1) * numel));
        simpl; try (apply Hval; lia); nia.
  - rewrite Emain. cbn [bind]. simpl in Lv, Lc, Hval.
    destruct (Z.le_gt_cases 0 (nx1 param * ny1 param)) as [Hpos|Hneg].
    + destruct (for_range_fill 0%R (fun _ : Z => 1%R) 0
                  (nx1 param * ny1 param) deconv)
        as (dc & Edc & Ldc & Hdc); [lia | lia |].
      rewrite Edc. cbn [bind].
      eexists; eexists. split; [reflexivity|]. simpl.
      split; [exact Hval|].
      intros p Hp. unfold rnth. rewrite Hdc by lia.
      destruct (Z.leb_spec 0 p);
        destruct (Z.ltb_spec p (nx1 param * ny1 param)); simpl; auto; lia.
    + rewrite for_range_empty by lia. cbn [bind].
      eexists; eexists. split; [reflexivity|]. simpl.
      split; [exact Hval|].
      intros p Hp.
      destruct (Z.ltb_spec p (nx1 param * ny1 param)); [lia | reflexivity].
Qed.





(** ** Buffers of the symmetric operators *)

(** A counted loop fails when one of its iterations fails on every state
    that the earlier iterations can produce. *)
Lemma for_loop_fails {S : Type} (P : S -> Prop) e n :
  forall lo (body : Z -> S -> result S) s k,
  (forall i t, P t ->
     body i t = Err e \/ exists t', body i t = Ok t' /\ P t') ->
  (k < n)%nat ->
  (forall t, P t -> body (lo + Z.of_nat k)%Z t = Err e) ->
  P s -> for_loop n lo body s = Err e.
Proof.
  induction n as [|n IH]; intros lo body s k Hstep Hk Hfail Hs; [lia|].
  cbn [for_loop]. destruct k as [|k].
  - rewrite Z.add_0_r in Hfail. now rewrite Hfail.
  - destruct (Hstep lo s Hs) as [E|(t' & E & Ht')]; rewrite E; cbn [bind];
      [reflexivity|].
    apply (IH (lo + 1)%Z body t' k); auto; [lia|].
    intros t Ht. replace (lo + 1 + Z.of_nat k)%Z
      with (lo + Z.of_nat (Datatypes.S k))%Z by lia. now apply Hfail.
Qed.

(** On an output buffer of fewer than [2*nmeas] cells the loop of
    [purify_measurement_symcftfwd] writes behind the buffer. *)
Lemma symcftfwd_short out xin data :
  (0 < nmeas (data_param data))%Z ->
  (Z.of_nat (length out) < 2 * nmeas (data_param data))%Z ->
  purify_measurement_symcftfwd out xin data
  = match purify_measurement_cftfwd out xin data with
    | Ok _ => Err Undefined
    | Err e => Err e
    end.
Proof.
  intros Hn Hl. unfold purify_measurement_symcftfwd.
  destruct (purify_measurement_cftfwd out xin data) as [out1|e] eqn:E;
    cbn [bind]; [|reflexivity].
  apply cftfwd_length in E. set (ny := nmeas (data_param data)) in *.
  unfold for_range.
  apply (for_loop_fails (fun t => length t = length out) Undefined
           (Z.to_nat (ny - 0)) 0 _ out1 (Z.to_nat (ny - 1))); auto; try lia.
  - intros i t Ht. unfold load.
    destruct (i <? 0)%Z; cbn [bind]; [auto|].
    destruct (nth_error t (Z.to_nat i)); cbn [bind]; [|auto].
    destruct (store t (i + ny) (conj c)) as [t'|e] eqn:Es.
    + right. exists t'. split; [reflexivity|].
      apply store_length in Es. congruence.
    + left. unfold store in Es.
      destruct ((0 <=? i + ny) && (i + ny <? Z.of_nat (length t)))%Z;
        [discriminate | now symmetry].
  - intros t Ht. rewrite Z.add_0_l, Z2Nat.id by lia. unfold load.
    destruct (ny - 1 <? 0)%Z; cbn [bind]; [auto|].
    destruct (nth_error t (Z.to_nat (ny - 1))); cbn [bind]; [|auto].
    apply store_oob. lia.
Qed.

(** X13.  [purify_measurement_symcftfwd] needs an output buffer of [2*nmeas]
    cells: on a shorter one, such as a buffer of the [nmeas] cells that
    [purify_measurement_cftfwd] fills, it writes out of bounds whenever there
    is a measurement. *)
Theorem symcftfwd_short_buffer out xin data out1 :
  (0 < nmeas (data_param data))%Z ->
  (Z.of_nat (length out) < 2 * nmeas (data_param data))%Z ->
  purify_measurement_cftfwd out xin data = Ok out1 ->
  purify_measurement_symcftfwd out xin data = Err Undefined.
Proof.
  intros Hn Hl E. rewrite symcftfwd_short by assumption. now rewrite E.
Qed.

Lemma symcftfwd_short_buffer_witness :
  exists out1,
    purify_measurement_cftfwd [C0] [C1; C0] (small_data (-1)) = Ok out1 /\
    purify_measurement_symcftfwd [C0] [C1; C0] (small_data (-1))
    = Err Undefined.
Proof.
  destruct (cftfwd_ok [C0] [C1; C0] _ (small_data_ok (-1)))
    as (out1 & E); try (simpl; lia).
  exists out1. split; [exact E|].
  apply (symcftfwd_short_buffer [C0] [C1; C0] (small_data (-1)) out1);
    [simpl; lia | simpl; lia | exact E].
Defined.

Lemma pow_seed_length ran n x x' :
  pow_seed ran n x = Ok x' -> length x' = length x.
Proof.
  unfold pow_seed. intros H.
  refine (for_range_preserve (fun t => length t = length x)
            _ _ _ _ _ _ eq_refl H).
  intros i t t' Ht Es. apply store_length in Es. congruence.
Qed.

Lemma pow_normalize_length n x norm x' :
  pow_normalize n x norm = Ok x' -> length x' = length x.
Proof.
  unfold pow_normalize. intros H.
  refine (for_range_preserve (fun t => length t = length x)
            _ _ _ _ _ _ eq_refl H).
  intros i t t' Ht Es. apply bind_Ok in Es. destruct Es as (xi & _ & Es).
  apply store_length in Es. congruence.
Qed.

(** X14.  The power method allocates [nmeas] cells for the visibilities, so it
    cannot be run on the symmetric forward operator: with
    [purify_measurement_symcftfwd] as [A] the first pass of the loop ends
    in an error, at the latest when the conjugate block is written behind
    the buffer. *)
Theorem pow_meth_symcftfwd_fails fuel ran A_data At At_data :
  (0 < fuel)%nat -> (0 < nmeas (data_param A_data))%Z ->
  exists e,
    purify_measurement_pow_meth fuel ran
      purify_measurement_symcftfwd A_data At At_data = Some (Err e).
Proof.
  intros Hfuel Hn. destruct fuel as [|fuel]; [lia|].
  unfold purify_measurement_pow_meth, pow_meth_run, pow_meth_domain.
  set (ny := nmeas (data_param A_data)) in *.
  set (nx := (nx1 (data_param A_data) * ny1 (data_param A_data))%Z).
  destruct (Z.gtb_spec ny nx) as [Hgt|Hle].
  - destruct (pow_seed ran nx (malloc C0 nx)) as [v0|e]; cbn [bind];
      [|eauto].
    destruct (pow_normalize nx v0 (cblas_dznrm2 nx v0)) as [v|e];
      cbn [bind]; [|eauto].
    cbn [while_loop pow_iter]. change (0 <? 200)%Z with true. cbv iota.
    unfold pow_body at 1. cbn [pow_w pow_v].
    rewrite symcftfwd_short
      by (fold ny; rewrite ?malloc_length; lia).
    destruct (purify_measurement_cftfwd (malloc C0 ny) v A_data);
      cbn [bind]; eauto.
  - destruct (pow_seed ran ny (malloc C0 ny)) as [v0|e] eqn:E0; cbn [bind];
      [|eauto].
    destruct (pow_normalize ny v0 (cblas_dznrm2 ny v0)) as [v|e] eqn:E1;
      cbn [bind]; [|eauto].
    apply pow_seed_length in E0. apply pow_normalize_length in E1.
    rewrite malloc_length in E0.
    cbn [while_loop pow_iter]. change (0 <? 200)%Z with true. cbv iota.
    unfold pow_body at 1. cbn [pow_w pow_v].
    destruct (At (malloc C0 nx) v At_data) as [w|e]; cbn [bind]; [|eauto].
    rewrite symcftfwd_short by (fold ny; lia).
    destruct (purify_measurement_cftfwd v w A_data); cbn [bind]; eauto.
Qed.

Lemma pow_meth_symcftfwd_fails_witness :
  exists e,
    purify_measurement_pow_meth 201 (fun k => INR (S k))
      purify_measurement_symcftfwd (small_data (-1))
      purify_measurement_symcftadj (small_data 1) = Some (Err e).
Proof.
  apply (pow_meth_symcftfwd_fails 201 (fun k => INR (S k))
           (small_data (-1)) purify_measurement_symcftadj (small_data 1));
    [lia | simpl; lia].
Defined.

(** X15.  [purify_measurement_symcftadj] never reads the conjugate block of its
    input: applied to a first block of [nrows] visibilities followed by
    anything, it returns what it returns for the first block alone. *)
Theorem symcftadj_ignores_second_block out y1 y2 data :
  Z.of_nat (length y1) = nrows (data_mat data) ->
  purify_measurement_symcftadj out (y1 ++ y2) data
  = purify_measurement_symcftadj out y1 data.
Proof.
  intros L. unfold purify_measurement_symcftadj.
  rewrite (cftadj_ext out (y1 ++ y2) y1 data); [reflexivity|].
  intros r Hr. unfold load. destruct (r <? 0)%Z; [reflexivity|].
  rewrite nth_error_app1 by lia. reflexivity.
Qed.

Lemma symcftadj_ignores_second_block_witness :
  purify_measurement_symcftadj [C0; C0] ([Ci] ++ [C1]) (small_data 1)
  = purify_measurement_symcftadj [C0; C0] [Ci] (small_data 1).
Proof.
  apply (symcftadj_ignores_second_block [C0; C0] [Ci] [C1] (small_data 1)).
  reflexivity.
Defined.

(** ** Linearity of the continuous operators *)

Lemma cnth_probe n k j :
  (j < n)%nat -> cnth (probe n k) j = if Nat.eqb j k then C1 else C0.
Proof. intros H. unfold probe. now rewrite cnth_map_seq. Qed.

Lemma inner_probe_r n t k :
  (k < n)%nat -> inner n t (probe n k) = conj (cnth t k).
Proof.
  intros Hk. unfold inner.
  rewrite (Csum_single _ n k Hk).
  - rewrite cnth_probe, Nat.eqb_refl by exact Hk. ring.
  - intros j Hj Hne. rewrite cnth_probe by exact Hj.
    apply Nat.eqb_neq in Hne. rewrite Hne. ring.
Qed.

Lemma inner_probe_l n s k :
  (k < n)%nat -> inner n (probe n k) s = cnth s k.
Proof.
  intros Hk. unfold inner.
  rewrite (Csum_single _ n k Hk).
  - rewrite cnth_probe, Nat.eqb_refl by exact Hk. csimpl.
  - intros j Hj Hne. rewrite cnth_probe by exact Hj.
    apply Nat.eqb_neq in Hne. rewrite Hne. csimpl.
Qed.

Lemma Csum_combination (f1 f2 f3 : nat -> complex) a b n :
  (forall k, (k < n)%nat -> f3 k = (a * f1 k + b * f2 k)%C) ->
  Csum f3 n = (a * Csum f1 n + b * Csum f2 n)%C.
Proof.
  intros H. rewrite (Csum_ext _ _ n H).
  now rewrite Csum_add, !Csum_mul_l.
Qed.

Lemma row_col_lt A r k :
  sparsemat_wf A -> (r < Z.to_nat (nrows A))%nat -> (k < row_len A r)%nat ->
  (row_col A r k < Z.to_nat (ncols A))%nat.
Proof.
  intros (Hr & Hc & Lp & Hrow & Hcol) Hlt Hk.
  destruct (Hrow (Z.of_nat r) ltac:(lia)) as (H0 & H1 & _).
  unfold row_len in Hk. unfold row_col.
  specialize (Hcol (znth (rowptr A) (Z.of_nat r) + Z.of_nat k)%Z
                   ltac:(lia)). lia.
Qed.

(** The padding is conjugate-linear in the image under the inner
    product. *)
Lemma pad_form_combination param deconv a b x1 x2 x3 s :
  (0 <= nx1 param)%Z -> (0 <= ny1 param)%Z ->
  combination (Z.to_nat (nx1 param * ny1 param)) a b x1 x2 x3 ->
  pad_form param deconv x3 s
  = (conj a * pad_form param deconv x1 s
     + conj b * pad_form param deconv x2 s)%C.
Proof.
  intros Hx Hy Hc. unfold pad_form.
  apply Csum_combination. intros j Hj.
  apply Csum_combination. intros i Hi.
  unfold cft_pixel. rewrite Hc by nia.
  rewrite !conj_mul, conj_add, !conj_mul. ring.
Qed.

(** The four stages of [purify_measurement_cftfwd] on three inputs of
    which the third is a linear combination of the other two. *)
Lemma cftfwd_combination param deconv mat plan temp1 temp2 temp3
      out1 out2 out3 x1 x2 x3 a b :
  window_fits param -> sparsemat_wf mat ->
  ncols mat = (cparam_nx2 param * cparam_ny2 param)%Z ->
  (plan_n0 plan * plan_n1 plan = cparam_nx2 param * cparam_ny2 param)%Z ->
  (nx1 param * ny1 param <= Z.of_nat (length deconv))%Z ->
  (cparam_nx2 param * cparam_ny2 param <= Z.of_nat (length temp1))%Z ->
  (cparam_nx2 param * cparam_ny2 param <= Z.of_nat (length temp2))%Z ->
  (cparam_nx2 param * cparam_ny2 param <= Z.of_nat (length temp3))%Z ->
  (nx1 param * ny1 param <= Z.of_nat (length x1))%Z ->
  (nx1 param * ny1 param <= Z.of_nat (length x2))%Z ->
  (nx1 param * ny1 param <= Z.of_nat (length x3))%Z ->
  (nrows mat <= Z.of_nat (length out1))%Z ->
  (nrows mat <= Z.of_nat (length out2))%Z ->
  (nrows mat <= Z.of_nat (length out3))%Z ->
  combination (Z.to_nat (nx1 param * ny1 param)) a b x1 x2 x3 ->
  exists f1 f2 f3,
    purify_measurement_cftfwd out1 x1 (cft_bundle param deconv mat plan temp1)
      = Ok f1 /\
    purify_measurement_cftfwd out2 x2 (cft_bundle param deconv mat plan temp2)
      = Ok f2 /\
    purify_measurement_cftfwd out3 x3 (cft_bundle param deconv mat plan temp3)
      = Ok f3 /\
    length f1 = length out1 /\ length f3 = length out3 /\
    (forall p, (Z.to_nat (nrows mat) <= p)%nat -> cnth f1 p = cnth out1 p) /\
    (forall p, (Z.to_nat (nrows mat) <= p)%nat -> cnth f3 p = cnth out3 p) /\
    combination (Z.to_nat (nrows mat)) a b f1 f2 f3.
Proof.
  intros Hfit Hwf Hnc Hpl Ld Lt1 Lt2 Lt3 Lx1 Lx2 Lx3 Lo1 Lo2 Lo3 Hc.
  destruct (window_fits_facts param Hfit)
    as (Hx & Hy & Hxx & Hpx & Hpy & Hy2 & _). cbv zeta in *.
  set (nx2 := cparam_nx2 param) in *. set (ny2 := cparam_ny2 param) in *.
  set (N := Z.to_nat (nx2 * ny2)).
  assert (HN : N = (Z.to_nat ny2 * Z.to_nat nx2)%nat) by (unfold N; lia).
  unfold purify_measurement_cftfwd, cft_bundle.
  cbn [data_param data_deconv data_mat data_plan data_temp].
  fold (cparam_nx2 param) (cparam_ny2 param). fold nx2 ny2.
  (* padding *)
  destruct (cft_zero_pad_spec param deconv x1 temp1 Hfit)
    as (t1 & E1 & L1 & _ & P1); try (fold nx2 ny2; lia).
  destruct (cft_zero_pad_spec param deconv x2 temp2 Hfit)
    as (t2 & E2 & L2 & _ & P2); try (fold nx2 ny2; lia).
  destruct (cft_zero_pad_spec param deconv x3 temp3 Hfit)
    as (t3 & E3 & L3 & _ & P3); try (fold nx2 ny2; lia).
  rewrite E1, E2, E3. cbn [bind]. fold nx2 ny2 N in P1, P2, P3.
  assert (C1 : combination N a b t1 t2 t3).
  { intros k Hk.
    pose proof (P3 (probe N k)) as H3.
    rewrite (pad_form_combination param deconv a b x1 x2 x3) in H3
      by (auto; lia).
    rewrite <- P1, <- P2, !inner_probe_r in H3 by exact Hk.
    apply (f_equal conj) in H3.
    rewrite conj_add, !conj_mul, !conj_conj in H3. exact H3. }
  (* shift *)
  destruct (fftshift_spec t1 nx2 ny2) as (u1 & F1 & M1 & S1); try lia.
  destruct (fftshift_spec t2 nx2 ny2) as (u2 & F2 & M2 & S2); try lia.
  destruct (fftshift_spec t3 nx2 ny2) as (u3 & F3 & M3 & S3); try lia.
  rewrite F1, F2, F3. cbn [bind]. fold N in S1, S2, S3.
  assert (C2 : combination N a b u1 u2 u3).
  { intros k Hk. rewrite S1, S2, S3 by exact Hk. apply C1.
    rewrite HN. apply fftshift_index_lt. lia. }
  (* transform *)
  destruct (fftw_execute_dft_spec plan u1) as (w1 & G1 & K1 & D1); [lia|].
  destruct (fftw_execute_dft_spec plan u2) as (w2 & G2 & K2 & D2); [lia|].
  destruct (fftw_execute_dft_spec plan u3) as (w3 & G3 & K3 & D3); [lia|].
  rewrite G1, G2, G3. cbn [bind]. rewrite Hpl in D1, D2, D3.
  fold N in D1, D2, D3.
  assert (C3 : combination N a b w1 w2 w3).
  { intros k Hk. rewrite D1, D2, D3 by exact Hk.
    rewrite !cnth_dft by (rewrite Hpl; exact Hk). rewrite Hpl. fold N.
    rewrite <- !Csum_mul_l, <- Csum_add. apply Csum_ext.
    intros j Hj. rewrite C2 by exact Hj. ring. }
  (* interpolation *)
  destruct (sparse_fwd_rows mat out1 w1 Hwf) as (f1 & I1 & J1 & R1 & Q1);
    try lia.
  destruct (sparse_fwd_rows mat out2 w2 Hwf) as (f2 & I2 & J2 & R2 & Q2);
    try lia.
  destruct (sparse_fwd_rows mat out3 w3 Hwf) as (f3 & I3 & J3 & R3 & Q3);
    try lia.
  exists f1, f2, f3. repeat split; auto.
  intros r Hr. rewrite R1, R2, R3 by exact Hr.
  rewrite <- !Csum_mul_l, <- Csum_add. apply Csum_ext.
  intros k Hk. rewrite C3; [ring|].
  unfold N. rewrite <- Hnc. now apply row_col_lt.
Qed.

(** The sparse product is linear in the visibilities under the inner
    product. *)
Lemma sparse_form_combination A t a b y1 y2 y3 :
  combination (Z.to_nat (nrows A)) a b y1 y2 y3 ->
  sparse_form A t y3
  = (a * sparse_form A t y1 + b * sparse_form A t y2)%C.
Proof.
  intros Hc. unfold sparse_form.
  apply Csum_combination. intros r Hr.
  apply Csum_combination. intros k Hk.
  rewrite Hc by exact Hr. ring.
Qed.

Lemma pad_index_lt param i j :
  window_fits param -> (0 <= i < nx1 param)%Z -> (0 <= j < ny1 param)%Z ->
  (0 <= cft_pad_index param i j < cparam_nx2 param * cparam_ny2 param)%Z.
Proof.
  intros Hfit Hi Hj.
  destruct (window_fits_facts param Hfit)
    as (Hx & Hy & Hxx & Hpx & Hpy & Hy2 & HP & Hlast). cbv zeta in *.
  rewrite HP. split; [nia|].
  assert ((j + Z.quot (cparam_ny2 param) 4) * cparam_nx2 param
          <= (ny1 param - 1 + Z.quot (cparam_ny2 param) 4)
             * cparam_nx2 param)%Z by nia.
  lia.
Qed.

(** The four stages of [purify_measurement_cftadj] on three inputs of
    which the third is a linear combination of the other two. *)
Lemma cftadj_combination param deconv mat plan temp1 temp2 temp3
      out1 out2 out3 y1 y2 y3 a b :
  window_fits param -> sparsemat_wf mat ->
  ncols mat = (cparam_nx2 param * cparam_ny2 param)%Z ->
  (plan_n0 plan * plan_n1 plan = cparam_nx2 param * cparam_ny2 param)%Z ->
  (nx1 param * ny1 param <= Z.of_nat (length deconv))%Z ->
  (cparam_nx2 param * cparam_ny2 param <= Z.of_nat (length temp1))%Z ->
  (cparam_nx2 param * cparam_ny2 param <= Z.of_nat (length temp2))%Z ->
  (cparam_nx2 param * cparam_ny2 param <= Z.of_nat (length temp3))%Z ->
  (nrows mat <= Z.of_nat (length y1))%Z ->
  (nrows mat <= Z.of_nat (length y2))%Z ->
  (nrows mat <= Z.of_nat (length y3))%Z ->
  (nx1 param * ny1 param <= Z.of_nat (length out1))%Z ->
  (nx1 param * ny1 param <= Z.of_nat (length out2))%Z ->
  (nx1 param * ny1 param <= Z.of_nat (length out3))%Z ->
  combination (Z.to_nat (nrows mat)) a b y1 y2 y3 ->
  exists g1 g2 g3,
    purify_measurement_cftadj out1 y1 (cft_bundle param deconv mat plan temp1)
      = Ok g1 /\
    purify_measurement_cftadj out2 y2 (cft_bundle param deconv mat plan temp2)
      = Ok g2 /\
    purify_measurement_cftadj out3 y3 (cft_bundle param deconv mat plan temp3)
      = Ok g3 /\
    length g1 = length out1 /\ length g3 = length out3 /\
    (forall p, (Z.to_nat (nx1 param * ny1 param) <= p)%nat ->
       cnth g1 p = cnth out1 p) /\
    (forall p, (Z.to_nat (nx1 param * ny1 param) <= p)%nat ->
       cnth g3 p = cnth out3 p) /\
    combination (Z.to_nat (nx1 param * ny1 param)) a b g1 g2 g3.
Proof.
  intros Hfit Hwf Hnc Hpl Ld Lt1 Lt2 Lt3 Ly1 Ly2 Ly3 Lo1 Lo2 Lo3 Hc.
  destruct (window_fits_facts param Hfit)
    as (Hx & Hy & Hxx & Hpx & Hpy & Hy2 & _). cbv zeta in *.
  set (nx2 := cparam_nx2 param) in *. set (ny2 := cparam_ny2 param) in *.
  set (N := Z.to_nat (nx2 * ny2)).
  assert (HN : N = (Z.to_nat ny2 * Z.to_nat nx2)%nat) by (unfold N; lia).
  unfold purify_measurement_cftadj, cft_bundle.
  cbn [data_param data_deconv data_mat data_plan data_temp].
  fold (cparam_nx2 param) (cparam_ny2 param). fold nx2 ny2.
  (* scatter *)
  destruct (sparse_adj_spec mat temp1 y1 Hwf) as (s1 & E1 & L1 & A1);
    try lia.
  destruct (sparse_adj_spec mat temp2 y2 Hwf) as (s2 & E2 & L2 & A2);
    try lia.
  destruct (sparse_adj_spec mat temp3 y3 Hwf) as (s3 & E3 & L3 & A3);
    try lia.
  rewrite E1, E2, E3. cbn [bind]. rewrite Hnc in A1, A2, A3.
  fold N in A1, A2, A3.
  assert (C1 : combination N a b s1 s2 s3).
  { intros k Hk.
    rewrite <- (inner_probe_l N s3 k Hk), <- (inner_probe_l N s1 k Hk),
      <- (inner_probe_l N s2 k Hk).
    rewrite A1, A2, A3. now apply sparse_form_combination. }
  (* transform *)
  destruct (fftw_execute_dft_spec plan s1) as (w1 & G1 & K1 & D1); [lia|].
  destruct (fftw_execute_dft_spec plan s2) as (w2 & G2 & K2 & D2); [lia|].
  destruct (fftw_execute_dft_spec plan s3) as (w3 & G3 & K3 & D3); [lia|].
  rewrite G1, G2, G3. cbn [bind]. rewrite Hpl in D1, D2, D3.
  fold N in D1, D2, D3.
  assert (C2 : combination N a b w1 w2 w3).
  { intros k Hk. rewrite D1, D2, D3 by exact Hk.
    rewrite !cnth_dft by (rewrite Hpl; exact Hk). rewrite Hpl. fold N.
    rewrite <- !Csum_mul_l, <- Csum_add. apply Csum_ext.
    intros j Hj. rewrite C1 by exact Hj. ring. }
  (* shift *)
  destruct (fftshift_spec w1 nx2 ny2) as (u1 & F1 & M1 & S1); try lia.
  destruct (fftshift_spec w2 nx2 ny2) as (u2 & F2 & M2 & S2); try lia.
  destruct (fftshift_spec w3 nx2 ny2) as (u3 & F3 & M3 & S3); try lia.
  rewrite F1, F2, F3. cbn [bind]. fold N in S1, S2, S3.
  assert (C3 : combination N a b u1 u2 u3).
  { intros k Hk. rewrite S1, S2, S3 by exact Hk. apply C2.
    rewrite HN. apply fftshift_index_lt. lia. }
  (* crop *)
  destruct (cft_crop_spec param deconv u1 out1 Hfit)
    as (g1 & I1 & J1 & R1 & Q1); try (fold nx2 ny2; lia).
  destruct (cft_crop_spec param deconv u2 out2 Hfit)
    as (g2 & I2 & J2 & R2 & Q2); try (fold nx2 ny2; lia).
  destruct (cft_crop_spec param deconv u3 out3 Hfit)
    as (g3 & I3 & J3 & R3 & Q3); try (fold nx2 ny2; lia).
  exists g1, g2, g3. split; [exact I1|]. split; [exact I2|].
  split; [exact I3|]. split; [exact J1|]. split; [exact J3|].
  split; [|split].
  - intros p Hp. rewrite <- (Nat2Z.id p). apply Q1. lia.
  - intros p Hp. rewrite <- (Nat2Z.id p). apply Q3. lia.
  - intros k Hk.
    set (j := (Z.of_nat k / nx1 param)%Z).
    set (i := (Z.of_nat k mod nx1 param)%Z).
    assert (Hi : (0 <= i < nx1 param)%Z) by (apply Z.mod_pos_bound; lia).
    assert (Hj : (0 <= j < ny1 param)%Z).
    { split; [apply Z.div_pos; lia|].
      apply Z.div_lt_upper_bound; [lia|]. nia. }
    assert (Hk' : k = Z.to_nat (j * nx1 param + i)).
    { pose proof (Z.div_mod (Z.of_nat k) (nx1 param) ltac:(lia)).
      unfold i, j. lia. }
    rewrite Hk'. rewrite R1, R2, R3 by assumption.
    rewrite C3; [ring|].
    pose proof (pad_index_lt param i j Hfit Hi Hj). fold nx2 ny2 in H.
    unfold N. lia.
Qed.

(** X16.  [purify_measurement_cftfwd] is linear: the visibilities of
    [a x1 + b x2] are [a] times those of [x1] plus [b] times those of
    [x2]. *)
Theorem cftfwd_linear out1 out2 out3 x1 x2 x3 a b data :
  cft_data_ok data ->
  (nx1 (data_param data) * ny1 (data_param data)
   <= Z.of_nat (length x1))%Z ->
  (nx1 (data_param data) * ny1 (data_param data)
   <= Z.of_nat (length x2))%Z ->
  (nx1 (data_param data) * ny1 (data_param data)
   <= Z.of_nat (length x3))%Z ->
  (nrows (data_mat data) <= Z.of_nat (length out1))%Z ->
  (nrows (data_mat data) <= Z.of_nat (length out2))%Z ->
  (nrows (data_mat data) <= Z.of_nat (length out3))%Z ->
  combination (Z.to_nat (nx1 (data_param data) * ny1 (data_param data)))
              a b x1 x2 x3 ->
  exists f1 f2 f3,
    purify_measurement_cftfwd out1 x1 data = Ok f1 /\
    purify_measurement_cftfwd out2 x2 data = Ok f2 /\
    purify_measurement_cftfwd out3 x3 data = Ok f3 /\
    combination (Z.to_nat (nrows (data_mat data))) a b f1 f2 f3.
Proof.
  intros (Hfit & Hwf & Hnc & Hpl & Ld & Lt) Lx1 Lx2 Lx3 Lo1 Lo2 Lo3 Hc.
  cbv zeta in *.
  destruct data as [param deconv mat plan temp].
  cbn [data_param data_deconv data_mat data_plan data_temp] in *.
  destruct (cftfwd_combination param deconv mat plan temp temp temp
              out1 out2 out3 x1 x2 x3 a b)
    as (f1 & f2 & f3 & E1 & E2 & E3 & _ & _ & _ & _ & H); auto.
  exists f1, f2, f3. auto.
Qed.

Lemma cftfwd_linear_witness :
  exists f1 f2 f3,
    purify_measurement_cftfwd [C0] [C1; C0] (small_data (-1)) = Ok f1 /\
    purify_measurement_cftfwd [C0] [C0; C1] (small_data (-1)) = Ok f2 /\
    purify_measurement_cftfwd [C0] [Ci; RtoC 2] (small_data (-1)) = Ok f3 /\
    combination (Z.to_nat (nrows (data_mat (small_data (-1)))))
                Ci (RtoC 2) f1 f2 f3.
Proof.
  apply (cftfwd_linear [C0] [C0] [C0] [C1; C0] [C0; C1] [Ci; RtoC 2]
           Ci (RtoC 2) (small_data (-1)) (small_data_ok (-1)));
    try (simpl; lia).
  intros k Hk. simpl in Hk.
  destruct k as [|[|k]]; [csimpl | csimpl | lia].
Defined.

(** X17.  [purify_measurement_cftadj] is linear. *)
Theorem cftadj_linear out1 out2 out3 y1 y2 y3 a b data :
  cft_data_ok data ->
  (nrows (data_mat data) <= Z.of_nat (length y1))%Z ->
  (nrows (data_mat data) <= Z.of_nat (length y2))%Z ->
  (nrows (data_mat data) <= Z.of_nat (length y3))%Z ->
  (nx1 (data_param data) * ny1 (data_param data)
   <= Z.of_nat (length out1))%Z ->
  (nx1 (data_param data) * ny1 (data_param data)
   <= Z.of_nat (length out2))%Z ->
  (nx1 (data_param data) * ny1 (data_param data)
   <= Z.of_nat (length out3))%Z ->
  combination (Z.to_nat (nrows (data_mat data))) a b y1 y2 y3 ->
  exists g1 g2 g3,
    purify_measurement_cftadj out1 y1 data = Ok g1 /\
    purify_measurement_cftadj out2 y2 data = Ok g2 /\
    purify_measurement_cftadj out3 y3 data = Ok g3 /\
    combination (Z.to_nat (nx1 (data_param data) * ny1 (data_param data)))
                a b g1 g2 g3.
Proof.
  intros (Hfit & Hwf & Hnc & Hpl & Ld & Lt) Ly1 Ly2 Ly3 Lo1 Lo2 Lo3 Hc.
  cbv zeta in *.
  destruct data as [param deconv mat plan temp].
  cbn [data_param data_deconv data_mat data_plan data_temp] in *.
  destruct (cftadj_combination param deconv mat plan temp temp temp
              out1 out2 out3 y1 y2 y3 a b)
    as (g1 & g2 & g3 & E1 & E2 & E3 & _ & _ & _ & _ & H); auto.
  exists g1, g2, g3. auto.
Qed.

Lemma cftadj_linear_witness :
  exists g1 g2 g3,
    purify_measurement_cftadj [C0; C0] [C1] (small_data 1) = Ok g1 /\
    purify_measurement_cftadj [C0; C0] [Ci] (small_data 1) = Ok g2 /\
    purify_measurement_cftadj [C0; C0] [mkC 3 2] (small_data 1) = Ok g3 /\
    combination
      (Z.to_nat (nx1 (data_param (small_data 1))
                 * ny1 (data_param (small_data 1))))
      (RtoC 3) (RtoC 2) g1 g2 g3.
Proof.
  apply (cftadj_linear [C0; C0] [C0; C0] [C0; C0] [C1] [Ci] [mkC 3 2]
           (RtoC 3) (RtoC 2) (small_data 1) (small_data_ok 1));
    try (simpl; lia).
  intros k Hk. simpl in Hk.
  destruct k as [|k]; [csimpl | lia].
Defined.

(** ** Reuse of the buffers of the continuous operators *)

(** X18.  [purify_measurement_cftfwd] overwrites the first [nrows] cells of its
    output buffer with values that depend neither on the old content of the
    buffer nor on the content of the scratch memory, and leaves the cells
    behind them as they were. *)
Theorem cftfwd_overwrites out out' x data temp' :
  cft_data_ok data ->
  (cparam_nx2 (data_param data) * cparam_ny2 (data_param data)
   <= Z.of_nat (length temp'))%Z ->
  (nx1 (data_param data) * ny1 (data_param data)
   <= Z.of_nat (length x))%Z ->
  (nrows (data_mat data) <= Z.of_nat (length out))%Z ->
  (nrows (data_mat data) <= Z.of_nat (length out'))%Z ->
  exists f f',
    purify_measurement_cftfwd out x data = Ok f /\
    purify_measurement_cftfwd out' x
      (cft_bundle (data_param data) (data_deconv data) (data_mat data)
                  (data_plan data) temp') = Ok f' /\
    length f = length out /\ length f' = length out' /\
    (forall r, (r < Z.to_nat (nrows (data_mat data)))%nat ->
       cnth f' r = cnth f r) /\
    (forall p, (Z.to_nat (nrows (data_mat data)) <= p)%nat ->
       cnth f p = cnth out p /\ cnth f' p = cnth out' p).
Proof.
  intros (Hfit & Hwf & Hnc & Hpl & Ld & Lt) Lt' Lx Lo Lo'. cbv zeta in *.
  destruct data as [param deconv mat plan temp].
  cbn [data_param data_deconv data_mat data_plan data_temp] in *.
  destruct (cftfwd_combination param deconv mat plan temp temp temp'
              out out out' x x x C1 C0)
    as (f & f2 & f' & E1 & E2 & E3 & L1 & L3 & Q1 & Q3 & H); auto.
  { intros k Hk. ring. }
  exists f, f'. unfold cft_bundle in *. repeat split; auto.
  intros r Hr. rewrite (H r Hr).
  rewrite E1 in E2. injection E2 as <-. ring.
Qed.

Lemma cftfwd_overwrites_witness :
  exists f f',
    purify_measurement_cftfwd [C0; Ci] [C1; C0] (small_data (-1)) = Ok f /\
    purify_measurement_cftfwd [C1; C1] [C1; C0]
      (cft_bundle (data_param (small_data (-1)))
                  (data_deconv (small_data (-1)))
                  (data_mat (small_data (-1)))
                  (data_plan (small_data (-1))) (repeat Ci 8)) = Ok f' /\
    length f = 2%nat /\ length f' = 2%nat /\
    (forall r, (r < Z.to_nat (nrows (data_mat (small_data (-1)))))%nat ->
       cnth f' r = cnth f r) /\
    (forall p, (Z.to_nat (nrows (data_mat (small_data (-1)))) <= p)%nat ->
       cnth f p = cnth [C0; Ci] p /\ cnth f' p = cnth [C1; C1] p).
Proof.
  apply (cftfwd_overwrites [C0; Ci] [C1; C1] [C1; C0] (small_data (-1))
           (repeat Ci 8) (small_data_ok (-1))); simpl; lia.
Defined.

(** X19.  [purify_measurement_cftadj] overwrites the first [nx1*ny1] cells of
    its output buffer with values that depend neither on the old content of
    the buffer nor on the content of the scratch memory, and leaves the
    cells behind them as they were. *)
Theorem cftadj_overwrites out out' y data temp' :
  cft_data_ok data ->
  (cparam_nx2 (data_param data) * cparam_ny2 (data_param data)
   <= Z.of_nat (length temp'))%Z ->
  (nrows (data_mat data) <= Z.of_nat (length y))%Z ->
  (nx1 (data_param data) * ny1 (data_param data)
   <= Z.of_nat (length out))%Z ->
  (nx1 (data_param data) * ny1 (data_param data)
   <= Z.of_nat (length out'))%Z ->
  exists g g',
    purify_measurement_cftadj out y data = Ok g /\
    purify_measurement_cftadj out' y
      (cft_bundle (data_param data) (data_deconv data) (data_mat data)
                  (data_plan data) temp') = Ok g' /\
    length g = length out /\ length g' = length out' /\
    (forall k, (k < Z.to_nat (nx1 (data_param data)
                              * ny1 (data_param data)))%nat ->
       cnth g' k = cnth g k) /\
    (forall p, (Z.to_nat (nx1 (data_param data)
                          * ny1 (data_param data)) <= p)%nat ->
       cnth g p = cnth out p /\ cnth g' p = cnth out' p).
Proof.
  intros (Hfit & Hwf & Hnc & Hpl & Ld & Lt) Lt' Ly Lo Lo'. cbv zeta in *.
  destruct data as [param deconv mat plan temp].
  cbn [data_param data_deconv data_mat data_plan data_temp] in *.
  destruct (cftadj_combination param deconv mat plan temp temp temp'
              out out out' y y y C1 C0)
    as (g & g2 & g' & E1 & E2 & E3 & L1 & L3 & Q1 & Q3 & H); auto.
  { intros k Hk. ring. }
  exists g, g'. unfold cft_bundle in *. repeat split; auto.
  intros r Hr. rewrite (H r Hr).
  rewrite E1 in E2. injection E2 as <-. ring.
Qed.

Lemma cftadj_overwrites_witness :
  exists g g',
    purify_measurement_cftadj [C0; Ci; C1] [Ci] (small_data 1) = Ok g /\
    purify_measurement_cftadj [C1; C1; Ci] [Ci]
      (cft_bundle (data_param (small_data 1))
                  (data_deconv (small_data 1))
                  (data_mat (small_data 1))
                  (data_plan (small_data 1)) (repeat Ci 8)) = Ok g' /\
    length g = 3%nat /\ length g' = 3%nat /\
    (forall k, (k < Z.to_nat (nx1 (data_param (small_data 1))
                              * ny1 (data_param (small_data 1))))%nat ->
       cnth g' k = cnth g k) /\
    (forall p, (Z.to_nat (nx1 (data_param (small_data 1))
                          * ny1 (data_param (small_data 1))) <= p)%nat ->
       cnth g p = cnth [C0; Ci; C1] p /\ cnth g' p = cnth [C1; C1; Ci] p).
Proof.
  apply (cftadj_overwrites [C0; Ci; C1] [C1; C1; Ci] [Ci] (small_data 1)
           (repeat Ci 8) (small_data_ok 1)); simpl; lia.
Defined.

(** ** The symmetric operators on real images *)

(** The inner-product identity of the two continuous operators, for data
    bundles that share the parameters, the kernel and the matrix. *)
Lemma cft_inner_bundles param deconv mat plan_fwd plan_adj temp_fwd temp_adj
      x y out_y out_x :
  window_fits param ->
  Z.even (cparam_nx2 param) = true -> Z.even (cparam_ny2 param) = true ->
  sparsemat_wf mat ->
  ncols mat = (cparam_nx2 param * cparam_ny2 param)%Z ->
  (plan_n0 plan_fwd * plan_n1 plan_fwd
   = cparam_nx2 param * cparam_ny2 param)%Z ->
  plan_n0 plan_adj = plan_n0 plan_fwd ->
  plan_n1 plan_adj = plan_n1 plan_fwd ->
  plan_sign plan_adj = (- plan_sign plan_fwd)%Z ->
  (nx1 param * ny1 param <= Z.of_nat (length deconv))%Z ->
  (cparam_nx2 param * cparam_ny2 param <= Z.of_nat (length temp_fwd))%Z ->
  (cparam_nx2 param * cparam_ny2 param <= Z.of_nat (length temp_adj))%Z ->
  (nx1 param * ny1 param <= Z.of_nat (length x))%Z ->
  (nrows mat <= Z.of_nat (length y))%Z ->
  (nrows mat <= Z.of_nat (length out_y))%Z ->
  (nx1 param * ny1 param <= Z.of_nat (length out_x))%Z ->
  exists fx ax,
    purify_measurement_cftfwd out_y x
      (cft_bundle param deconv mat plan_fwd temp_fwd) = Ok fx /\
    purify_measurement_cftadj out_x y
      (cft_bundle param deconv mat plan_adj temp_adj) = Ok ax /\
    length fx = length out_y /\ length ax = length out_x /\
    inner (Z.to_nat (nrows mat)) fx y
    = inner (Z.to_nat (nx1 param * ny1 param)) x ax.
Proof.
  intros Hfit Ex Ey Hwf Hnc Hpl Hp0 Hp1 Hs Ld Ltf Lta Lx Ly Loy Lox.
  destruct (window_fits_facts param Hfit)
    as (Hx & Hy & Hxx & Hpx & Hpy & Hy2 & HP & Hlast). cbv zeta in *.
  set (nx2 := cparam_nx2 param) in *. set (ny2 := cparam_ny2 param) in *.
  set (N := Z.to_nat (nx2 * ny2)).
  assert (HN : N = (Z.to_nat ny2 * Z.to_nat nx2)%nat) by (unfold N; lia).
  unfold purify_measurement_cftfwd, purify_measurement_cftadj, cft_bundle.
  cbn [data_param data_deconv data_mat data_plan data_temp].
  fold (cparam_nx2 param) (cparam_ny2 param). fold nx2 ny2.
  destruct (cft_zero_pad_spec param deconv x temp_fwd Hfit)
    as (t1 & E1 & L1 & _ & Hpad); try (fold nx2 ny2; lia).
  rewrite E1. cbn [bind].
  destruct (fftshift_spec t1 nx2 ny2) as (t2 & E2 & L2 & Hsh2); try lia.
  rewrite E2. cbn [bind].
  destruct (fftw_execute_dft_spec plan_fwd t2) as (t3 & E3 & L3 & Hft3);
    [lia|].
  rewrite E3. cbn [bind].
  destruct (sparse_fwd_spec mat out_y t3 Hwf) as (fx & E4 & L4 & Hfwd);
    try lia.
  rewrite E4.
  destruct (sparse_adj_spec mat temp_adj y Hwf) as (s1 & F1 & M1 & Hadj);
    try lia.
  rewrite F1. cbn [bind].
  destruct (fftw_execute_dft_spec plan_adj s1) as (s2 & F2 & M2 & Hfs2);
    [lia|].
  rewrite F2. cbn [bind].
  destruct (fftshift_spec s2 nx2 ny2) as (s3 & F3 & M3 & Hsh3); try lia.
  rewrite F3. cbn [bind].
  destruct (cft_crop_spec param deconv s3 out_x Hfit)
    as (ax & F4 & M4 & Hcrop & _); try (fold nx2 ny2; lia).
  rewrite F4.
  exists fx, ax. repeat split; try lia.
  rewrite Hfwd, <- Hadj, Hnc. fold nx2 ny2 N.
  rewrite (inner_crop param deconv x s3 ax) by (auto; lia).
  rewrite <- Hpad. fold nx2 ny2 N.
  assert (Hdft : inner N (dft plan_fwd t2) s1 = inner N t2 (dft plan_adj s1)).
  { pose proof (dft_adjoint plan_fwd plan_adj t2 s1 Hp0 Hp1 Hs) as H.
    cbv zeta in H. rewrite Hpl in H. exact H. }
  transitivity (inner N (dft plan_fwd t2) s1).
  { apply inner_ext; auto. intros k Hk. apply Hft3. rewrite Hpl. exact Hk. }
  rewrite Hdft.
  transitivity (inner N t2 s2).
  { apply inner_ext; auto. intros k Hk. symmetry. apply Hfs2.
    rewrite Hp0, Hp1, Hpl. exact Hk. }
  rewrite HN.
  apply (inner_fftshift (Z.to_nat nx2) (Z.to_nat ny2) t1 t2 s2 s3).
  - apply even_to_nat; [lia | exact Ex].
  - apply even_to_nat; [lia | exact Ey].
  - intros k Hk. apply Hsh2. fold N. lia.
  - intros k Hk. apply Hsh3. fold N. lia.
Qed.

Lemma real_times_twice (x a : complex) :
  cimag x = 0%R ->
  (conj x * a + conj (conj x * a) = conj x * mkC (2 * creal a) 0)%C.
Proof.
  destruct x as [xr xi], a as [ar ai]. simpl. intros ->.
  apply complex_eq; simpl; ring.
Qed.



(** ** The real and the complex transform *)

Lemma cnth_map_RtoC x j : cnth (map RtoC x) j = RtoC (nth j x 0%R).
Proof. unfold cnth. change C0 with (RtoC 0). apply map_nth. Qed.

(** The forward complex transform of a real signal, by frequency. *)
Lemma dft_real_half_plane p x k :
  (0 < plan_n1 p)%Z ->
  (k < Z.to_nat (plan_n0 p * plan_n1 p))%nat ->
  cnth (dft (forward_plan p) (map RtoC x)) k
  = half_plane p x (Z.of_nat k / plan_n1 p) (Z.of_nat k mod plan_n1 p).
Proof.
  intros H1 Hk. rewrite cnth_dft by exact Hk.
  unfold half_plane, forward_plan. cbn [plan_n0 plan_n1].
  apply Csum_ext. intros j Hj. rewrite cnth_map_RtoC.
  unfold dft_kernel. cbn [plan_n0 plan_n1 plan_sign]. reflexivity.
Qed.

(** X21.  The full plane that [purify_measurement_fft_real] completes by
    conjugate symmetry is the one that the complex transform
    [purify_measurement_fft_complex] computes from the same image: the two
    functions return the same spectrum, for even and for odd sizes. *)
Theorem fft_real_is_fft_complex out input plan img :
  (0 < nx img)%Z -> (0 < ny img)%Z ->
  plan_n0 plan = nx img -> plan_n1 plan = ny img ->
  (nx img * ny img <= Z.of_nat (length input))%Z ->
  Z.of_nat (length out) = (nx img * ny img)%Z ->
  exists y,
    purify_measurement_fft_real out input plan img = Ok y /\
    purify_measurement_fft_complex out (map RtoC input) (forward_plan plan)
    = Ok y.
Proof.
  intros H1 H2 Hp0 Hp1 Lin Lout.
  destruct (fft_real_full_plane_any out input plan img H1 H2 Hp0 Hp1 Lin Lout)
    as (y & E & Ly & Hy).
  exists y. split; [exact E|].
  unfold purify_measurement_fft_complex, fftw_execute_dft_to.
  assert (Hn : (plan_n0 (forward_plan plan) * plan_n1 (forward_plan plan)
                = nx img * ny img)%Z).
  { unfold forward_plan. cbn [plan_n0 plan_n1]. now rewrite Hp0, Hp1. }
  rewrite Hn, length_map.
  destruct (Z.ltb_spec (Z.of_nat (length input)) (nx img * ny img)); [lia|].
  destruct (Z.ltb_spec (Z.of_nat (length out)) (nx img * ny img)); [lia|].
  cbn [orb]. f_equal.
  rewrite skipn_all2 by lia. rewrite app_nil_r.
  apply (nth_ext _ _ C0 C0).
  { rewrite dft_length, Hn. lia. }
  intros k Hk. rewrite dft_length, Hn in Hk.
  fold (cnth (dft (forward_plan plan) (map RtoC input)) k) (cnth y k).
  rewrite dft_real_half_plane by (rewrite ?Hp0, ?Hp1; lia).
  rewrite Hp1.
  set (iu := (Z.of_nat k / ny img)%Z). set (iv := (Z.of_nat k mod ny img)%Z).
  assert (Hiv : (0 <= iv < ny img)%Z) by (apply Z.mod_pos_bound; lia).
  assert (Hiu : (0 <= iu < nx img)%Z).
  { split; [apply Z.div_pos; lia|]. apply Z.div_lt_upper_bound; [lia|]. nia. }
  assert (Hk' : k = Z.to_nat (purify_visibility_iuiv2ind iu iv (nx img)
                                                          (ny img))).
  { unfold purify_visibility_iuiv2ind.
    pose proof (Z.div_mod (Z.of_nat k) (ny img) ltac:(lia)).
    unfold iu, iv. lia. }
  rewrite Hk' at 1. fold (plane_nth y (nx img) (ny img) iu iv).
  rewrite Hy by assumption. unfold full_plane.
  destruct (Z.leb_spec iv (ny img / 2)); [reflexivity|].
  apply half_plane_hermitian; rewrite ?Hp0, ?Hp1; try lia.
  - pose proof (mirror_congr (nx img) iu H1) as Hm.
    replace (iu - - mirror (nx img) iu)%Z
      with (mirror (nx img) iu - - iu)%Z by lia. exact Hm.
  - replace (iv - - (ny img - iv))%Z with (1 * ny img)%Z by lia.
    apply Z.mod_mul. lia.
Qed.

Lemma fft_real_is_fft_complex_witness :
  let img := {| fov_x := 1; fov_y := 1; nx := 2; ny := 3;
                pix := [1; 2; 3; 4; 5; 6]%R |} in
  let plan := {| plan_n0 := 2; plan_n1 := 3; plan_sign := -1 |} in
  exists y,
    purify_measurement_fft_real (repeat C0 6) (pix img) plan img = Ok y /\
    purify_measurement_fft_complex (repeat C0 6) (map RtoC (pix img))
                                   (forward_plan plan) = Ok y.
Proof.
  cbv zeta.
  apply (fft_real_is_fft_complex
           (repeat C0 6) [1; 2; 3; 4; 5; 6]%R
           {| plan_n0 := 2; plan_n1 := 3; plan_sign := -1 |}
           {| fov_x := 1; fov_y := 1; nx := 2; ny := 3;
              pix := [1; 2; 3; 4; 5; 6]%R |});
    try reflexivity; simpl; lia.
Defined.

(** X22.  The conjugate symmetry of the spectrum that
    [purify_measurement_fft_real] returns does not need an even second
    dimension: it holds for every image size, the odd ones included. *)
Theorem fft_real_symmetry_any_size out input plan img :
  (0 < nx img)%Z -> (0 < ny img)%Z ->
  plan_n0 plan = nx img -> plan_n1 plan = ny img ->
  (nx img * ny img <= Z.of_nat (length input))%Z ->
  Z.of_nat (length out) = (nx img * ny img)%Z ->
  exists y, purify_measurement_fft_real out input plan img = Ok y /\
    length y = length out /\
    (forall iu iv, (0 <= iu < nx img)%Z -> (0 <= iv < ny img)%Z ->
       plane_nth y (nx img) (ny img) iu iv
       = conj (plane_nth y (nx img) (ny img)
                         (mirror (nx img) iu) (mirror (ny img) iv))) /\
    cimag (plane_nth y (nx img) (ny img) 0 0) = 0%R.
Proof.
  intros H1 H2 Hp0 Hp1 Lin Lout.
  destruct (fft_real_full_plane_any out input plan img H1 H2 Hp0 Hp1 Lin Lout)
    as (y & E & Ly & Hy).
  exists y. split; [exact E|]. split; [exact Ly|].
  assert (Hsym : forall iu iv,
            (0 <= iu < nx img)%Z -> (0 <= iv < ny img)%Z ->
            plane_nth y (nx img) (ny img) iu iv
            = conj (plane_nth y (nx img) (ny img)
                              (mirror (nx img) iu) (mirror (ny img) iv))).
  { intros iu iv Hu Hv.
    pose proof (mirror_range (nx img) iu H1).
    pose proof (mirror_range (ny img) iv H2).
    rewrite !Hy by lia. rewrite <- Hp0, <- Hp1.
    apply full_plane_symmetric_any; rewrite ?Hp0, ?Hp1; auto. }
  split; [exact Hsym|].
  specialize (Hsym 0%Z 0%Z ltac:(lia) ltac:(lia)).
  rewrite !mirror_zero in Hsym by assumption.
  apply (f_equal cimag) in Hsym. simpl in Hsym. lra.
Qed.

Lemma fft_real_symmetry_any_size_witness :
  let img := {| fov_x := 1; fov_y := 1; nx := 2; ny := 3;
                pix := [1; 2; 3; 4; 5; 6]%R |} in
  let plan := {| plan_n0 := 2; plan_n1 := 3; plan_sign := -1 |} in
  exists y,
    purify_measurement_fft_real (repeat C0 6) (pix img) plan img = Ok y /\
    length y = length (repeat C0 6) /\
    (forall iu iv, (0 <= iu < nx img)%Z -> (0 <= iv < ny img)%Z ->
       plane_nth y (nx img) (ny img) iu iv
       = conj (plane_nth y (nx img) (ny img)
                         (mirror (nx img) iu) (mirror (ny img) iv))) /\
    cimag (plane_nth y (nx img) (ny img) 0 0) = 0%R.
Proof.
  cbv zeta.
  apply (fft_real_symmetry_any_size
           (repeat C0 6) [1; 2; 3; 4; 5; 6]%R
           {| plan_n0 := 2; plan_n1 := 3; plan_sign := -1 |}
           {| fov_x := 1; fov_y := 1; nx := 2; ny := 3;
              pix := [1; 2; 3; 4; 5; 6]%R |});
    try reflexivity; simpl; lia.
Defined.

(** ** The power method on operators that succeed *)

Section PowerSafe.
Variables (first : operator) (first_data : cft_data).
Variables (second : operator) (second_data : cft_data).
Variables n m : Z.
Hypothesis first_ok : forall w v,
  length w = Z.to_nat m -> length v = Z.to_nat n ->
  exists w', first w v first_data = Ok w' /\ length w' = Z.to_nat m.
Hypothesis second_ok : forall v w,
  length v = Z.to_nat n -> length w = Z.to_nat m ->
  exists v', second v w second_data = Ok v' /\ length v' = Z.to_nat n.

Lemma pow_normalize_ok v c :
  length v = Z.to_nat n ->
  exists v', pow_normalize n v c = Ok v' /\ length v' = Z.to_nat n.
Proof.
  intros L. unfold pow_normalize.
  destruct (Z.le_gt_cases 0 n) as [Hn|Hn].
  - apply (for_range_inv (fun _ t => length t = Z.to_nat n)); auto.
    intros i t Hi Lt. rewrite (load_Ok C0) by lia. cbn [bind].
    rewrite store_Ok by lia. eexists. split; [reflexivity|].
    now rewrite upd_length.
  - rewrite for_range_empty by lia. eauto.
Qed.

Lemma pow_seed_ok ran :
  exists v, pow_seed ran n (malloc C0 n) = Ok v /\ length v = Z.to_nat n.
Proof.
  unfold pow_seed.
  destruct (Z.le_gt_cases 0 n) as [Hn|Hn].
  - apply (for_range_inv (fun _ t => length t = Z.to_nat n)); auto.
    + apply malloc_length.
    + intros i t Hi Lt. cbv zeta. rewrite store_Ok by lia.
      eexists. split; [reflexivity|]. now rewrite upd_length.
  - rewrite for_range_empty by lia. exists (malloc C0 n).
    split; [reflexivity | apply malloc_length].
Qed.

Lemma power_measure_ok v w c :
  length v = Z.to_nat n -> length w = Z.to_nat m ->
  exists v' w',
    power_measure first first_data second second_data n (v, w, c)
    = Ok (v', w', cblas_dznrm2 n v') /\
    length v' = Z.to_nat n /\ length w' = Z.to_nat m.
Proof.
  intros Lv Lw. unfold power_measure.
  destruct (first_ok w v Lw Lv) as (w' & E1 & Lw'). rewrite E1. cbn [bind].
  destruct (second_ok v w' Lv Lw') as (v' & E2 & Lv'). rewrite E2. cbn [bind].
  eauto.
Qed.

Lemma power_iterate_ok k : forall v w c,
  length v = Z.to_nat n -> length w = Z.to_nat m ->
  exists v' w' c',
    power_iterate first first_data second second_data n k (v, w, c)
    = Ok (v', w', c') /\
    length v' = Z.to_nat n /\ length w' = Z.to_nat m.
Proof.
  induction k as [|k IH]; intros v w c Lv Lw.
  - exists v, w, c. auto.
  - cbn [power_iterate].
    destruct (IH v w c Lv Lw) as (v1 & w1 & c1 & E & L1 & L2).
    rewrite E. cbn [bind].
    destruct (power_measure_ok v1 w1 c1 L1 L2) as (v2 & w2 & E2 & L3 & L4).
    rewrite E2. cbn [bind].
    destruct (pow_normalize_ok v2 (cblas_dznrm2 n v2) L3) as (v3 & E3 & L5).
    rewrite E3. cbn [bind]. eauto 7.
Qed.

Lemma power_bound_ok k v w c :
  length v = Z.to_nat n -> length w = Z.to_nat m ->
  exists bound norm,
    power_bound first first_data second second_data n k (v, w, c)
    = Ok (bound, norm) /\ (0 <= bound)%R.
Proof.
  intros Lv Lw. unfold power_bound.
  destruct (power_iterate_ok k v w c Lv Lw) as (v1 & w1 & c1 & E & L1 & L2).
  rewrite E. cbn [bind].
  destruct (power_measure_ok v1 w1 c1 L1 L2) as (v2 & w2 & E2 & _).
  rewrite E2. cbn [bind]. eexists; eexists. split; [reflexivity|].
  unfold cblas_dznrm2. apply sqrt_pos.
Qed.

(** No outcome of the power method is an error, and the bound is not
    negative. *)
Lemma power_outcome_ok ran r :
  power_outcome first first_data second second_data n m ran r ->
  exists s, r = Ok s /\ (1 <= passes s <= 200)%nat /\ (0 <= pow_bound s)%R.
Proof.
  unfold power_outcome, power_initial.
  destruct (pow_seed_ok ran) as (v0 & E0 & L0). rewrite E0. cbn [bind].
  destruct (pow_normalize_ok v0 (cblas_dznrm2 n v0) L0) as (v & E1 & L1).
  rewrite E1. cbn [bind].
  assert (Lw : length (malloc C0 m) = Z.to_nat m) by apply malloc_length.
  destruct r as [s|e].
  - intros (Hp & (norm & Hb) & _). exists s. split; [reflexivity|].
    split; [exact Hp|].
    destruct (power_bound_ok (passes s - 1) v (malloc C0 m) 1%R L1 Lw)
      as (b & c & Eb & Hpos).
    rewrite Eb in Hb. injection Hb as <- _. exact Hpos.
  - intros (k & _ & _ & [Hb | [_ Hi]]).
    + destruct (power_bound_ok k v (malloc C0 m) 1%R L1 Lw)
        as (b & c & Eb & _). congruence.
    + destruct (power_iterate_ok (S k) v (malloc C0 m) 1%R L1 Lw)
        as (v' & w' & c' & Ei & _). congruence.
Qed.
End PowerSafe.



(** ** Normalization of the iterate *)

Lemma pow_normalize_spec n v c :
  (0 <= n <= Z.of_nat (length v))%Z ->
  exists v', pow_normalize n v c = Ok v' /\ length v' = length v /\
    forall k, cnth v' k =
              if (Z.of_nat k <? n)%Z then Cdivr (cnth v k) c else cnth v k.
Proof.
  intros Hn. unfold pow_normalize.
  destruct (for_range_inv
              (fun i t => length t = length v /\
                 forall k, cnth t k =
                   if (Z.of_nat k <? i)%Z then Cdivr (cnth v k) c
                   else cnth v k)
              0 n (fun i x => xi <- load x i ;; store x i (Cdivr xi c)) v)
    as (v' & E & L & H); try lia.
  - split; [reflexivity|]. intros k.
    destruct (Z.ltb_spec (Z.of_nat k) 0); [lia | reflexivity].
  - intros i t Hi (Lt & Ht).
    rewrite load_cnth by lia. cbn [bind]. rewrite store_Ok by lia.
    eexists. split; [reflexivity|]. rewrite upd_length.
    split; [exact Lt|]. intros k.
    destruct (Nat.eq_dec k (Z.to_nat i)) as [->|Hne].
    + rewrite cnth_upd_eq by lia. rewrite Ht.
      destruct (Z.ltb_spec (Z.of_nat (Z.to_nat i)) i); [lia|].
      destruct (Z.ltb_spec (Z.of_nat (Z.to_nat i)) (i + 1)); [|lia].
      reflexivity.
    + rewrite cnth_upd_ne by lia. rewrite Ht.
      destruct (Z.ltb_spec (Z.of_nat k) i);
        destruct (Z.ltb_spec (Z.of_nat k) (i + 1)); auto; lia.
  - exists v'. auto.
Qed.

Lemma creal_inner_nonneg n v : (0 <= creal (inner n v v))%R.
Proof.
  unfold inner. induction n as [|n IH]; simpl; [lra|].
  destruct (cnth v n) as [a b]. simpl. nra.
Qed.

Lemma inner_scaled n v v' c :
  (forall k, (k < n)%nat -> cnth v' k = Cdivr (cnth v k) c) ->
  inner n v' v' = (inner n v v * RtoC (/ c * / c))%C.
Proof.
  intros H. unfold inner. rewrite <- Csum_mul_r. apply Csum_ext.
  intros k Hk. rewrite H by exact Hk.
  destruct (cnth v k) as [a b]. apply complex_eq; simpl;
    unfold Rdiv; ring.
Qed.

(** X24.  Dividing a vector by its own Euclidean norm, as the power method does
    with its seed and after every pass, leaves a vector of norm one,
    provided the norm is not zero. *)
Theorem pow_normalize_unit n v :
  (0 <= n <= Z.of_nat (length v))%Z ->
  cblas_dznrm2 n v <> 0%R ->
  exists v', pow_normalize n v (cblas_dznrm2 n v) = Ok v' /\
             length v' = length v /\ cblas_dznrm2 n v' = 1%R.
Proof.
  intros Hn Hc.
  destruct (pow_normalize_spec n v (cblas_dznrm2 n v) Hn)
    as (v' & E & L & H).
  exists v'. split; [exact E|]. split; [exact L|].
  unfold cblas_dznrm2 in *.
  set (S := creal (inner (Z.to_nat n) v v)) in *.
  pose proof (creal_inner_nonneg (Z.to_nat n) v) as HS. fold S in HS.
  rewrite (inner_scaled (Z.to_nat n) v v' (sqrt S)).
  - assert (Hsq : (sqrt S * sqrt S = S)%R) by (apply sqrt_sqrt; exact HS).
    replace (creal (inner (Z.to_nat n) v v * RtoC (/ sqrt S * / sqrt S)))
      with 1%R; [apply sqrt_1|].
    simpl. fold S.
    replace (S * (/ sqrt S * / sqrt S) - cimag (inner (Z.to_nat n) v v) * 0)%R
      with ((sqrt S * sqrt S) * (/ sqrt S * / sqrt S))%R
      by (rewrite Hsq; ring).
    field. exact Hc.
  - intros k Hk. rewrite H.
    destruct (Z.ltb_spec (Z.of_nat k) n); [reflexivity | lia].
Qed.

Lemma pow_normalize_unit_witness :
  exists v',
    pow_normalize 2 [mkC 3 0; mkC 0 4]
                  (cblas_dznrm2 2 [mkC 3 0; mkC 0 4]) = Ok v' /\
    length v' = 2%nat /\ cblas_dznrm2 2 v' = 1%R.
Proof.
  apply (pow_normalize_unit 2 [mkC 3 0; mkC 0 4]); [simpl; lia|].
  unfold cblas_dznrm2, inner. simpl.
  intros H. apply sqrt_eq_0 in H; lra.
Defined.

(** ** The window of the base image in the padded grid *)

Lemma load_cases {A : Type} (buf : list A) i :
  load buf i = Err Undefined \/ exists v, load buf i = Ok v.
Proof.
  unfold load. destruct (i <? 0)%Z; [auto|].
  destruct (nth_error buf (Z.to_nat i)); eauto.
Qed.

Lemma store_cases {A : Type} (buf : list A) i v :
  store buf i v = Err Undefined \/
  exists buf', store buf i v = Ok buf' /\ length buf' = length buf.
Proof.
  unfold store.
  destruct ((0 <=? i) && (i <? Z.of_nat (length buf)))%Z; [|auto].
  right. eexists. split; [reflexivity | apply upd_length].
Qed.

(** A counted loop whose iterations fail with [e] or keep [P] fails with
    [e] or keeps [P]. *)
Lemma for_loop_cases {S : Type} (P : S -> Prop) e n :
  forall lo (body : Z -> S -> result S) s,
  (forall i t, P t ->
     body i t = Err e \/ exists t', body i t = Ok t' /\ P t') ->
  P s ->
  for_loop n lo body s = Err e \/
  exists s', for_loop n lo body s = Ok s' /\ P s'.
Proof.
  induction n as [|n IH]; intros lo body s Hstep Hs; cbn [for_loop].
  - right. eauto.
  - destruct (Hstep lo s Hs) as [E|(t' & E & Ht')]; rewrite E; cbn [bind];
      [auto|]. now apply IH.
Qed.

(** The copy of one pixel into the padded grid fails with undefined
    behaviour or keeps the size of the buffer. *)
Lemma cft_pad_pixel_cases param deconv (xin : list complex) i j t :
  let body :=
    (x <- load xin (j * nx1 param + i)%Z ;;
     t <- store t (cft_pad_index param i j)
                (x * RtoC (cft_scale param))%C ;;
     tv <- load t (cft_pad_index param i j) ;;
     dv <- load deconv (j * nx1 param + i)%Z ;;
     store t (cft_pad_index param i j) (tv * RtoC dv)%C) in
  body = Err Undefined \/
  exists t', body = Ok t' /\ length t' = length t.
Proof.
  cbv zeta.
  destruct (load_cases xin (j * nx1 param + i)) as [E|(x & E)];
    rewrite E; cbn [bind]; [auto|].
  destruct (store_cases t (cft_pad_index param i j)
                        (x * RtoC (cft_scale param))%C)
    as [E1|(t1 & E1 & L1)]; rewrite E1; cbn [bind]; [auto|].
  destruct (load_cases t1 (cft_pad_index param i j)) as [E2|(tv & E2)];
    rewrite E2; cbn [bind]; [auto|].
  destruct (load_cases deconv (j * nx1 param + i)) as [E3|(dv & E3)];
    rewrite E3; cbn [bind]; [auto|].
  destruct (store_cases t1 (cft_pad_index param i j) (tv * RtoC dv)%C)
    as [E4|(t2 & E4 & L4)]; rewrite E4; [auto|].
  right. exists t2. split; [reflexivity | congruence].
Qed.

(** X25.  When the quarter-offset window of the base image does not fit the
    padded grid (the padded index of the last pixel is not below
    [nx2*ny2], as with oversampling factor 1), [purify_measurement_cftfwd]
    writes behind its scratch memory of [nx2*ny2] cells. *)
Theorem cftfwd_window_overflow out x data :
  let param := data_param data in
  (0 < nx1 param)%Z -> (0 < ny1 param)%Z ->
  (1 <= ofx param)%Z -> (1 <= ofy param)%Z ->
  Z.of_nat (length (data_temp data))
  = (cparam_nx2 param * cparam_ny2 param)%Z ->
  (cparam_nx2 param * cparam_ny2 param
   <= cft_pad_index param (nx1 param - 1) (ny1 param - 1))%Z ->
  purify_measurement_cftfwd out x data = Err Undefined.
Proof.
  intros param Hx Hy Hox Hoy Lt Hover.
  unfold purify_measurement_cftfwd. fold param.
  assert (Hpad : cft_zero_pad param (data_deconv data) x (data_temp data)
                 = Err Undefined); [|now rewrite Hpad].
  unfold cft_zero_pad. fold (cparam_nx2 param) (cparam_ny2 param).
  set (n2 := (cparam_nx2 param * cparam_ny2 param)%Z) in *.
  assert (Hn2 : (0 <= n2)%Z) by lia.
  destruct (for_range_fill C0 (fun _ : Z => (RtoC 0 + RtoC 0 * Ci)%C) 0 n2
              (data_temp data)) as (t0 & E0 & L0 & _); try lia.
  rewrite E0. cbn [bind].
  set (P := fun t : list complex => length t = length t0).
  unfold for_range.
  assert (Hrow : forall j t, P t ->
            for_loop (Z.to_nat (nx1 param - 0)) 0
              (fun i t0 =>
                 x0 <- load x (j * nx1 param + i)%Z ;;
                 t1 <- store t0 (cft_pad_index param i j)
                             (x0 * RtoC (cft_scale param))%C ;;
                 tv <- load t1 (cft_pad_index param i j) ;;
                 dv <- load (data_deconv data) (j * nx1 param + i)%Z ;;
                 store t1 (cft_pad_index param i j) (tv * RtoC dv)%C) t
            = Err Undefined \/
            exists t', for_loop (Z.to_nat (nx1 param - 0)) 0
              (fun i t0 =>
                 x0 <- load x (j * nx1 param + i)%Z ;;
                 t1 <- store t0 (cft_pad_index param i j)
                             (x0 * RtoC (cft_scale param))%C ;;
                 tv <- load t1 (cft_pad_index param i j) ;;
                 dv <- load (data_deconv data) (j * nx1 param + i)%Z ;;
                 store t1 (cft_pad_index param i j) (tv * RtoC dv)%C) t
              = Ok t' /\ P t').
  { intros j t Ht. apply (for_loop_cases P); [|exact Ht].
    intros i t1 Ht1.
    destruct (cft_pad_pixel_cases param (data_deconv data) x i j t1)
      as [E|(t' & E & L)]; [left; exact E|].
    right. exists t'. split; [exact E|]. unfold P in *. congruence. }
  apply (for_loop_fails P Undefined (Z.to_nat (ny1 param - 0)) 0 _ t0
           (Z.to_nat (ny1 param - 1))); try lia.
  - exact Hrow.
  - intros t Ht. rewrite Z.add_0_l, Z2Nat.id by lia.
    apply (for_loop_fails P Undefined (Z.to_nat (nx1 param - 0)) 0 _ t
             (Z.to_nat (nx1 param - 1))); try lia; [| |exact Ht].
    + intros i t1 Ht1.
      destruct (cft_pad_pixel_cases param (data_deconv data) x i
                  (ny1 param - 1) t1) as [E|(t' & E & L)];
        [left; exact E|].
      right. exists t'. split; [exact E|]. unfold P in *. congruence.
    + intros t1 Ht1. rewrite Z.add_0_l, Z2Nat.id by lia.
      destruct (load_cases x ((ny1 param - 1) * nx1 param + (nx1 param - 1)))
        as [E|(x0 & E)]; rewrite E; cbn [bind]; [reflexivity|].
      rewrite store_oob; [reflexivity|].
      unfold P in Ht1. rewrite Ht1, L0. lia.
  - reflexivity.
Qed.

Lemma cftfwd_window_overflow_witness :
  purify_measurement_cftfwd [C0] (repeat C1 16)
    {| data_param := {| nmeas := 1; nx1 := 4; ny1 := 4; ofx := 1; ofy := 1;
                        umax := 1; vmax := 1 |};
       data_deconv := repeat 1%R 16;
       data_mat := data_mat (small_data 1);
       data_plan := {| plan_n0 := 4; plan_n1 := 4; plan_sign := -1 |};
       data_temp := repeat C0 16 |} = Err Undefined.
Proof.
  apply (cftfwd_window_overflow [C0] (repeat C1 16)
    {| data_param := {| nmeas := 1; nx1 := 4; ny1 := 4; ofx := 1; ofy := 1;
                        umax := 1; vmax := 1 |};
       data_deconv := repeat 1%R 16;
       data_mat := data_mat (small_data 1);
       data_plan := {| plan_n0 := 4; plan_n1 := 4; plan_sign := -1 |};
       data_temp := repeat C0 16 |});
    try (simpl; lia); try reflexivity.
  apply Z.leb_le. reflexivity.
Defined.

(** ** The composite of the two continuous operators *)

Lemma cimag_inner_self n v : cimag (inner n v v) = 0%R.
Proof.
  unfold inner. induction n as [|n IH]; simpl; [reflexivity|].
  rewrite IH. destruct (cnth v n) as [a b]. simpl. ring.
Qed.



(** ** The set-up followed by the operators *)

(** With oversampling factor 2 the window of the base image fits the
    padded grid. *)
Lemma window_fits_oversampling_two param :
  ofx param = 2%Z -> ofy param = 2%Z ->
  (0 < nx1 param)%Z -> (0 < ny1 param)%Z -> window_fits param.
Proof.
  intros Hox Hoy Hx Hy. unfold window_fits, cft_pad_index, cparam_nx2,
    cparam_ny2. rewrite Hox, Hoy.
  repeat split; try lia.
  rewrite !Z.quot_div_nonneg by lia.
  assert (Hqx : (2 * nx1 param / 4 <= nx1 param)%Z)
    by (apply Z.div_le_upper_bound; lia).
  assert (Hqy : (2 * ny1 param / 4 < ny1 param)%Z)
    by (apply Z.div_lt_upper_bound; lia).
  nia.
Qed.



(** ** The columns of one row of the interpolation matrix *)

Lemma wrap_index_cases i n :
  wrap_index i n = i \/ wrap_index i n = (i + n)%Z \/
  wrap_index i n = (i - n)%Z.
Proof.
  unfold wrap_index.
  destruct (i <? 0)%Z; [destruct (i + n >=? n)%Z | destruct (i >=? n)%Z];
    [left; lia | auto | auto | auto].
Qed.

(** The column indices of the taps of every row, with the two wrapped
    coordinates in the grid. *)
Lemma init_cft_columns param deconv u v :
  (0 <= nmeas param)%Z ->
  Z.of_nat (length u) = nmeas param -> Z.of_nat (length v) = nmeas param ->
  (nx1 param * ny1 param <= Z.of_nat (length deconv))%Z ->
  is_int (cparam_nx2 param) -> is_int (cparam_ny2 param) ->
  Z.even (cparam_nx2 param) = true -> Z.even (cparam_ny2 param) = true ->
  (4 <= cparam_nx2 param)%Z -> (4 <= cparam_ny2 param)%Z ->
  (forall i, (0 <= i < nmeas param)%Z ->
     (- umax param < rnth u i <= umax param)%R /\
     (- vmax param < rnth v i <= vmax param)%R) ->
  exists mat deconv',
    purify_measurement_init_cft deconv u v param = Ok (mat, deconv') /\
    forall i t, (0 <= i < nmeas param)%Z -> (0 <= t < numel)%Z ->
      exists idu idv,
        (0 <= wrap_index (tap_iu idu t) (cparam_nx2 param)
         < cparam_nx2 param)%Z /\
        (0 <= wrap_index (tap_iv idv t) (cparam_ny2 param)
         < cparam_ny2 param)%Z /\
        forall t', (0 <= t' < numel)%Z ->
          (0 <= wrap_index (tap_iu idu t') (cparam_nx2 param)
           < cparam_nx2 param)%Z /\
          (0 <= wrap_index (tap_iv idv t') (cparam_ny2 param)
           < cparam_ny2 param)%Z /\
          znth (colind mat) (i * numel + t')
          = (wrap_index (tap_iv idv t') (cparam_ny2 param)
             * cparam_nx2 param
             + wrap_index (tap_iu idu t') (cparam_nx2 param))%Z.
Proof.
  intros Hn Hu Hv Hd Ix Iy Ex Ey Hx Hy Hc.
  assert (Hwin : forall i, (0 <= i < nmeas param)%Z ->
     window_is_int (rnth u i) (cparam_uinc param) /\
     window_is_int (rnth v i) (cparam_vinc param)).
  { intros i Hi. destruct (Hc i Hi) as [Hcu Hcv]. split.
    - apply (nearest_in_grid _ _ _ Hx Ix Ex Hcu).
    - apply (nearest_in_grid _ _ _ Hy Iy Ey Hcv). }
  destruct (init_cft_spec param deconv u v Hn Hu Hv Hd Hwin)
    as (mat & deconv' & E & _ & _ & _ & _ & _ & _ & _ & Hcol & _).
  exists mat, deconv'. split; [exact E|].
  intros i t Hi Ht. destruct (Hc i Hi) as [Hcu Hcv].
  pose proof (nearest_in_grid _ _ _ Hx Ix Ex Hcu) as [_ Gu].
  pose proof (nearest_in_grid _ _ _ Hy Iy Ey Hcv) as [_ Gv].
  cbv zeta in Gu, Gv.
  exists (nearest (rnth u i) (cparam_uinc param)),
         (nearest (rnth v i) (cparam_vinc param)).
  split; [apply Gu; exact Ht|]. split; [apply Gv; exact Ht|].
  intros t' Ht'. split; [apply Gu; exact Ht'|].
  split; [apply Gv; exact Ht'|].
  rewrite Hcol by assumption. reflexivity.
Qed.

(** X28.  On a padded grid of at least 5-by-5 cells (coordinates in range)
    the 25 taps of every row of the matrix built by
    [purify_measurement_init_cft] point to 25 different columns. *)
Theorem init_cft_row_columns_distinct param deconv u v :
  (0 <= nmeas param)%Z ->
  Z.of_nat (length u) = nmeas param -> Z.of_nat (length v) = nmeas param ->
  (nx1 param * ny1 param <= Z.of_nat (length deconv))%Z ->
  is_int (cparam_nx2 param) -> is_int (cparam_ny2 param) ->
  Z.even (cparam_nx2 param) = true -> Z.even (cparam_ny2 param) = true ->
  (5 <= cparam_nx2 param)%Z -> (5 <= cparam_ny2 param)%Z ->
  (forall i, (0 <= i < nmeas param)%Z ->
     (- umax param < rnth u i <= umax param)%R /\
     (- vmax param < rnth v i <= vmax param)%R) ->
  exists mat deconv',
    purify_measurement_init_cft deconv u v param = Ok (mat, deconv') /\
    forall i t t', (0 <= i < nmeas param)%Z ->
      (0 <= t < numel)%Z -> (0 <= t' < numel)%Z -> t <> t' ->
      znth (colind mat) (i * numel + t) <> znth (colind mat) (i * numel + t').
Proof.
  intros Hn Hu Hv Hd Ix Iy Ex Ey Hx Hy Hc.
  destruct (init_cft_columns param deconv u v)
    as (mat & deconv' & E & Hcol); auto; try lia.
  exists mat, deconv'. split; [exact E|].
  intros i t t' Hi Ht Ht' Hne Heq.
  destruct (Hcol i t Hi Ht) as (idu & idv & _ & _ & H).
  destruct (H t Ht) as (Ru & Rv & Et).
  destruct (H t' Ht') as (Ru' & Rv' & Et').
  rewrite Et, Et' in Heq.
  set (nx2 := cparam_nx2 param) in *. set (ny2 := cparam_ny2 param) in *.
  assert (Hv' : wrap_index (tap_iv idv t) ny2 = wrap_index (tap_iv idv t') ny2)
    by nia.
  assert (Hu' : wrap_index (tap_iu idu t) nx2 = wrap_index (tap_iu idu t') nx2)
    by nia.
  assert (Ht5 : (0 <= t < 25)%Z) by exact Ht.
  assert (Ht5' : (0 <= t' < 25)%Z) by exact Ht'.
  unfold tap_iu, tap_iv, nmask in *. change (2 * 2 + 1)%Z with 5%Z in *.
  pose proof (Z.mod_pos_bound t 5 ltac:(lia)).
  pose proof (Z.mod_pos_bound t' 5 ltac:(lia)).
  pose proof (Z.div_mod t 5 ltac:(lia)).
  pose proof (Z.div_mod t' 5 ltac:(lia)).
  assert (0 <= t / 5 < 5)%Z
    by (split; [apply Z.div_pos; lia | apply Z.div_lt_upper_bound; lia]).
  assert (0 <= t' / 5 < 5)%Z
    by (split; [apply Z.div_pos; lia | apply Z.div_lt_upper_bound; lia]).
  destruct (wrap_index_cases (idu - 2 + t mod 5) nx2) as [A|[A|A]];
    destruct (wrap_index_cases (idu - 2 + t' mod 5) nx2) as [B|[B|B]];
    destruct (wrap_index_cases (idv - 2 + t / 5) ny2) as [C|[C|C]];
    destruct (wrap_index_cases (idv - 2 + t' / 5) ny2) as [D|[D|D]];
    lia.
Qed.

Lemma init_cft_row_columns_distinct_witness :
  let param := {| nmeas := 1; nx1 := 3; ny1 := 3; ofx := 2; ofy := 2;
                  umax := 1; vmax := 1 |} in
  exists mat deconv',
    purify_measurement_init_cft (repeat 0%R 9) [0%R] [0%R] param
      = Ok (mat, deconv') /\
    forall i t t', (0 <= i < nmeas param)%Z ->
      (0 <= t < numel)%Z -> (0 <= t' < numel)%Z -> t <> t' ->
      znth (colind mat) (i * numel + t) <> znth (colind mat) (i * numel + t').
Proof.
  cbv zeta.
  apply (init_cft_row_columns_distinct
           {| nmeas := 1; nx1 := 3; ny1 := 3; ofx := 2; ofy := 2;
              umax := 1; vmax := 1 |} (repeat 0%R 9) [0%R] [0%R]);
    try reflexivity;
    try (unfold is_int, INT_MIN, INT_MAX, cparam_nx2, cparam_ny2; simpl; lia).
  intros i Hi. simpl in Hi. assert (i = 0%Z) as -> by lia.
  unfold rnth. simpl. lra.
Defined.

(** X29.  On a padded grid that is only 4 cells wide the support window of
    5 cells wraps onto itself: the first and the last tap of every line of
    the window (taps [5*b] and [5*b + 4]) point to the same column, so that
    the row holds duplicate column indices. *)
Theorem init_cft_width_four_duplicates param deconv u v :
  (0 <= nmeas param)%Z ->
  Z.of_nat (length u) = nmeas param -> Z.of_nat (length v) = nmeas param ->
  (nx1 param * ny1 param <= Z.of_nat (length deconv))%Z ->
  cparam_nx2 param = 4%Z -> is_int (cparam_ny2 param) ->
  Z.even (cparam_ny2 param) = true -> (4 <= cparam_ny2 param)%Z ->
  (forall i, (0 <= i < nmeas param)%Z ->
     (- umax param < rnth u i <= umax param)%R /\
     (- vmax param < rnth v i <= vmax param)%R) ->
  exists mat deconv',
    purify_measurement_init_cft deconv u v param = Ok (mat, deconv') /\
    forall i b, (0 <= i < nmeas param)%Z -> (0 <= b < 5)%Z ->
      znth (colind mat) (i * numel + 5 * b)
      = znth (colind mat) (i * numel + (5 * b + 4)).
Proof.
  intros Hn Hu Hv Hd Hx4 Iy Ey Hy Hc.
  destruct (init_cft_columns param deconv u v)
    as (mat & deconv' & E & Hcol); auto; try lia;
    try (rewrite Hx4; unfold is_int, INT_MIN, INT_MAX; lia);
    try (rewrite Hx4; reflexivity).
  exists mat, deconv'. split; [exact E|].
  intros i b Hi Hb.
  assert (Ht : (0 <= 5 * b < numel)%Z) by (unfold numel, nmask; lia).
  assert (Ht' : (0 <= 5 * b + 4 < numel)%Z) by (unfold numel, nmask; lia).
  destruct (Hcol i (5 * b)%Z Hi Ht) as (idu & idv & _ & _ & H).
  destruct (H _ Ht) as (Ru & Rv & Et).
  destruct (H _ Ht') as (Ru' & Rv' & Et').
  rewrite Et, Et'. clear Et Et' H Hcol. rewrite Hx4 in *.
  unfold tap_iu, tap_iv, nmask in *. change (2 * 2 + 1)%Z with 5%Z in *.
  assert (Q1 : (5 * b / 5 = b)%Z) by (rewrite Z.mul_comm, Z.div_mul; lia).
  assert (Q2 : ((5 * b + 4) / 5 = b)%Z)
    by (symmetry; apply (Z.div_unique _ 5 b 4); lia).
  assert (M1 : ((5 * b) mod 5 = 0)%Z)
    by (rewrite Z.mul_comm, Z.mod_mul; lia).
  assert (M2 : ((5 * b + 4) mod 5 = 4)%Z)
    by (symmetry; apply (Z.mod_unique _ 5 b 4); lia).
  rewrite Q1, Q2, M1, M2 in *. f_equal.
  destruct (wrap_index_cases (idu - 2 + 0) 4) as [A|[A|A]];
    destruct (wrap_index_cases (idu - 2 + 4) 4) as [B|[B|B]]; lia.
Qed.

Lemma init_cft_width_four_duplicates_witness :
  let param := {| nmeas := 1; nx1 := 2; ny1 := 2; ofx := 2; ofy := 2;
                  umax := 1; vmax := 1 |} in
  exists mat deconv',
    purify_measurement_init_cft [0; 0; 0; 0]%R [0%R] [0%R] param
      = Ok (mat, deconv') /\
    forall i b, (0 <= i < nmeas param)%Z -> (0 <= b < 5)%Z ->
      znth (colind mat) (i * numel + 5 * b)
      = znth (colind mat) (i * numel + (5 * b + 4)).
Proof.
  cbv zeta.
  apply (init_cft_width_four_duplicates
           {| nmeas := 1; nx1 := 2; ny1 := 2; ofx := 2; ofy := 2;
              umax := 1; vmax := 1 |} [0; 0; 0; 0]%R [0%R] [0%R]);
    try reflexivity;
    try (unfold is_int, INT_MIN, INT_MAX, cparam_nx2, cparam_ny2; simpl; lia).
  intros i Hi. simpl in Hi. assert (i = 0%Z) as -> by lia.
  unfold rnth. simpl. lra.
Defined.
